(** * 3D-Flipbook: pagination model, engines and facade

    A shallow embedding of [packages/core/src/engines/CSSEngine.ts],
    [packages/core/src/engines/WebGLEngine.ts],
    [packages/core/src/engines/SimpleWebGLEngine.ts] and
    [packages/core/src/core.ts].

    Counts (lengths, numbers of loaded images) are integers ([Z]).  A
    position is a JavaScript [number], since [goToPage] stores what it is
    given: an integer, a finite number that is not an integer, an infinity or
    NaN.  Arrays are lists read with stdpp's lookup [l !! i], where an index
    out of range is [None] (JavaScript's [undefined]); the [Set<number>] of
    loaded image indices is a [gset nat]; ratios of counts are rationals.

    A method either returns or throws.  An exception that leaves an [async]
    method rejects the promise of the call; an exception that leaves a
    listener is reported by the browser and changes nothing else.  In both
    cases the assignments and callbacks made before the exception stay.

    The browser is modelled by what the engines observe of it: the pending
    [setTimeout] callbacks and timelines, the state of every load promise and
    of [Promise.all], the queue of promise jobs, and the sequence of
    configuration callbacks that were invoked.  One task of the event loop is
    a handler followed by the promise jobs it queued.  The keyboard, click,
    arrow-button and swipe handlers of the layered engine return when a flip
    is in progress and otherwise call [goToNextSpread] or [goToPrevSpread]:
    they act as a call of [nextPage] or [prevPage], and the pointer handlers
    of the scene-graph engine call [nextPage] or [prevPage] themselves.  The
    listeners are embedded after the public methods of each engine, as the
    inputs of a mounted engine.

    The configuration that the facade merges and validates is a JavaScript
    object, embedded as a finite map from property names to values; the
    engines read the record [FlipbookConfig] of the fields they use. *)

From Stdlib Require Import ZArith QArith Qabs List String Ascii Lia SpecFloat.
From stdpp Require Import base decidable option list gmap sets strings.
From Equations Require Import Equations.

Import ListNotations.
Local Open Scope string_scope.
Local Open Scope list_scope.
Local Open Scope Z_scope.

(** ** JavaScript values *)

(** A non-empty string is truthy, the empty string is falsy. *)
Definition truthy (s : string) : bool :=
  match s with
  | EmptyString => false
  | String _ _ => true
  end.

(** [x || null] for [x : string | undefined]. *)
Definition or_null (x : option string) : option string :=
  match x with
  | Some s => if truthy s then Some s else None
  | None => None
  end.

(** [if (x)] for [x : string | null]. *)
Definition truthy_opt (x : option string) : bool :=
  match x with
  | Some s => truthy s
  | None => false
  end.

(** [a[i]] for an integer [i]. *)
Definition at_index {A : Type} (a : list A) (i : Z) : option A :=
  if i <? 0 then None else a !! Z.to_nat i.

(** ** JavaScript numbers *)

(** A [number] is a double.  The integers are kept apart and have the exact
    arithmetic of [Z]: the positions and counts of the engines stay far below
    2^53, up to where doubles add and halve integers exactly.  [Fraction
    negative k e] is the finite number [(2k+1) / 2^e], negated when
    [negative]; every finite double that is not an integer is of this form
    in exactly one way.  The two zeros are one value: the comparisons
    of JavaScript do not tell them apart. *)
Inductive number : Type :=
| Int (z : Z)
| Fraction (negative : bool) (k : N) (e : positive)
| Infinity (negative : bool)
| NaN.

Coercion Int : Z >-> number.

#[global] Instance number_eq_dec : EqDecision number.
Proof. solve_decision. Defined.

Module Number.

(** A finite number is [numerator / 2 ^ exponent]. *)
Definition numerator (x : number) : Z :=
  match x with
  | Int z => z
  | Fraction negative k e => cond_Zopp negative (2 * Z.of_N k + 1)
  | _ => 0
  end.

Definition exponent (x : number) : Z :=
  match x with
  | Fraction _ _ e => Zpos e
  | _ => 0
  end.

(** The order of two numbers; NaN is not ordered with any number. *)
Definition compare (x y : number) : option comparison :=
  match x, y with
  | NaN, _ => None
  | _, NaN => None
  | Int a, Int b => Some (a ?= b)
  | Infinity true, Infinity true => Some Eq
  | Infinity false, Infinity false => Some Eq
  | Infinity true, _ => Some Lt
  | Infinity false, _ => Some Gt
  | _, Infinity true => Some Gt
  | _, Infinity false => Some Lt
  | _, _ => Some (numerator x * 2 ^ exponent y ?= numerator y * 2 ^ exponent x)
  end.

(** [x < y]. *)
Definition ltb (x y : number) : bool :=
  match compare x y with
  | Some Lt => true
  | _ => false
  end.

(** [x <= y]. *)
Definition leb (x y : number) : bool :=
  match compare x y with
  | Some Lt | Some Eq => true
  | _ => false
  end.

(** [x >= y]. *)
Definition geb (x y : number) : bool :=
  match compare x y with
  | Some Gt | Some Eq => true
  | _ => false
  end.

(** [x === y]. *)
Definition eqb (x y : number) : bool :=
  match compare x y with
  | Some Eq => true
  | _ => false
  end.

(** The number [m / 2^e] for [m] positive, negated when [negative]. *)
Fixpoint dyadic (negative : bool) (m : positive) (e : positive) : number :=
  match m with
  | xH => Fraction negative 0 e
  | xI p => Fraction negative (Npos p) e
  | xO p =>
      match e with
      | xH => Int (cond_Zopp negative (Zpos p))
      | _ => dyadic negative p (Pos.pred e)
      end
  end.

Definition of_float (f : spec_float) : number :=
  match f with
  | S754_zero _ => Int 0
  | S754_infinity negative => Infinity negative
  | S754_nan => NaN
  | S754_finite negative m e =>
      match e with
      | Zneg e' => dyadic negative m e'
      | _ => Int (cond_Zopp negative (Zpos m) * 2 ^ e)
      end
  end.

(** The double nearest to [m * 2^e], ties to even: binary64 has 53 bits of
    precision and exponents below 1024. *)
Definition round (m e : Z) : spec_float := binary_normalize 53 1024 m e false.

(** [x + d] for an integer [d]: the exact sum, rounded. *)
Definition add (x : number) (d : Z) : number :=
  match x with
  | Int z => Int (z + d)
  | Fraction _ _ e => of_float (round (numerator x + d * 2 ^ Zpos e) (- Zpos e))
  | _ => x
  end.

(** [x * 2], which is exact. *)
Definition twice (x : number) : number :=
  match x with
  | Int z => Int (z * 2)
  | Fraction negative k e =>
      match e with
      | xH => Int (numerator x)
      | _ => Fraction negative k (Pos.pred e)
      end
  | _ => x
  end.

(** [Math.floor] of a double. *)
Definition floor (f : spec_float) : number :=
  match f with
  | S754_zero _ => Int 0
  | S754_infinity negative => Infinity negative
  | S754_nan => NaN
  | S754_finite negative m e =>
      match e with
      | Zneg e' => Int (cond_Zopp negative (Zpos m) / 2 ^ Zpos e')
      | _ => Int (cond_Zopp negative (Zpos m) * 2 ^ e)
      end
  end.

(** [Math.floor(x / 2)]: the quotient is rounded (the smallest doubles
    underflow), then floored. *)
Definition floor_half (x : number) : number :=
  match x with
  | Int z => Int (z / 2)
  | Fraction _ _ e => floor (round (numerator x) (- Zpos e - 1))
  | _ => x
  end.

End Number.

(** [a[x]] for a number [x]: an element when [x] is an integer that is an
    index of the array, [undefined] for any other number. *)
Definition element {A : Type} (a : list A) (x : number) : option A :=
  match x with
  | Int i => at_index a i
  | _ => None
  end.

(** The place in the array of the element [a[x]], when there is one. *)
Definition place (x : number) : nat :=
  match x with
  | Int i => Z.to_nat i
  | _ => 0%nat
  end.

(** ** Exceptions *)

(** How the body of a method or of a listener ends. *)
Inductive Completion : Type :=
| Returned
| Thrown (error : string).

(** [querySelector] throws a [SyntaxError] when its argument is not a valid
    selector.  Errors are represented by their name or message. *)
Definition SyntaxError : string := "SyntaxError".

Definition is_digit (c : ascii) : bool :=
  ((48 <=? nat_of_ascii c) && (nat_of_ascii c <=? 57))%nat.

Definition is_letter (c : ascii) : bool :=
  (((65 <=? nat_of_ascii c) && (nat_of_ascii c <=? 90))
   || ((97 <=? nat_of_ascii c) && (nat_of_ascii c <=? 122)))%nat.

(** The first character of a CSS identifier: a letter or an underscore. *)
Definition is_name_start (c : ascii) : bool :=
  is_letter c || Ascii.eqb c "_"%char.

Definition is_name_char (c : ascii) : bool :=
  is_name_start c || is_digit c || Ascii.eqb c "-"%char.

Fixpoint all_name_chars (s : string) : bool :=
  match s with
  | EmptyString => true
  | String c s' => is_name_char c && all_name_chars s'
  end.

(** Whether [selectors] is a class selector [.name] that [querySelector]
    accepts, for names written with ASCII letters, digits, hyphens and
    underscores, as all the class names of the engines are: the name is a CSS
    identifier, which starts with a letter or an underscore, or with a hyphen
    followed by one of these or by a second hyphen; it does not start with a
    digit. *)
Definition valid_class_selector (selectors : string) : bool :=
  match selectors with
  | String "."%char (String c rest) =>
      all_name_chars rest &&
      (if Ascii.eqb c "-"%char then
         match rest with
         | String d _ => is_name_start d || Ascii.eqb d "-"%char
         | EmptyString => false
         end
       else is_name_start c)
  | _ => false
  end.

(** The state of a promise: of a [new Promise], of [Promise.all] or of the
    result of an [async] function.  Errors are represented by their message. *)
Inductive Promise (V : Type) : Type :=
| Pending
| Fulfilled (v : V)
| Rejected (message : string).
Arguments Pending {V}.
Arguments Fulfilled {V} v.
Arguments Rejected {V} message.

Definition is_fulfilled {V : Type} (p : Promise V) : bool :=
  match p with
  | Fulfilled _ => true
  | _ => false
  end.

Definition is_pending {V : Type} (p : Promise V) : bool :=
  match p with
  | Pending => true
  | _ => false
  end.

(** The values of promises that are all fulfilled, in the order of the
    promises, as [Promise.all] delivers them. *)
Fixpoint fulfilled_values {V : Type} (ps : list (Promise V)) : list V :=
  match ps with
  | [] => []
  | Fulfilled v :: ps' => v :: fulfilled_values ps'
  | _ :: ps' => fulfilled_values ps'
  end.

(** ** types.ts *)

Record PageInfo : Type := mkPageInfo {
  index : number;
  total : Z;
  spread : number;
  totalSpreads : Z
}.

Record LoadingProgress : Type := mkLoadingProgress {
  loaded : Z;
  lp_total : Z;
  progress : Q;
  currentItem : option string
}.

(** The callbacks of [FlipbookEvents], as the calls an engine makes. *)
Inductive Callback : Type :=
| onPageChange (pageInfo : PageInfo)
| onAnimationStart
| onAnimationEnd
| onLoadProgress (p : LoadingProgress)
| onLoadComplete
| onError (message : string)
| onReady.

Inductive FlipDirection : Type := forward | back.

Inductive RenderMode : Type := css | webgl.

(** [config.media.src]: one locator or an array of locators. *)
Inductive MediaSrc : Type :=
| One (src : string)
| Many (srcs : list string).

(** The part of [FlipbookConfig] that the engines read.  The callbacks are
    not fields here: every call an engine makes to one of them is recorded
    in the engine's [calls]. *)
Record FlipbookConfig : Type := mkConfig {
  media_src : MediaSrc;
  renderMode : RenderMode;
  animation_duration : option Z;
  navigation_pageIndicator : bool
}.

(** [Array.isArray(src) ? src : [src]]. *)
Definition images_of (config : FlipbookConfig) : list string :=
  match media_src config with
  | Many srcs => srcs
  | One src => [src]
  end.

(** [Array.isArray(src) ? src.length : 1]. *)
Definition media_length (config : FlipbookConfig) : Z :=
  match media_src config with
  | Many srcs => Z.of_nat (length srcs)
  | One _ => 1
  end.

(** [config.animation?.duration || 800]: a missing duration and a zero
    duration both give 800. *)
Definition duration_or_800 (config : FlipbookConfig) : Z :=
  match animation_duration config with
  | Some d => if d =? 0 then 800 else d
  | None => 800
  end.

(** The quotient [a / b] of two counts, [b] positive, as a rational. *)
Definition ratio (a b : Z) : Q := Qmake a (Z.to_pos b).

(** [ceil(n / 2)] on integers. *)
Definition ceil_half (n : Z) : Z := (n + 1) / 2.

(** ** CSSEngine.ts *)

Module CSSEngine.

Record Spread : Type := mkSpread {
  left : option string;
  right : option string;
  isCover : bool;
  isBack : bool
}.

(** The loop of [createSpreads]:
    [for (let i = 1; i < images.length - 1; i += 2) this.spreads.push(...)]. *)
Equations pairLoop (images : list string) (i : nat) (spreads : list Spread)
  : list Spread by wf (length images - i)%nat lt :=
pairLoop images i spreads with Z_lt_dec (Z.of_nat i) (Z.of_nat (length images) - 1) := {
  | Specif.left Hlt =>
      pairLoop images (i + 2)%nat
        (spreads ++ [ {| left := or_null (images !! i);
                         right := or_null (images !! (i + 1)%nat);
                         isCover := false;
                         isBack := false |} ])
  | Specif.right _ => spreads
  }.
Next Obligation. lia. Qed.

Definition createSpreads (images : list string) : list Spread :=
  let spreads := [] in
  let spreads :=
    if Z.of_nat (length images) >? 0
    then spreads ++ [ {| left := None;
                         right := images !! 0%nat;
                         isCover := true;
                         isBack := false |} ]
    else spreads in
  let spreads := pairLoop images 1 spreads in
  if Z.of_nat (length images) >? 1
  then spreads ++ [ {| left := images !! (length images - 1)%nat;
                       right := None;
                       isCover := false;
                       isBack := true |} ]
  else spreads.


(** What the engine shows inside its mount point: the image of the left and
    of the right page slot (if any), the transient flipping-page containers in
    document order, each with the image it shows (if any), the numbers of the
    page indicator when the indicator exists, and whether the wrapper element
    is attached to the container. *)
Record Dom : Type := mkDom {
  pageLeft : option string;
  pageRight : option string;
  flippingContainers : list (option string);
  pageIndicator : option (number * Z);
  attached : bool
}.

(** A promise job: the continuation of [loadImages] after
    [await Promise.all(loadPromises)]. *)
Inductive Job : Type :=
| AwaitFulfilled
| AwaitRejected (message : string).

(** The fields of the class ([displaySpread], [flippingPageImage] and
    [isBackFace] are never read or written after their initialisation and are
    left out), followed by the browser state the engine interacts with:
    [timers] are the pending [setTimeout] callbacks with their delay, oldest
    first, each one the closure of [performFlipAnimation] over [direction];
    [loadPromises] are the promises of [loadImage]; [allLoaded] is
    [Promise.all(loadPromises)]; [calls] are the configuration callbacks
    invoked so far, oldest first. *)
Record t : Type := mk {
  config : FlipbookConfig;
  spreads : list Spread;
  currentSpread : number;
  isFlipping : bool;
  flipDirection : option FlipDirection;
  loadedImages : gset nat;
  dom : Dom;
  timers : list (Z * FlipDirection);
  loadPromises : list (Promise unit);
  allLoaded : Promise unit;
  jobs : list Job;
  calls : list Callback
}.

Definition set_spreads (v : list Spread) (s : t) : t :=
  mk (config s) v (currentSpread s) (isFlipping s) (flipDirection s)
     (loadedImages s) (dom s) (timers s) (loadPromises s) (allLoaded s)
     (jobs s) (calls s).

Definition set_currentSpread (v : number) (s : t) : t :=
  mk (config s) (spreads s) v (isFlipping s) (flipDirection s)
     (loadedImages s) (dom s) (timers s) (loadPromises s) (allLoaded s)
     (jobs s) (calls s).

Definition set_isFlipping (v : bool) (s : t) : t :=
  mk (config s) (spreads s) (currentSpread s) v (flipDirection s)
     (loadedImages s) (dom s) (timers s) (loadPromises s) (allLoaded s)
     (jobs s) (calls s).

Definition set_flipDirection (v : option FlipDirection) (s : t) : t :=
  mk (config s) (spreads s) (currentSpread s) (isFlipping s) v
     (loadedImages s) (dom s) (timers s) (loadPromises s) (allLoaded s)
     (jobs s) (calls s).

Definition set_loadedImages (v : gset nat) (s : t) : t :=
  mk (config s) (spreads s) (currentSpread s) (isFlipping s) (flipDirection s)
     v (dom s) (timers s) (loadPromises s) (allLoaded s)
     (jobs s) (calls s).

Definition set_dom (v : Dom) (s : t) : t :=
  mk (config s) (spreads s) (currentSpread s) (isFlipping s) (flipDirection s)
     (loadedImages s) v (timers s) (loadPromises s) (allLoaded s)
     (jobs s) (calls s).

Definition set_timers (v : list (Z * FlipDirection)) (s : t) : t :=
  mk (config s) (spreads s) (currentSpread s) (isFlipping s) (flipDirection s)
     (loadedImages s) (dom s) v (loadPromises s) (allLoaded s)
     (jobs s) (calls s).

Definition set_loadPromises (v : list (Promise unit)) (s : t) : t :=
  mk (config s) (spreads s) (currentSpread s) (isFlipping s) (flipDirection s)
     (loadedImages s) (dom s) (timers s) v (allLoaded s)
     (jobs s) (calls s).

Definition set_allLoaded (v : Promise unit) (s : t) : t :=
  mk (config s) (spreads s) (currentSpread s) (isFlipping s) (flipDirection s)
     (loadedImages s) (dom s) (timers s) (loadPromises s) v
     (jobs s) (calls s).

Definition set_jobs (v : list Job) (s : t) : t :=
  mk (config s) (spreads s) (currentSpread s) (isFlipping s) (flipDirection s)
     (loadedImages s) (dom s) (timers s) (loadPromises s) (allLoaded s)
     v (calls s).

(** [this.config.onX?.(...)]. *)
Definition call (c : Callback) (s : t) : t :=
  mk (config s) (spreads s) (currentSpread s) (isFlipping s) (flipDirection s)
     (loadedImages s) (dom s) (timers s) (loadPromises s) (allLoaded s)
     (jobs s) (calls s ++ [c]).

(** [setTimeout(callback, duration)]. *)
Definition setTimeout (direction : FlipDirection) (duration : Z) (s : t) : t :=
  set_timers (timers s ++ [(duration, direction)]) s.

Definition createStructure (config : FlipbookConfig) : Dom :=
  {| pageLeft := None;
     pageRight := None;
     flippingContainers := [];
     pageIndicator := if navigation_pageIndicator config then Some (Int 1, 1) else None;
     attached := true |}.

Definition updatePageIndicator (s : t) : t :=
  match pageIndicator (dom s) with
  | Some _ =>
      set_dom (mkDom (pageLeft (dom s)) (pageRight (dom s))
                     (flippingContainers (dom s))
                     (Some (Number.add (currentSpread s) 1, Z.of_nat (length (spreads s))))
                     (attached (dom s))) s
  | None => s
  end.

(** The image appended to a page slot: [if (src) { ...appendChild(img) }]. *)
Definition img_of (src : option string) : option string :=
  if truthy_opt src then src else None.

Definition renderCurrentSpread (s : t) : t :=
  match element (spreads s) (currentSpread s) with
  | None => s
  | Some spread =>
      let d := dom s in
      let d :=
        if isCover spread then
          mkDom None (img_of (right spread)) (flippingContainers d)
                (pageIndicator d) (attached d)
        else if isBack spread then
          mkDom (img_of (left spread)) None (flippingContainers d)
                (pageIndicator d) (attached d)
        else
          mkDom (img_of (left spread)) (img_of (right spread))
                (flippingContainers d) (pageIndicator d) (attached d) in
      updatePageIndicator (set_dom d s)
  end.

(** [createFlippingPage] starts with
    [this.flipbookElement.querySelector('.3d-flipbook')], which throws: the
    class selector is not valid.  What follows the call in the source is
    what follows it here. *)
Definition createFlippingPage (direction : FlipDirection) (s : t) : Completion * t :=
  if negb (valid_class_selector ".3d-flipbook") then (Thrown SyntaxError, s)
  else
    let currentSpread := element (spreads s) (currentSpread s) in
    let imageSrc :=
      match direction, currentSpread with
      | forward, Some sp => right sp
      | back, Some sp => left sp
      | _, None => None
      end in
    let d := dom s in
    (Returned,
     set_dom (mkDom (pageLeft d) (pageRight d)
                    (flippingContainers d ++ [img_of imageSrc])
                    (pageIndicator d) (attached d)) s).

(** [querySelector] finds the first container in document order. *)
Definition removeFlippingPage (s : t) : t :=
  let d := dom s in
  set_dom (mkDom (pageLeft d) (pageRight d) (tail (flippingContainers d))
                 (pageIndicator d) (attached d)) s.

Definition getCurrentPage (s : t) : PageInfo :=
  {| index := Number.twice (currentSpread s);
     total := Z.of_nat (length (spreads s)) * 2;
     spread := currentSpread s;
     totalSpreads := Z.of_nat (length (spreads s)) |}.

(** The callback that [performFlipAnimation] hands to [setTimeout]. *)
Definition flipTimeout (direction : FlipDirection) (s : t) : t :=
  let s :=
    match direction with
    | forward => set_currentSpread (Number.add (currentSpread s) 1) s
    | back => set_currentSpread (Number.add (currentSpread s) (-1)) s
    end in
  let s := renderCurrentSpread s in
  let s := removeFlippingPage s in
  let s := set_isFlipping false s in
  let s := set_flipDirection None s in
  let pageInfo :=
    {| index := Number.twice (currentSpread s);
       total := Z.of_nat (length (spreads s)) * 2;
       spread := currentSpread s;
       totalSpreads := Z.of_nat (length (spreads s)) |} in
  let s := call (onPageChange pageInfo) s in
  call onAnimationEnd s.

(** The exception of [createFlippingPage] leaves [performFlipAnimation]
    before the call of [setTimeout]. *)
Definition performFlipAnimation (direction : FlipDirection) (s : t) : Completion * t :=
  let s := set_isFlipping true s in
  let s := set_flipDirection (Some direction) s in
  let s := call onAnimationStart s in
  let duration := duration_or_800 (config s) in
  match createFlippingPage direction s with
  | (Thrown error, s) => (Thrown error, s)
  | (Returned, s) => (Returned, setTimeout direction duration s)
  end.

Definition goToNextSpread (s : t) : Completion * t :=
  if isFlipping s || Number.geb (currentSpread s) (Z.of_nat (length (spreads s)) - 1)
  then (Returned, s)
  else performFlipAnimation forward s.

Definition goToPrevSpread (s : t) : Completion * t :=
  if isFlipping s || Number.leb (currentSpread s) 0
  then (Returned, s)
  else performFlipAnimation back s.

(** The promise of an [async] function without [await]: the body runs to its
    end within the call; the promise that the caller receives is fulfilled
    when the body returns and rejected when it throws. *)
Definition settle (c : Completion) : Promise unit :=
  match c with
  | Returned => Fulfilled tt
  | Thrown error => Rejected error
  end.

Definition nextPage (s : t) : Promise unit * t :=
  let (c, s) := goToNextSpread s in (settle c, s).

Definition prevPage (s : t) : Promise unit * t :=
  let (c, s) := goToPrevSpread s in (settle c, s).

Definition goToPage (index : number) (s : t) : Promise unit * t :=
  let spreadIndex := Number.floor_half index in
  if Number.ltb spreadIndex 0
     || Number.geb spreadIndex (Z.of_nat (length (spreads s)))
     || Number.eqb spreadIndex (currentSpread s)
  then (Fulfilled tt, s)
  else
    let s := set_currentSpread spreadIndex s in
    let s := renderCurrentSpread s in
    let pageInfo :=
      {| index := Number.twice (currentSpread s);
         total := Z.of_nat (length (spreads s)) * 2;
         spread := currentSpread s;
         totalSpreads := Z.of_nat (length (spreads s)) |} in
    (Fulfilled tt, call (onPageChange pageInfo) s).

Definition getIsAnimating (s : t) : bool := isFlipping s.

(** [resolve()] of the promise of image [index], with the bookkeeping of
    [Promise.all]: the aggregate is fulfilled when its last element is, and
    the continuation of [loadImages] is queued. *)
Definition resolve (index : nat) (s : t) : t :=
  match loadPromises s !! index with
  | Some Pending =>
      let s := set_loadPromises (<[index := Fulfilled tt]> (loadPromises s)) s in
      match allLoaded s with
      | Pending =>
          if forallb is_fulfilled (loadPromises s)
          then set_jobs (jobs s ++ [AwaitFulfilled]) (set_allLoaded (Fulfilled tt) s)
          else s
      | _ => s
      end
  | _ => s
  end.

(** [reject(error)] of the promise of image [index]: [Promise.all] rejects
    with the first rejection of an element and ignores what comes later. *)
Definition reject (index : nat) (message : string) (s : t) : t :=
  match loadPromises s !! index with
  | Some Pending =>
      let s := set_loadPromises (<[index := Rejected message]> (loadPromises s)) s in
      match allLoaded s with
      | Pending =>
          set_jobs (jobs s ++ [AwaitRejected message]) (set_allLoaded (Rejected message) s)
      | _ => s
      end
  | _ => s
  end.

(** [img.onload] of [loadImage(src, index)]. *)
Definition loadImage_onload (src : string) (index : nat) (s : t) : t :=
  let s := set_loadedImages ({[index]} ∪ loadedImages s) s in
  let progress :=
    {| loaded := Z.of_nat (size (loadedImages s));
       lp_total := media_length (config s);
       progress := ratio (Z.of_nat (size (loadedImages s))) (media_length (config s));
       currentItem := Some src |} in
  let s := call (onLoadProgress progress) s in
  resolve index s.

(** [img.onerror] of [loadImage(src, index)]. *)
Definition loadImage_onerror (src : string) (index : nat) (s : t) : t :=
  reject index ("Failed to load image: " ++ src)%string s.

(** [loadImages] up to its [await]. *)
Definition loadImages (s : t) : t :=
  let images := images_of (config s) in
  let s := set_spreads (createSpreads images) s in
  let s := set_loadPromises (map (fun _ => Pending) images) s in
  if forallb is_fulfilled (loadPromises s)
  then set_jobs (jobs s ++ [AwaitFulfilled]) (set_allLoaded (Fulfilled tt) s)
  else s.

(** [loadImages] after its [await]: the [try] branch or the [catch] branch. *)
Definition loadImages_resume (s : t) (j : Job) : t :=
  match j with
  | AwaitFulfilled =>
      let s := renderCurrentSpread s in
      let s := call onLoadComplete s in
      call onReady s
  | AwaitRejected message => call (onError message) s
  end.

(** The promise jobs run when the current task has returned. *)
Definition runJobs (s : t) : t :=
  fold_left loadImages_resume (jobs s) (set_jobs [] s).

(** [new CSSEngine(config)] for a container that exists, followed by the
    promise jobs that the construction queued. *)
Definition constructor (config : FlipbookConfig) : t :=
  let s :=
    {| config := config;
       spreads := [];
       currentSpread := Int 0;
       isFlipping := false;
       flipDirection := None;
       loadedImages := ∅;
       dom := createStructure config;
       timers := [];
       loadPromises := [];
       allLoaded := Pending;
       jobs := [];
       calls := [] |} in
  runJobs (loadImages s).

Definition dispose (s : t) : t :=
  let d := dom s in
  let s := set_dom (mkDom (pageLeft d) (pageRight d) (flippingContainers d)
                          (pageIndicator d) false) s in
  let s := set_spreads [] s in
  set_loadedImages ∅ s.

(** What can happen to a live engine: a call of a public method, the expiry
    of the oldest pending timer, and the [load] or [error] event of the image
    with a given index.  An image fires one of the two events, once: an event
    for an image that does not exist or has already fired is not delivered. *)
Inductive Event : Type :=
| CallNextPage
| CallPrevPage
| CallGoToPage (index : number)
| TimerElapsed
| ImageLoad (index : nat)
| ImageError (index : nat).

#[global] Instance Event_eq_dec : EqDecision Event.
Proof. solve_decision. Defined.

Definition handle (e : Event) (s : t) : t :=
  match e with
  | CallNextPage => snd (nextPage s)
  | CallPrevPage => snd (prevPage s)
  | CallGoToPage index => snd (goToPage index s)
  | TimerElapsed =>
      match timers s with
      | [] => s
      | (_, direction) :: rest => flipTimeout direction (set_timers rest s)
      end
  | ImageLoad index =>
      match images_of (config s) !! index, loadPromises s !! index with
      | Some src, Some Pending => loadImage_onload src index s
      | _, _ => s
      end
  | ImageError index =>
      match images_of (config s) !! index, loadPromises s !! index with
      | Some src, Some Pending => loadImage_onerror src index s
      | _, _ => s
      end
  end.

(** One task of the event loop: the handler, then the promise jobs. *)
Definition step (s : t) (e : Event) : t := runJobs (handle e s).

Definition run (s : t) (trace : list Event) : t := fold_left step trace s.

(** ** Input handlers of the layered engine *)

(** [handleKeyDown], the [keydown] listener on the window. *)
Definition handleKeyDown (key : string) (s : t) : Completion * t :=
  if isFlipping s then (Returned, s)
  else if String.eqb key "ArrowRight" then goToNextSpread s
  else if String.eqb key "ArrowLeft" then goToPrevSpread s
  else (Returned, s).

(** The [click] listener of a page: [clientX] is the pointer position,
    [rect_left] and [rect_width] are taken from the bounding rectangle of the
    page that was clicked. *)
Definition page_onclick (clientX rect_left rect_width : Q) (s : t) : Completion * t :=
  if isFlipping s then (Returned, s)
  else
    let clickX := (clientX - rect_left)%Q in
    let pageWidth := rect_width in
    if Qlt_le_dec clickX (pageWidth / 2)%Q
    then goToPrevSpread s
    else goToNextSpread s.

(** The [click] listeners of the two navigation buttons. *)
Definition prevBtn_onclick (s : t) : Completion * t := goToPrevSpread s.

Definition nextBtn_onclick (s : t) : Completion * t := goToNextSpread s.

(** The variables [startX] and [startY] of [bindTouchEvents], which its two
    listeners share; both start at 0. *)
Record TouchStart : Type := mkTouchStart {
  startX : Q;
  startY : Q
}.

Definition touch_initial : TouchStart := mkTouchStart 0 0.

(** The [touchstart] listener; [touches] are the positions
    ([clientX], [clientY]) of the touch points. *)
Definition touchstart (touches : list (Q * Q)) (tr : TouchStart) : TouchStart :=
  match touches with
  | [(x, y)] => mkTouchStart x y
  | _ => tr
  end.

(** The [touchend] listener. *)
Definition touchend (changedTouches : list (Q * Q)) (tr : TouchStart) (s : t)
  : Completion * t :=
  if isFlipping s then (Returned, s)
  else
    match changedTouches with
    | [(endX, endY)] =>
        let deltaX := (endX - startX tr)%Q in
        let deltaY := (endY - startY tr)%Q in
        if Qlt_le_dec (Qabs deltaY) (Qabs deltaX) then
          if Qlt_le_dec 50 (Qabs deltaX) then
            if Qlt_le_dec 0 deltaX then goToPrevSpread s else goToNextSpread s
          else (Returned, s)
        else (Returned, s)
    | _ => (Returned, s)
    end.

(** The listeners that [bindEvents] puts on the window, and what [dispose]
    takes off it again, for the flags [navigation.keyboard] and
    [responsive] of the configuration. *)
Definition bindEvents (keyboard responsive : bool) (listeners : gset string)
  : gset string :=
  let listeners := if keyboard then {["keydown"]} ∪ listeners else listeners in
  if responsive then {["resize"]} ∪ listeners else listeners.

Definition dispose_listeners (keyboard responsive : bool) (listeners : gset string)
  : gset string :=
  let listeners := if keyboard then listeners ∖ {["keydown"]} else listeners in
  if responsive then listeners ∖ {["resize"]} else listeners.

(** What a user can do to a mounted engine, besides what [Event] lists.
    Which of the listeners exist depends on the flags of the configuration;
    a sequence of inputs may hold any of them. *)
Inductive Input : Type :=
| Live (e : Event)
| KeyDown (key : string)
| PageClick (clientX rect_left rect_width : Q)
| PrevClick
| NextClick
| TouchStartAt (touches : list (Q * Q))
| TouchEndAt (changedTouches : list (Q * Q)).

(** One task for an input: the listener, whether it returns or throws, then
    the promise jobs. *)
Definition step_input (st : TouchStart * t) (i : Input) : TouchStart * t :=
  let (tr, s) := st in
  match i with
  | Live e => (tr, step s e)
  | KeyDown key => (tr, runJobs (snd (handleKeyDown key s)))
  | PageClick clientX rect_left rect_width =>
      (tr, runJobs (snd (page_onclick clientX rect_left rect_width s)))
  | PrevClick => (tr, runJobs (snd (prevBtn_onclick s)))
  | NextClick => (tr, runJobs (snd (nextBtn_onclick s)))
  | TouchStartAt touches => (touchstart touches tr, runJobs s)
  | TouchEndAt changedTouches => (tr, runJobs (snd (touchend changedTouches tr s)))
  end.

Definition run_inputs (st : TouchStart * t) (inputs : list Input) : TouchStart * t :=
  fold_left step_input inputs st.




End CSSEngine.

(** ** WebGLEngine.ts *)

Module WebGLEngine.

(** [mesh.rotation.y] at rest: [0] or [-Math.PI]. *)
Inductive Rotation : Type := rot_0 | rot_minus_pi.

(** A page mesh, as far as the control flow reads or writes it: geometry,
    material and the depth offset [position.z] only matter to the renderer. *)
Record Mesh : Type := mkMesh {
  visible : bool;
  rotation_y : Rotation
}.

Record PageTexture : Type := mkPageTexture {
  aspectRatio : Q;
  dimensions : Z * Z
}.

(** A pending [gsap.timeline] with the variables its [onComplete] closes
    over.  Meshes are identified by their position in [pages], which is
    filled once by [createPages]; [tl_currentPageMesh] is [None] when
    [this.pages[this.currentPage]] was [undefined] at the call. *)
Record Timeline : Type := mkTimeline {
  tl_direction : FlipDirection;
  tl_currentPageMesh : option nat;
  tl_rotating : nat;
  tl_duration : Q
}.

(** A promise job: what follows [await Promise.all(loadPromises)] in
    [loadTextures] and then in the constructor's [then] / [catch]. *)
Inductive Job : Type :=
| AwaitFulfilled (textures : list PageTexture)
| AwaitRejected (message : string).

Record t : Type := mk {
  config : FlipbookConfig;
  pages : list Mesh;
  textures : list PageTexture;
  currentPage : number;
  isAnimating : bool;
  timelines : list Timeline;
  loadPromises : list (Promise PageTexture);
  allLoaded : Promise (list PageTexture);
  jobs : list Job;
  calls : list Callback
}.

Definition set_pages (v : list Mesh) (s : t) : t :=
  mk (config s) v (textures s) (currentPage s) (isAnimating s) (timelines s)
     (loadPromises s) (allLoaded s) (jobs s) (calls s).

Definition set_textures (v : list PageTexture) (s : t) : t :=
  mk (config s) (pages s) v (currentPage s) (isAnimating s) (timelines s)
     (loadPromises s) (allLoaded s) (jobs s) (calls s).

Definition set_currentPage (v : number) (s : t) : t :=
  mk (config s) (pages s) (textures s) v (isAnimating s) (timelines s)
     (loadPromises s) (allLoaded s) (jobs s) (calls s).

Definition set_isAnimating (v : bool) (s : t) : t :=
  mk (config s) (pages s) (textures s) (currentPage s) v (timelines s)
     (loadPromises s) (allLoaded s) (jobs s) (calls s).

Definition set_timelines (v : list Timeline) (s : t) : t :=
  mk (config s) (pages s) (textures s) (currentPage s) (isAnimating s) v
     (loadPromises s) (allLoaded s) (jobs s) (calls s).

Definition set_loadPromises (v : list (Promise PageTexture)) (s : t) : t :=
  mk (config s) (pages s) (textures s) (currentPage s) (isAnimating s) (timelines s)
     v (allLoaded s) (jobs s) (calls s).

Definition set_allLoaded (v : Promise (list PageTexture)) (s : t) : t :=
  mk (config s) (pages s) (textures s) (currentPage s) (isAnimating s) (timelines s)
     (loadPromises s) v (jobs s) (calls s).

Definition set_jobs (v : list Job) (s : t) : t :=
  mk (config s) (pages s) (textures s) (currentPage s) (isAnimating s) (timelines s)
     (loadPromises s) (allLoaded s) v (calls s).

(** [this.config.onX?.(...)]. *)
Definition call (c : Callback) (s : t) : t :=
  mk (config s) (pages s) (textures s) (currentPage s) (isAnimating s) (timelines s)
     (loadPromises s) (allLoaded s) (jobs s) (calls s ++ [c]).

(** [this.pages[i].visible = v] for a mesh that exists. *)
Definition set_visible (i : nat) (v : bool) (s : t) : t :=
  match pages s !! i with
  | Some m => set_pages (<[i := mkMesh v (rotation_y m)]> (pages s)) s
  | None => s
  end.

(** [this.pages[i].rotation.y = r] for a mesh that exists. *)
Definition set_rotation (i : nat) (r : Rotation) (s : t) : t :=
  match pages s !! i with
  | Some m => set_pages (<[i := mkMesh (visible m) r]> (pages s)) s
  | None => s
  end.

Definition getCurrentPage (s : t) : PageInfo :=
  {| index := currentPage s;
     total := Z.of_nat (length (pages s));
     spread := Number.floor_half (currentPage s);
     totalSpreads := ceil_half (Z.of_nat (length (pages s))) |}.

Definition getIsAnimating (s : t) : bool := isAnimating s.

(** Reading a property of [undefined] throws; inside an [async] function
    the promise of the call is rejected with the error. *)
Definition TypeError : string := "TypeError".

Definition nextPage (s : t) : Promise unit * t :=
  if isAnimating s || Number.geb (currentPage s) (Z.of_nat (length (pages s)) - 1)
  then (Fulfilled tt, s)
  else
    let s := set_isAnimating true s in
    let s := call onAnimationStart s in
    let currentPageMesh := element (pages s) (currentPage s) in
    let nextPageMesh := element (pages s) (Number.add (currentPage s) 1) in
    match nextPageMesh with
    | None => (Rejected TypeError, s)
    | Some _ =>
        let s := set_visible (place (Number.add (currentPage s) 1)) true s in
        match currentPageMesh with
        | None => (Rejected TypeError, s)
        | Some _ =>
            let duration := Qmake (duration_or_800 (config s)) 1000 in
            (Fulfilled tt,
             set_timelines
               (timelines s ++
                [ {| tl_direction := forward;
                     tl_currentPageMesh := Some (place (currentPage s));
                     tl_rotating := place (currentPage s);
                     tl_duration := duration |} ]) s)
        end
    end.

Definition prevPage (s : t) : Promise unit * t :=
  if isAnimating s || Number.leb (currentPage s) 0
  then (Fulfilled tt, s)
  else
    let s := set_isAnimating true s in
    let s := call onAnimationStart s in
    let currentPageMesh := element (pages s) (currentPage s) in
    let prevPageMesh := element (pages s) (Number.add (currentPage s) (-1)) in
    match prevPageMesh with
    | None => (Rejected TypeError, s)
    | Some _ =>
        let s := set_visible (place (Number.add (currentPage s) (-1))) true s in
        let s := set_rotation (place (Number.add (currentPage s) (-1))) rot_minus_pi s in
        let duration := Qmake (duration_or_800 (config s)) 1000 in
        (Fulfilled tt,
         set_timelines
           (timelines s ++
            [ {| tl_direction := back;
                 tl_currentPageMesh :=
                   match currentPageMesh with
                   | Some _ => Some (place (currentPage s))
                   | None => None
                   end;
                 tl_rotating := place (Number.add (currentPage s) (-1));
                 tl_duration := duration |} ]) s)
    end.

(** The end of a timeline: the tween has reached its target angle and
    [onComplete] runs. *)
Definition onComplete (tl : Timeline) (s : t) : t :=
  let s :=
    match tl_direction tl with
    | forward => set_rotation (tl_rotating tl) rot_minus_pi s
    | back => set_rotation (tl_rotating tl) rot_0 s
    end in
  let s :=
    match tl_direction tl with
    | forward => set_currentPage (Number.add (currentPage s) 1) s
    | back => set_currentPage (Number.add (currentPage s) (-1)) s
    end in
  let s := set_isAnimating false s in
  let pageInfo :=
    {| index := currentPage s;
       total := Z.of_nat (length (pages s));
       spread := Number.floor_half (currentPage s);
       totalSpreads := ceil_half (Z.of_nat (length (pages s))) |} in
  let s := call (onPageChange pageInfo) s in
  let s := call onAnimationEnd s in
  match tl_currentPageMesh tl with
  | Some i => set_visible i false s
  | None => s
  end.

Definition goToPage (pageIndex : number) (s : t) : Promise unit * t :=
  if Number.ltb pageIndex 0
     || Number.geb pageIndex (Z.of_nat (length (pages s)))
     || Number.eqb pageIndex (currentPage s)
  then (Fulfilled tt, s)
  else
    match element (pages s) (currentPage s) with
    | None => (Rejected TypeError, s)
    | Some _ =>
        let s := set_visible (place (currentPage s)) false s in
        let s := set_currentPage pageIndex s in
        match element (pages s) (currentPage s) with
        | None => (Rejected TypeError, s)
        | Some _ =>
            let s := set_visible (place (currentPage s)) true s in
            let s := set_rotation (place (currentPage s)) rot_0 s in
            let pageInfo :=
              {| index := currentPage s;
                 total := Z.of_nat (length (pages s));
                 spread := Number.floor_half (currentPage s);
                 totalSpreads := ceil_half (Z.of_nat (length (pages s))) |} in
            (Fulfilled tt, call (onPageChange pageInfo) s)
        end
    end.

(** [resolve(pageTexture)] of the promise of image [index], with the
    bookkeeping of [Promise.all]. *)
Definition resolve (index : nat) (pageTexture : PageTexture) (s : t) : t :=
  match loadPromises s !! index with
  | Some Pending =>
      let s := set_loadPromises (<[index := Fulfilled pageTexture]> (loadPromises s)) s in
      match allLoaded s with
      | Pending =>
          if forallb is_fulfilled (loadPromises s)
          then
            let values := fulfilled_values (loadPromises s) in
            set_jobs (jobs s ++ [AwaitFulfilled values]) (set_allLoaded (Fulfilled values) s)
          else s
      | _ => s
      end
  | _ => s
  end.

(** [reject(error)] of the promise of image [index]. *)
Definition reject (index : nat) (message : string) (s : t) : t :=
  match loadPromises s !! index with
  | Some Pending =>
      let s := set_loadPromises (<[index := Rejected message]> (loadPromises s)) s in
      match allLoaded s with
      | Pending =>
          set_jobs (jobs s ++ [AwaitRejected message]) (set_allLoaded (Rejected message) s)
      | _ => s
      end
  | _ => s
  end.

(** The [onLoad] callback given to [loader.load] for [imagePath] at [index];
    [image] is [None] when [texture.image] is missing and otherwise its
    width and height. *)
Definition loader_onLoad (imagePath : string) (index : nat)
    (image : option (Z * Z)) (s : t) : t :=
  match image with
  | None => reject index ("Invalid image dimensions: " ++ imagePath)%string s
  | Some (width, height) =>
      if (width =? 0) || (height =? 0)
      then reject index ("Invalid image dimensions: " ++ imagePath)%string s
      else
        let pageTexture :=
          {| aspectRatio := ratio width height;
             dimensions := (width, height) |} in
        let s := resolve index pageTexture s in
        let images := images_of (config s) in
        let progress :=
          {| loaded := Z.of_nat index + 1;
             lp_total := Z.of_nat (length images);
             progress := ratio (Z.of_nat index + 1) (Z.of_nat (length images));
             currentItem := Some imagePath |} in
        call (onLoadProgress progress) s
  end.

(** The [onError] callback given to [loader.load]; [message] is the message
    of the error when it is an [Error]. *)
Definition loader_onError (imagePath : string) (index : nat)
    (message : option string) (s : t) : t :=
  reject index
    ("Failed to load " ++ imagePath ++ ": " ++
     match message with
     | Some m => m
     | None => "Unknown error"
     end)%string s.

(** [loadTextures] up to its [await]. *)
Definition loadTextures (s : t) : t :=
  let images := images_of (config s) in
  let s := set_loadPromises (map (fun _ => Pending) images) s in
  if forallb is_fulfilled (loadPromises s)
  then
    let values := fulfilled_values (loadPromises s) in
    set_jobs (jobs s ++ [AwaitFulfilled values]) (set_allLoaded (Fulfilled values) s)
  else s.

Definition createPages (s : t) : t :=
  set_pages
    (pages s ++
     imap (fun index _ => mkMesh (negb (0 <? Z.of_nat index)) rot_0) (textures s)) s.

(** [loadTextures] after its [await], then the [then] or the [catch] of the
    constructor ([animate] starts the render loop, which does not touch the
    state modelled here). *)
Definition loadTextures_resume (s : t) (j : Job) : t :=
  match j with
  | AwaitFulfilled values =>
      let s := set_textures values s in
      let s := call onLoadComplete s in
      let s := createPages s in
      call onReady s
  | AwaitRejected message => call (onError message) s
  end.

Definition runJobs (s : t) : t :=
  fold_left loadTextures_resume (jobs s) (set_jobs [] s).

(** [new WebGLEngine(config)] for a container that exists, followed by the
    promise jobs that the construction queued. *)
Definition constructor (config : FlipbookConfig) : t :=
  let s :=
    {| config := config;
       pages := [];
       textures := [];
       currentPage := Int 0;
       isAnimating := false;
       timelines := [];
       loadPromises := [];
       allLoaded := Pending;
       jobs := [];
       calls := [] |} in
  runJobs (loadTextures s).

(** What can happen to a live engine; the loader calls one of its two
    callbacks once for every image. *)
Inductive Event : Type :=
| CallNextPage
| CallPrevPage
| CallGoToPage (pageIndex : number)
| TimelineComplete
| TextureLoad (index : nat) (image : option (Z * Z))
| TextureError (index : nat) (message : option string).

#[global] Instance Event_eq_dec : EqDecision Event.
Proof. solve_decision. Defined.

Definition handle (e : Event) (s : t) : t :=
  match e with
  | CallNextPage => snd (nextPage s)
  | CallPrevPage => snd (prevPage s)
  | CallGoToPage pageIndex => snd (goToPage pageIndex s)
  | TimelineComplete =>
      match timelines s with
      | [] => s
      | tl :: rest => onComplete tl (set_timelines rest s)
      end
  | TextureLoad index image =>
      match images_of (config s) !! index, loadPromises s !! index with
      | Some imagePath, Some Pending => loader_onLoad imagePath index image s
      | _, _ => s
      end
  | TextureError index message =>
      match images_of (config s) !! index, loadPromises s !! index with
      | Some imagePath, Some Pending => loader_onError imagePath index message s
      | _, _ => s
      end
  end.

Definition step (s : t) (e : Event) : t := runJobs (handle e s).

Definition run (s : t) (trace : list Event) : t := fold_left step trace s.

(** ** Pointer handlers and disposal of the scene-graph engine *)

(** [handleInteraction]: [hit] is what the raycaster found under the
    pointer, [None] when no page was hit and otherwise the horizontal texture
    coordinate [uv.x] of the first intersection, when it has one.  The promise
    of the call it makes is dropped. *)
Definition handleInteraction (hit : option (option Q)) (s : t) : t :=
  match hit with
  | None => s
  | Some uv =>
      match uv with
      | Some x =>
          if Qlt_le_dec x (1 # 2) then snd (prevPage s) else snd (nextPage s)
      | None => snd (nextPage s)
      end
  end.

Definition onMouseDown (hit : option (option Q)) (s : t) : t :=
  if isAnimating s then s else handleInteraction hit s.

(** [touches] is [event.touches.length]. *)
Definition onTouchStart (touches : nat) (hit : option (option Q)) (s : t) : t :=
  if isAnimating s || negb (touches =? 1)%nat then s else handleInteraction hit s.

(** The listeners [bindEvents] registers, as pairs of a target and an event
    type, for the flags [navigation.click], [navigation.touch] and
    [responsive]; and what [dispose] removes. *)
Definition bindEvents (click touch responsive : bool)
    (listeners : gset (string * string)) : gset (string * string) :=
  if negb click then listeners
  else
    let listeners :=
      {[("container", "mousedown")]} ∪ ({[("container", "mousemove")]} ∪ listeners) in
    let listeners :=
      if touch
      then {[("container", "touchstart")]} ∪ ({[("container", "touchmove")]} ∪ listeners)
      else listeners in
    if responsive then {[("window", "resize")]} ∪ listeners else listeners.

Definition dispose_listeners (listeners : gset (string * string))
  : gset (string * string) :=
  listeners ∖ {[("container", "mousedown")]} ∖ {[("container", "mousemove")]}
            ∖ {[("container", "touchstart")]} ∖ {[("container", "touchmove")]}
            ∖ {[("window", "resize")]}.

(** [dispose], as far as the fields modelled here go: the render loop, the
    renderer and the release of geometries, materials and textures are not
    part of the state. *)
Definition dispose (s : t) : t :=
  set_textures [] (set_pages [] s).

(** What a user can do to a mounted engine, besides what [Event] lists.
    Which of the listeners exist depends on the flags of the configuration;
    a sequence of inputs may hold any of them. *)
Inductive Input : Type :=
| Live (e : Event)
| MouseDown (hit : option (option Q))
| TouchStartAt (touches : nat) (hit : option (option Q)).

Definition step_input (s : t) (i : Input) : t :=
  match i with
  | Live e => step s e
  | MouseDown hit => runJobs (onMouseDown hit s)
  | TouchStartAt touches hit => runJobs (onTouchStart touches hit s)
  end.

Definition run_inputs (s : t) (inputs : list Input) : t :=
  fold_left step_input inputs s.

End WebGLEngine.

(** ** core.ts *)

Module Flipbook.

Inductive Engine : Type :=
| CSS (e : CSSEngine.t)
| WebGL (e : WebGLEngine.t).

Record t : Type := mk {
  engine : Engine;
  config : FlipbookConfig
}.

(** The render-mode part of [validateConfig]: WebGL is kept only when the
    browser provides a WebGL context. *)
Definition validateConfig (config : FlipbookConfig) (webglSupported : bool)
  : FlipbookConfig :=
  match renderMode config with
  | webgl =>
      if webglSupported then config
      else mkConfig (media_src config) css (animation_duration config)
                    (navigation_pageIndicator config)
  | css => config
  end.

(** [new Flipbook(config)] for a configuration with a container and a media
    source. *)
Definition constructor (config : FlipbookConfig) (webglSupported : bool) : t :=
  let config := validateConfig config webglSupported in
  match renderMode config with
  | webgl => mk (WebGL (WebGLEngine.constructor config)) config
  | css => mk (CSS (CSSEngine.constructor config)) config
  end.

Definition getCurrentPage (f : t) : PageInfo :=
  match engine f with
  | CSS e => CSSEngine.getCurrentPage e
  | WebGL e => WebGLEngine.getCurrentPage e
  end.

Definition isAnimating (f : t) : bool :=
  match engine f with
  | CSS e => CSSEngine.getIsAnimating e
  | WebGL e => WebGLEngine.getIsAnimating e
  end.

Definition getLoadingProgress (f : t) : LoadingProgress :=
  let currentPage := getCurrentPage f in
  {| loaded := total currentPage;
     lp_total := total currentPage;
     progress := 1;
     currentItem := None |}.

End Flipbook.


(** ** core.ts: configuration objects *)

Module Config.

(** The JavaScript values a configuration holds.  A reference stands for an
    [HTMLElement] or for a function.  An object is the finite map of its own
    properties; a property that is present with the value [undefined] is a
    key bound to [VUndefined], which differs from an absent key. *)
#[warnings="-register-all"]
Inductive Value : Type :=
| VUndefined
| VBool (b : bool)
| VNumber (n : Z)
| VString (s : string)
| VStrings (a : list string)
| VRef (id : nat)
| VObject (fields : gmap string Value).

Abbreviation Object := (gmap string Value).

(** [if (v)]. *)
Definition truthy (v : Value) : bool :=
  match v with
  | VUndefined => false
  | VBool b => b
  | VNumber n => negb (n =? 0)
  | VString s => negb (String.eqb s "")
  | VStrings _ => true
  | VRef _ => true
  | VObject _ => true
  end.

(** [v === s] for a string literal [s]. *)
Definition is_string (v : Value) (s : string) : bool :=
  match v with
  | VString x => String.eqb x s
  | _ => false
  end.

(** [o.k] for an object [o]. *)
Definition get (o : Object) (k : string) : Value :=
  default VUndefined (o !! k).

(** [v?.k], and [v.k] for a value that is not [undefined]: the types of
    [FlipbookConfig] admit an object or [undefined] where the source reads a
    property of a property; a string, an array, a number or a boolean has
    no property of the names read here. *)
Definition get_opt (v : Value) (k : string) : Value :=
  match v with
  | VObject m => get m k
  | _ => VUndefined
  end.

(** The properties that [{ ...v }] copies, for [v] an object or
    [undefined]. *)
Definition props (v : Value) : Object :=
  match v with
  | VObject m => m
  | _ => ∅
  end.

(** [{ ...a, ...b }]: the properties of [b] override those of [a]. *)
Definition spread (a b : Object) : Object := b ∪ a.

Definition obj (l : list (string * Value)) : Value := VObject (list_to_map l).

Definition defaultConfig : Object :=
  list_to_map
    [ ("renderMode", VString "css");
      ("layout", VString "spread");
      ("initialPage", VNumber 0);
      ("animation",
       obj [ ("duration", VNumber 800);
             ("easing", VString "ease-in-out");
             ("physics", VBool false) ]);
      ("navigation",
       obj [ ("keyboard", VBool true);
             ("touch", VBool true);
             ("click", VBool true);
             ("arrows", VBool true);
             ("pageIndicator", VBool true) ]);
      ("theme",
       obj [ ("backgroundColor", VString "#000000");
             ("pageShadow",
              obj [ ("enabled", VBool true);
                    ("color", VString "rgba(0, 0, 0, 0.3)");
                    ("blur", VNumber 20);
                    ("offset", VNumber 5) ]);
             ("spine",
              obj [ ("enabled", VBool true);
                    ("color", VString "#666666");
                    ("width", VNumber 2) ]) ]);
      ("loading",
       obj [ ("showIndicator", VBool true);
             ("strategy", VString "progressive");
             ("preloadCount", VNumber 3) ]);
      ("responsive", VBool true) ].

Definition mergeConfig (defaults userConfig : Object) : Object :=
  let merged := spread defaults userConfig in
  let merged :=
    <["animation" :=
        VObject (spread (props (get defaults "animation"))
                        (props (get userConfig "animation")))]> merged in
  let merged :=
    <["navigation" :=
        VObject (spread (props (get defaults "navigation"))
                        (props (get userConfig "navigation")))]> merged in
  let theme := spread (props (get defaults "theme")) (props (get userConfig "theme")) in
  let theme :=
    <["pageShadow" :=
        VObject (spread (props (get_opt (get defaults "theme") "pageShadow"))
                        (props (get_opt (get userConfig "theme") "pageShadow")))]> theme in
  let theme :=
    <["spine" :=
        VObject (spread (props (get_opt (get defaults "theme") "spine"))
                        (props (get_opt (get userConfig "theme") "spine")))]> theme in
  let merged := <["theme" := VObject theme]> merged in
  <["loading" :=
      VObject (spread (props (get defaults "loading"))
                      (props (get userConfig "loading")))]> merged.

(** [validateConfig]: the error thrown, or the configuration with the render
    mode it ends with; [webglSupported] is whether a canvas yields a WebGL
    context. *)
Definition validateConfig (config : Object) (webglSupported : bool)
  : string + Object :=
  if negb (truthy (get config "container")) then
    inl "Container element is required"
  else if negb (truthy (get config "media"))
          || negb (truthy (get_opt (get config "media") "src")) then
    inl "Media source is required"
  else if is_string (get config "renderMode") "webgl" then
    if webglSupported then inr config
    else inr (<["renderMode" := VString "css"]> config)
  else inr config.

(** The engine classes. *)
Inductive EngineClass : Type := UseWebGLEngine | UseCSSEngine.

(** [this.config.renderMode === 'webgl' ? WebGLEngine : CSSEngine]: the
    class whose constructor the constructor of [Flipbook] calls once
    [validateConfig] has returned.  That constructor can throw in its turn:
    [Container element not found] when the container is a selector that
    matches no element. *)
Definition engineClass (config : Object) : EngineClass :=
  if is_string (get config "renderMode") "webgl" then UseWebGLEngine else UseCSSEngine.

(** [updateConfig(newConfig)]: the new value of [this.config]. *)
Definition updateConfig (newConfig : Object) (config : Object) : Object :=
  mergeConfig config newConfig.

(** ** core.ts: detectMediaType *)

Inductive MediaType : Type := image | pdf | url.

(** [s.split('.')]: the segments between the dots, at least one. *)
Fixpoint split_dot (s : string) : list string :=
  match s with
  | EmptyString => [EmptyString]
  | String c s' =>
      if Ascii.eqb c "."%char then EmptyString :: split_dot s'
      else
        match split_dot s' with
        | seg :: segs => String c seg :: segs
        | [] => [String c EmptyString]
        end
  end.

(** [toLowerCase] on the letters A to Z; other characters do not become
    one of the letters the extensions below are written with. *)
Definition lower (c : ascii) : ascii :=
  let n := nat_of_ascii c in
  if (65 <=? n)%nat && (n <=? 90)%nat then ascii_of_nat (n + 32) else c.

Fixpoint toLowerCase (s : string) : string :=
  match s with
  | EmptyString => EmptyString
  | String c s' => String (lower c) (toLowerCase s')
  end.

Definition image_extensions : list string :=
  ["jpg"; "jpeg"; "png"; "gif"; "webp"; "bmp"; "svg"].

Definition includes (l : list string) (s : string) : bool :=
  existsb (String.eqb s) l.

Definition detectMediaType (src : string) : MediaType :=
  let extension := option_map toLowerCase (last (split_dot src)) in
  if match extension with Some e => String.eqb e "pdf" | None => false end then pdf
  else if includes image_extensions (default "" extension) then image
  else url.

End Config.

(** ** SimpleWebGLEngine.ts *)

Module SimpleWebGLEngine.

(** The continuation of [loadDependenciesAndInit] after its [await]. *)
Inductive Job : Type :=
| AwaitFulfilled
| AwaitRejected.

(** [actualEngine] is the engine the public methods forward to, when there
    is one; [scripts] are the promises of the two calls of [loadScript] and
    [allLoaded] is their [Promise.all]. *)
Record t : Type := mk {
  actualEngine : option WebGLEngine.t;
  scripts : list (Promise unit);
  allLoaded : Promise unit;
  jobs : list Job;
  calls : list Callback
}.

Definition set_scripts (v : list (Promise unit)) (s : t) : t :=
  mk (actualEngine s) v (allLoaded s) (jobs s) (calls s).

Definition set_allLoaded (v : Promise unit) (s : t) : t :=
  mk (actualEngine s) (scripts s) v (jobs s) (calls s).

Definition set_jobs (v : list Job) (s : t) : t :=
  mk (actualEngine s) (scripts s) (allLoaded s) v (calls s).

Definition call (c : Callback) (s : t) : t :=
  mk (actualEngine s) (scripts s) (allLoaded s) (jobs s) (calls s ++ [c]).

(** [script.onload] of the script with the given index. *)
Definition script_onload (index : nat) (s : t) : t :=
  match scripts s !! index with
  | Some Pending =>
      let s := set_scripts (<[index := Fulfilled tt]> (scripts s)) s in
      match allLoaded s with
      | Pending =>
          if forallb is_fulfilled (scripts s)
          then set_jobs (jobs s ++ [AwaitFulfilled]) (set_allLoaded (Fulfilled tt) s)
          else s
      | _ => s
      end
  | _ => s
  end.

(** [script.onerror]: the promise is rejected with the event. *)
Definition script_onerror (index : nat) (s : t) : t :=
  match scripts s !! index with
  | Some Pending =>
      let s := set_scripts (<[index := Rejected "error"]> (scripts s)) s in
      match allLoaded s with
      | Pending =>
          set_jobs (jobs s ++ [AwaitRejected]) (set_allLoaded (Rejected "error") s)
      | _ => s
      end
  | _ => s
  end.

Definition initWebGLEngine (s : t) : t := call onReady s.

(** [loadDependenciesAndInit] after its [await]: the [try] branch or the
    [catch] branch. *)
Definition resume (s : t) (j : Job) : t :=
  match j with
  | AwaitFulfilled => initWebGLEngine s
  | AwaitRejected => call (onError "WebGL dependencies not available") s
  end.

Definition runJobs (s : t) : t :=
  fold_left resume (jobs s) (set_jobs [] s).

(** [new SimpleWebGLEngine(config)] for a container that exists. *)
Definition constructor : t :=
  {| actualEngine := None;
     scripts := [Pending; Pending];
     allLoaded := Pending;
     jobs := [];
     calls := [] |}.

Definition nextPage (s : t) : Promise unit * t :=
  match actualEngine s with
  | Some e =>
      let (p, e') := WebGLEngine.nextPage e in
      (p, mk (Some e') (scripts s) (allLoaded s) (jobs s) (calls s))
  | None => (Fulfilled tt, s)
  end.

Definition prevPage (s : t) : Promise unit * t :=
  match actualEngine s with
  | Some e =>
      let (p, e') := WebGLEngine.prevPage e in
      (p, mk (Some e') (scripts s) (allLoaded s) (jobs s) (calls s))
  | None => (Fulfilled tt, s)
  end.

Definition goToPage (index : Z) (s : t) : Promise unit * t :=
  match actualEngine s with
  | Some e =>
      let (p, e') := WebGLEngine.goToPage index e in
      (p, mk (Some e') (scripts s) (allLoaded s) (jobs s) (calls s))
  | None => (Fulfilled tt, s)
  end.

Definition getCurrentPage (s : t) : PageInfo :=
  match actualEngine s with
  | Some e => WebGLEngine.getCurrentPage e
  | None => mkPageInfo 0 0 0 0
  end.

Definition getIsAnimating (s : t) : bool :=
  match actualEngine s with
  | Some e => WebGLEngine.getIsAnimating e
  | None => false
  end.

Definition dispose (s : t) : t :=
  match actualEngine s with
  | Some e => mk (Some (WebGLEngine.dispose e)) (scripts s) (allLoaded s) (jobs s) (calls s)
  | None => s
  end.

Inductive Event : Type :=
| CallNextPage
| CallPrevPage
| CallGoToPage (index : Z)
| CallDispose
| ScriptLoad (index : nat)
| ScriptError (index : nat).

Definition handle (e : Event) (s : t) : t :=
  match e with
  | CallNextPage => snd (nextPage s)
  | CallPrevPage => snd (prevPage s)
  | CallGoToPage index => snd (goToPage index s)
  | CallDispose => dispose s
  | ScriptLoad index => script_onload index s
  | ScriptError index => script_onerror index s
  end.

Definition step (s : t) (e : Event) : t := runJobs (handle e s).

Definition run (s : t) (trace : list Event) : t := fold_left step trace s.

End SimpleWebGLEngine.

(** ** core.ts: preloadImages *)

Module Preload.

(** The promises of the images, in the order of [sources], and their
    [Promise.all], which is what [preloadImages] returns. *)
Record t : Type := mk {
  sources : list string;
  loadPromises : list (Promise unit);
  allLoaded : Promise (list unit)
}.

(** [preloadImages(sources)]: [Promise.all] of no promise is fulfilled at
    once. *)
Definition preloadImages (sources : list string) : t :=
  let loadPromises := map (fun _ : string => @Pending unit) sources in
  {| sources := sources;
     loadPromises := loadPromises;
     allLoaded :=
       if forallb is_fulfilled loadPromises
       then Fulfilled (fulfilled_values loadPromises)
       else Pending |}.

(** [img.onload]: [resolve()]. *)
Definition img_onload (index : nat) (s : t) : t :=
  match loadPromises s !! index with
  | Some Pending =>
      let loadPromises := <[index := Fulfilled tt]> (loadPromises s) in
      mk (sources s) loadPromises
         match allLoaded s with
         | Pending =>
             if forallb is_fulfilled loadPromises
             then Fulfilled (fulfilled_values loadPromises)
             else Pending
         | settled => settled
         end
  | _ => s
  end.

(** [img.onerror]: [reject(new Error(...))]. *)
Definition img_onerror (index : nat) (s : t) : t :=
  match sources s !! index, loadPromises s !! index with
  | Some src, Some Pending =>
      let message := ("Failed to load: " ++ src)%string in
      mk (sources s) (<[index := Rejected message]> (loadPromises s))
         match allLoaded s with
         | Pending => Rejected message
         | settled => settled
         end
  | _, _ => s
  end.

Inductive Event : Type :=
| ImageLoad (index : nat)
| ImageError (index : nat).

Definition step (s : t) (e : Event) : t :=
  match e with
  | ImageLoad index => img_onload index s
  | ImageError index => img_onerror index s
  end.

Definition run (s : t) (trace : list Event) : t := fold_left step trace s.

End Preload.

(** * Vocabulary of the statements and of the invariants *)

Definition is_integer (x : number) : bool :=
  match x with
  | Int _ => true
  | _ => false
  end.

(** The callbacks that end the loading phase. *)
Definition is_lifecycle (c : Callback) : bool :=
  match c with
  | onLoadComplete | onReady | onError _ => true
  | _ => false
  end.

Definition lifecycle (cs : list Callback) : list Callback :=
  List.filter is_lifecycle cs.

(** A [PageInfo] handed to [onPageChange] in a book of [len] spreads. *)
Definition page_change_ok (len : nat) (c : Callback) : Prop :=
  match c with
  | onPageChange p => total p = 2 * Z.of_nat len ∧ index p = Number.twice (spread p)
  | _ => True
  end.

(** A five-page book for the layered engine and one for the scene-graph
    engine. *)
Definition book5 : FlipbookConfig := mkConfig (Many ["A"; "B"; "C"; "D"; "E"]) css None true.
Definition book3 : FlipbookConfig := mkConfig (Many ["A"; "B"; "C"]) webgl None true.
Definition no_book : FlipbookConfig := mkConfig (Many []) css None true.

Section CSSVocabulary.
Import CSSEngine.

(** The images [renderCurrentSpread] puts on screen for a spread, the left
    page first. *)
Definition slots (sp : Spread) : list string :=
  if isCover sp then option_list (img_of (right sp))
  else if isBack sp then option_list (img_of (left sp))
  else option_list (img_of (left sp)) ++ option_list (img_of (right sp)).

(** The images of a book in the order in which paging through it shows
    them. *)
Definition reading_order (spreads : list Spread) : list string :=
  flat_map slots spreads.

(** The interior spreads of the items that follow the front cover: they are
    taken two by two as long as two are left. *)
Fixpoint pairs (items : list string) : list Spread :=
  match items with
  | x :: y :: rest =>
      mkSpread (or_null (Some x)) (or_null (Some y)) false false :: pairs rest
  | _ => []
  end.

(** Two states that agree on what navigation reads and writes. *)
Definition same_nav (s s' : t) : Prop :=
  config s' = config s ∧ spreads s' = spreads s ∧
  currentSpread s' = currentSpread s ∧ isFlipping s' = isFlipping s ∧
  timers s' = timers s.

(** A flip that starts ends in the exception of [createFlippingPage]: the
    engine is flipping and [onAnimationStart] was called, and that is all. *)
Definition started (direction : FlipDirection) (s : t) : t :=
  call onAnimationStart (set_flipDirection (Some direction) (set_isFlipping true s)).

(** The position of a live engine: the index of a spread (0 in a book
    without spreads), or NaN. *)
Definition position_ok (len : Z) (x : number) : Prop :=
  match x with
  | Int c => 0 <= c ∧ (c = 0 ∨ c < len)
  | NaN => True
  | _ => False
  end.

(** The flip invariant: no timer is pending, whether the engine is flipping
    or not, and the position is that of a spread, or NaN. *)
Definition flip_inv (s : t) : Prop :=
  timers s = [] ∧ position_ok (Z.of_nat (length (spreads s))) (currentSpread s).

(** The position the callback of a timer stores: one more going forward,
    one less going back. *)
Definition committed (direction : FlipDirection) (cur : number) : number :=
  match direction with
  | forward => Number.add cur 1
  | back => Number.add cur (-1)
  end.

(** The [PageInfo] of position [cur] in a book of [len] spreads. *)
Definition pageInfo_at (cur : number) (len : nat) : PageInfo :=
  mkPageInfo (Number.twice cur) (Z.of_nat len * 2) cur (Z.of_nat len).

(** The progress reported when image [i] has loaded. *)
Definition progress_after (i : nat) (src : string) (s : t) : LoadingProgress :=
  mkLoadingProgress
    (Z.of_nat (size ({[i]} ∪ loadedImages s)))
    (media_length (config s))
    (ratio (Z.of_nat (size ({[i]} ∪ loadedImages s))) (media_length (config s)))
    (Some src).

(** Every task of the event loop does one of eight things to the engine.
    A timer, if there were one, would commit the next position. *)
Inductive step_shape (s : t) : Event → t → Prop :=
| shape_noop e :
    step_shape s e s
| shape_flip e direction :
    isFlipping s = false →
    match direction with
    | forward =>
        e = CallNextPage
        ∧ Number.geb (currentSpread s) (Z.of_nat (length (spreads s)) - 1) = false
    | back => e = CallPrevPage ∧ Number.leb (currentSpread s) 0 = false
    end →
    step_shape s e (started direction s)
| shape_jump index d :
    Number.ltb (Number.floor_half index) 0
    || Number.geb (Number.floor_half index) (Z.of_nat (length (spreads s)))
    || Number.eqb (Number.floor_half index) (currentSpread s) = false →
    step_shape s (CallGoToPage index)
      (call (onPageChange (pageInfo_at (Number.floor_half index) (length (spreads s))))
         (set_dom d (set_currentSpread (Number.floor_half index) s)))
| shape_timer delay direction rest d :
    timers s = (delay, direction) :: rest →
    step_shape s TimerElapsed
      (call onAnimationEnd
         (call (onPageChange
                  (pageInfo_at (committed direction (currentSpread s))
                               (length (spreads s))))
            (set_flipDirection None
               (set_isFlipping false
                  (set_dom d
                     (set_currentSpread (committed direction (currentSpread s))
                        (set_timers rest s)))))))
| shape_load i src :
    images_of (config s) !! i = Some src →
    loadPromises s !! i = Some Pending →
    allLoaded s ≠ Pending
    ∨ forallb is_fulfilled (<[i := Fulfilled tt]> (loadPromises s)) = false →
    step_shape s (ImageLoad i)
      (set_loadPromises (<[i := Fulfilled tt]> (loadPromises s))
         (call (onLoadProgress (progress_after i src s))
            (set_loadedImages ({[i]} ∪ loadedImages s) s)))
| shape_load_last i src d :
    images_of (config s) !! i = Some src →
    loadPromises s !! i = Some Pending →
    allLoaded s = Pending →
    forallb is_fulfilled (<[i := Fulfilled tt]> (loadPromises s)) = true →
    step_shape s (ImageLoad i)
      (call onReady
         (call onLoadComplete
            (set_dom d
               (set_allLoaded (Fulfilled tt)
                  (set_loadPromises (<[i := Fulfilled tt]> (loadPromises s))
                     (call (onLoadProgress (progress_after i src s))
                        (set_loadedImages ({[i]} ∪ loadedImages s) s)))))))
| shape_error_first i src :
    images_of (config s) !! i = Some src →
    loadPromises s !! i = Some Pending →
    allLoaded s = Pending →
    step_shape s (ImageError i)
      (call (onError ("Failed to load image: " ++ src)%string)
         (set_allLoaded (Rejected ("Failed to load image: " ++ src)%string)
            (set_loadPromises
               (<[i := Rejected ("Failed to load image: " ++ src)%string]> (loadPromises s))
               s)))
| shape_error_later i src :
    images_of (config s) !! i = Some src →
    loadPromises s !! i = Some Pending →
    allLoaded s ≠ Pending →
    step_shape s (ImageError i)
      (set_loadPromises
         (<[i := Rejected ("Failed to load image: " ++ src)%string]> (loadPromises s))
         s).

(** The loading invariant: the aggregate promise, the promises of the
    images and the callbacks that were made agree. *)
Definition load_inv (s : t) : Prop :=
  length (loadPromises s) = length (images_of (config s)) ∧
  match allLoaded s with
  | Pending =>
      (∃ i, loadPromises s !! i = Some Pending)
      ∧ (∀ i m, loadPromises s !! i ≠ Some (Rejected m))
      ∧ lifecycle (calls s) = []
  | Fulfilled _ =>
      (∀ i p, loadPromises s !! i = Some p → is_fulfilled p = true)
      ∧ lifecycle (calls s) = [onLoadComplete; onReady]
  | Rejected m =>
      (∃ i, loadPromises s !! i = Some (Rejected m))
      ∧ lifecycle (calls s) = [onError m]
  end.

(** Everything that holds of a live engine between two tasks. *)
Definition css_inv (s : t) : Prop :=
  jobs s = [] ∧ flip_inv s ∧ load_inv s.

(** The progress reports among the callbacks. *)
Fixpoint progress_reports (cs : list Callback) : list LoadingProgress :=
  match cs with
  | [] => []
  | onLoadProgress p :: cs' => p :: progress_reports cs'
  | _ :: cs' => progress_reports cs'
  end.

(** The images counted as loaded are those whose promise is fulfilled, and
    the progress reports count them one by one. *)
Definition progress_inv (s : t) : Prop :=
  (∀ i, i ∈ loadedImages s ↔ loadPromises s !! i = Some (Fulfilled tt))
  ∧ map loaded (progress_reports (calls s)) =
    map Z.of_nat (seq 1 (size (loadedImages s)))
  ∧ Forall (λ p, lp_total p = media_length (config s)) (progress_reports (calls s)).

(** The image [renderCurrentSpread] puts into the left and into the right
    page slot for a spread. *)
Definition shown_left (sp : Spread) : option string :=
  if isCover sp then None else img_of (left sp).

Definition shown_right (sp : Spread) : option string :=
  if isCover sp then img_of (right sp)
  else if isBack sp then None
  else img_of (right sp).

(** What holds of the mount point of a live engine: there is one flipping
    page for every pending timer, hence none; the page indicator exists when the
    configuration asks for it; and once loading has completed, the two page
    slots and the indicator show the spread at the current position. *)
Definition display_inv (s : t) : Prop :=
  length (flippingContainers (dom s)) = length (timers s)
  ∧ (pageIndicator (dom s) = None ↔ navigation_pageIndicator (config s) = false)
  ∧ attached (dom s) = true
  ∧ (allLoaded s = Fulfilled tt →
     ∀ sp, element (spreads s) (currentSpread s) = Some sp →
       pageLeft (dom s) = shown_left sp
       ∧ pageRight (dom s) = shown_right sp
       ∧ (navigation_pageIndicator (config s) = true →
          pageIndicator (dom s) =
          Some (Number.add (currentSpread s) 1, Z.of_nat (length (spreads s))))).

(** The engine after its construction and a sequence of inputs. *)
Definition after_inputs (config : FlipbookConfig) (inputs : list Input) : t :=
  snd (run_inputs (touch_initial, constructor config) inputs).

(** The inputs that turn a page by a flip, if they turn it at all: every
    input but a direct jump and the load events. *)
Definition flip_input (i : Input) : bool :=
  match i with
  | Live (CallGoToPage _) | Live (ImageLoad _) | Live (ImageError _) => false
  | _ => true
  end.







End CSSVocabulary.

Section WebGLVocabulary.
Import WebGLEngine.

(** From [s] to [s'] the position, the animation flag and the pending
    timelines are the same, and no page was removed. *)
Definition same_anim (s s' : t) : Prop :=
  config s' = config s ∧ currentPage s' = currentPage s ∧
  isAnimating s' = isAnimating s ∧ timelines s' = timelines s ∧
  (length (pages s) <= length (pages s'))%nat.

(** The animation invariant: at most one timeline is pending, and while
    one is, the engine is animating. *)
Definition anim_inv (s : t) : Prop :=
  match timelines s with
  | [] => True
  | [tl] => isAnimating s = true
  | _ => False
  end.

(** The image a load event is about. *)
Definition target (e : Event) : option nat :=
  match e with
  | TextureLoad i _ => Some i
  | TextureError i _ => Some i
  | _ => None
  end.

(** The load events that reject the promise of their image. *)
Definition is_failure (e : Event) : bool :=
  match e with
  | TextureLoad _ None => true
  | TextureLoad _ (Some (width, height)) => (width =? 0) || (height =? 0)
  | TextureError _ _ => true
  | _ => false
  end.

(** The message of the error a failing load event rejects with. *)
Definition failure_message (imagePath : string) (e : Event) : string :=
  match e with
  | TextureError _ (Some m) => "Failed to load " ++ imagePath ++ ": " ++ m
  | TextureError _ None => "Failed to load " ++ imagePath ++ ": Unknown error"
  | _ => "Invalid image dimensions: " ++ imagePath
  end.

(** From [s] to [s'] nothing of the loading phase has changed and no
    lifecycle callback was made. *)
Definition quiet (s s' : t) : Prop :=
  config s' = config s ∧ loadPromises s' = loadPromises s ∧
  allLoaded s' = allLoaded s ∧ jobs s' = jobs s ∧
  ∃ delta, calls s' = calls s ++ delta ∧ lifecycle delta = [].

(** One task of the event loop, as far as loading is concerned. *)
Inductive load_shape (s : t) (e : Event) (s' : t) : Prop :=
| lshape_quiet :
    quiet s s' → load_shape s e s'
| lshape_loaded i v delta :
    target e = Some i → is_failure e = false →
    loadPromises s !! i = Some Pending →
    config s' = config s →
    loadPromises s' = <[i := Fulfilled v]> (loadPromises s) →
    calls s' = calls s ++ delta →
    jobs s' = [] →
    (allLoaded s' = allLoaded s ∧ lifecycle delta = []
       ∧ (allLoaded s ≠ Pending ∨ forallb is_fulfilled (loadPromises s') = false))
    ∨ (allLoaded s = Pending ∧ forallb is_fulfilled (loadPromises s') = true
       ∧ allLoaded s' = Fulfilled (fulfilled_values (loadPromises s'))
       ∧ lifecycle delta = [onLoadComplete; onReady]) →
    load_shape s e s'
| lshape_failed i imagePath :
    target e = Some i → is_failure e = true →
    images_of (config s) !! i = Some imagePath →
    loadPromises s !! i = Some Pending →
    config s' = config s →
    loadPromises s' = <[i := Rejected (failure_message imagePath e)]> (loadPromises s) →
    jobs s' = [] →
    (allLoaded s = Pending ∧ allLoaded s' = Rejected (failure_message imagePath e)
       ∧ calls s' = calls s ++ [onError (failure_message imagePath e)])
    ∨ (allLoaded s ≠ Pending ∧ allLoaded s' = allLoaded s ∧ calls s' = calls s) →
    load_shape s e s'.

(** The loading invariant of the scene-graph engine. *)
Definition wload_inv (s : t) : Prop :=
  length (loadPromises s) = length (images_of (config s)) ∧
  match allLoaded s with
  | Pending =>
      (∃ i, loadPromises s !! i = Some Pending)
      ∧ (∀ i m, loadPromises s !! i ≠ Some (Rejected m))
      ∧ lifecycle (calls s) = []
  | Fulfilled _ =>
      (∀ i p, loadPromises s !! i = Some p → is_fulfilled p = true)
      ∧ lifecycle (calls s) = [onLoadComplete; onReady]
  | Rejected m =>
      (∃ i, loadPromises s !! i = Some (Rejected m))
      ∧ lifecycle (calls s) = [onError m]
  end.

(** Everything that holds of a live engine between two tasks. *)
Definition webgl_inv (s : t) : Prop :=
  jobs s = [] ∧ anim_inv s ∧ wload_inv s.

(** Whether the pages of the scene are visible, page by page. *)
Definition visibility (s : t) : list bool := map visible (pages s).

(** The pages exist once the aggregate load is fulfilled, one per media
    item; until then, and after a failure, there is none and the engine has
    not moved. *)
Definition pages_inv (s : t) : Prop :=
  if is_fulfilled (allLoaded s)
  then length (pages s) = length (images_of (config s))
       ∧ length (textures s) = length (images_of (config s))
  else pages s = [] ∧ textures s = [] ∧ currentPage s = Int 0
       ∧ isAnimating s = false ∧ timelines s = [].

(** What holds of the scene as long as direct jumps are made between
    flips and to integers: the position is that of a page; at rest the page
    shown is the only one visible; during a flip the page shown and the page
    the flip leads to are the visible ones, and the timeline holds the page
    shown. *)
Definition scene_inv (s : t) : Prop :=
  let len := Z.of_nat (length (pages s)) in
  ∃ cur, currentPage s = Int cur ∧
  0 <= cur ∧ (cur < len ∨ len = 0 ∧ cur = 0) ∧
  match timelines s with
  | [] =>
      isAnimating s = false
      ∧ ∀ i b, visibility s !! i = Some b → (b = true ↔ Z.of_nat i = cur)
  | [tl] =>
      isAnimating s = true
      ∧ tl_currentPageMesh tl = Some (Z.to_nat cur)
      ∧ match tl_direction tl with
        | forward =>
            cur + 1 < len
            ∧ ∀ i b, visibility s !! i = Some b →
                (b = true ↔ Z.of_nat i = cur ∨ Z.of_nat i = cur + 1)
        | back =>
            1 <= cur
            ∧ ∀ i b, visibility s !! i = Some b →
                (b = true ↔ Z.of_nat i = cur ∨ Z.of_nat i = cur - 1)
        end
  | _ => False
  end.

(** A direct jump is guarded when it is made between flips and its
    argument is an integer. *)
Definition wguarded (s : t) (e : Event) : bool :=
  match e with
  | CallGoToPage pageIndex => negb (isAnimating s) && is_integer pageIndex
  | _ => true
  end.

Fixpoint all_wguarded (s : t) (trace : list Event) : bool :=
  match trace with
  | [] => true
  | e :: trace' => wguarded s e && all_wguarded (step s e) trace'
  end.

(** The events of the loader. *)
Definition is_load_event (e : Event) : bool :=
  match e with
  | TextureLoad _ _ | TextureError _ _ => true
  | _ => false
  end.

(** Once the aggregate load is fulfilled, the textures are its value and
    the value lists the textures of the promises in the order of the media
    list. *)
Definition tex_inv (s : t) : Prop :=
  match allLoaded s with
  | Fulfilled vs => textures s = vs ∧ loadPromises s = map Fulfilled vs
  | _ => True
  end.

(** The engine after its construction and a sequence of inputs. *)
Definition wafter_inputs (config : FlipbookConfig) (inputs : list Input) : t :=
  run_inputs (constructor config) inputs.

(** Every direct jump among the inputs is made between flips and to an
    integer. *)
Fixpoint inputs_guarded (s : t) (inputs : list Input) : bool :=
  match inputs with
  | [] => true
  | i :: inputs' =>
      match i with
      | Live e => wguarded s e
      | _ => true
      end && inputs_guarded (step_input s i) inputs'
  end.




End WebGLVocabulary.

Section CoreVocabulary.
Import Config.

(** Whether a string contains a dot. *)
Fixpoint has_dot (s : string) : bool :=
  match s with
  | EmptyString => false
  | String c s' => Ascii.eqb c "."%char || has_dot s'
  end.

(** The media type of a lower-case extension. *)
Definition type_of_extension (e : string) : MediaType :=
  if String.eqb e "pdf" then pdf
  else if includes image_extensions e then image
  else url.

End CoreVocabulary.

Section PreloadVocabulary.
Import Preload.

(** The aggregate promise and the promises of the images agree. *)
Definition preload_inv (s : t) : Prop :=
  length (loadPromises s) = length (sources s) ∧
  match allLoaded s with
  | Pending =>
      (∃ i, loadPromises s !! i = Some Pending)
      ∧ ∀ i m, loadPromises s !! i ≠ Some (Rejected m)
  | Fulfilled vs =>
      length vs = length (sources s)
      ∧ ∀ i p, loadPromises s !! i = Some p → is_fulfilled p = true
  | Rejected m =>
      ∃ i src, sources s !! i = Some src
        ∧ m = ("Failed to load: " ++ src)%string
        ∧ loadPromises s !! i = Some (Rejected m)
  end.

End PreloadVocabulary.

Section SimpleVocabulary.
Import SimpleWebGLEngine.

(** What holds of the engine between two tasks: it has no engine to forward
    to, and the callbacks made so far follow the state of the two script
    loads. *)
Definition simple_inv (s : t) : Prop :=
  actualEngine s = None ∧ jobs s = [] ∧ length (scripts s) = 2%nat
  ∧ match allLoaded s with
    | Pending =>
        calls s = [] ∧ (∃ i, scripts s !! i = Some Pending)
        ∧ ∀ i m, scripts s !! i ≠ Some (Rejected m)
    | Fulfilled _ =>
        calls s = [onReady] ∧ scripts s = [Fulfilled tt; Fulfilled tt]
    | Rejected _ =>
        calls s = [onError "WebGL dependencies not available"]
        ∧ ∃ i m, scripts s !! i = Some (Rejected m)
    end.

End SimpleVocabulary.

(** * JavaScript numbers *)

Section NumberFacts.

Lemma ltb_Int (a b : Z) : Number.ltb (Int a) (Int b) = (a <? b).
Proof. unfold Number.ltb, Z.ltb. simpl. by destruct (a ?= b). Qed.

Lemma leb_Int (a b : Z) : Number.leb (Int a) (Int b) = (a <=? b).
Proof. unfold Number.leb, Z.leb. simpl. by destruct (a ?= b). Qed.

Lemma geb_Int (a b : Z) : Number.geb (Int a) (Int b) = (a >=? b).
Proof. unfold Number.geb, Z.geb. simpl. by destruct (a ?= b). Qed.

Lemma eqb_Int (a b : Z) : Number.eqb (Int a) (Int b) = (a =? b).
Proof. unfold Number.eqb. simpl. by rewrite Z.eqb_compare. Qed.

(** [Math.floor] yields an integer, an infinity or NaN. *)
Lemma floor_half_cases (x : number) :
  (∃ c, Number.floor_half x = Int c)
  ∨ (∃ negative, Number.floor_half x = Infinity negative)
  ∨ Number.floor_half x = NaN.
Proof.
  destruct x as [z|negative k e|negative|]; simpl; eauto.
  unfold Number.floor. destruct (Number.round _ _) as [?|?| |? ? []]; eauto.
Qed.

(** An infinity fails one of the two range tests against integers. *)
Lemma infinity_out_of_range (negative : bool) (len : Z) :
  Number.ltb (Infinity negative) (Int 0) || Number.geb (Infinity negative) (Int len) = true.
Proof. by destruct negative. Qed.

(** NaN passes every test. *)
Lemma NaN_passes (len : Z) (x : number) :
  Number.ltb NaN (Int 0) || Number.geb NaN (Int len) || Number.eqb NaN x = false.
Proof. done. Qed.

Lemma eqb_refl_Int (a : Z) : Number.eqb (Int a) (Int a) = true.
Proof. rewrite eqb_Int. apply Z.eqb_refl. Qed.

(** A number other than NaN is below an integer, or at least that
    integer. *)
Lemma ltb_or_geb (x : number) (k : Z) :
  x ≠ NaN → Number.ltb x (Int k) || Number.geb x (Int k) = true.
Proof.
  intros Hx. unfold Number.ltb, Number.geb.
  destruct x as [z|negative n e|[]|]; simpl; try done.
  - by destruct (z ?= k).
  - by destruct (_ ?= _).
Qed.

Lemma element_in_range {A} (l : list A) (i : Z) :
  0 <= i < Z.of_nat (length l) → ∃ x, element l (Int i) = Some x.
Proof.
  intros Hi. unfold element, at_index. destruct (Z.ltb_spec i 0); [lia|].
  apply lookup_lt_is_Some_2. lia.
Qed.


Lemma element_not_integer {A} (l : list A) (x : number) :
  is_integer x = false → element l x = None.
Proof. by destruct x. Qed.

End NumberFacts.

(** * Properties of the pagination model *)

Section Pagination.
Import CSSEngine.

Lemma pairLoop_unfold (images : list string) (i : nat) (acc : list Spread) :
  pairLoop images i acc =
  if Z.of_nat i <? Z.of_nat (length images) - 1
  then pairLoop images (i + 2)
         (acc ++ [ mkSpread (or_null (images !! i)) (or_null (images !! (i + 1)%nat)) false false ])
  else acc.
Proof.
  rewrite pairLoop_equation_1. unfold pairLoop_unfold_clause_1.
  destruct (Z_lt_dec _ _) as [H|H].
  - apply Z.ltb_lt in H. now rewrite H.
  - apply Z.ltb_nlt in H. now rewrite H.
Qed.

(** Induction along the indices the loop visits. *)
Lemma loop_index_ind (images : list string) (P : nat → Prop) :
  (∀ i, (Z.of_nat i < Z.of_nat (length images) - 1 → P (i + 2)%nat) → P i) →
  ∀ i, P i.
Proof.
  intros step i.
  remember (length images - i)%nat as k eqn:Hk.
  revert i Hk. induction (lt_wf k) as [k _ IH]. intros i Hk.
  apply step. intros Hlt. apply (IH (length images - (i + 2))%nat); lia.
Qed.

(** The loop only appends to what it is given. *)
Lemma pairLoop_app (images : list string) (i : nat) (acc : list Spread) :
  pairLoop images i acc = acc ++ pairLoop images i [].
Proof.
  revert acc. induction i as [i IH] using (loop_index_ind images). intros acc.
  rewrite (pairLoop_unfold images i acc), (pairLoop_unfold images i []).
  destruct (Z.ltb_spec (Z.of_nat i) (Z.of_nat (length images) - 1)) as [Hlt|Hge].
  - rewrite (IH Hlt). rewrite (IH Hlt ([] ++ _)).
    now rewrite <- app_assoc.
  - now rewrite app_nil_r.
Qed.

(** The number of interior spreads: one for every second index from [i]
    up to, and without, the last index. *)
Lemma pairLoop_length (images : list string) (i : nat) (acc : list Spread) :
  Z.of_nat (length (pairLoop images i acc)) =
  Z.of_nat (length acc) + Z.max 0 (ceil_half (Z.of_nat (length images) - 1 - Z.of_nat i)).
Proof.
  revert acc. induction i as [i IH] using (loop_index_ind images). intros acc.
  rewrite pairLoop_unfold. unfold ceil_half.
  destruct (Z.ltb_spec (Z.of_nat i) (Z.of_nat (length images) - 1)) as [Hlt|Hge].
  - rewrite (IH Hlt).
    rewrite length_app. simpl. unfold ceil_half.
    replace (Z.of_nat (length images) - 1 - Z.of_nat i + 1)
      with ((Z.of_nat (length images) - 1 - Z.of_nat (i + 2) + 1) + 1 * 2) by lia.
    rewrite Z.div_add by lia.
    assert (0 <= (Z.of_nat (length images) - 1 - Z.of_nat (i + 2) + 1) / 2)
      by (apply Z.div_pos; lia).
    lia.
  - assert ((Z.of_nat (length images) - 1 - Z.of_nat i + 1) / 2 <= 0).
    { apply Z.lt_succ_r. apply Z.div_lt_upper_bound; lia. }
    lia.
Qed.

(** Every spread the loop adds is an interior spread. *)
Lemma pairLoop_interior (images : list string) (i : nat) (sp : Spread) :
  sp ∈ pairLoop images i [] → isCover sp = false ∧ isBack sp = false.
Proof.
  induction i as [i IH] using (loop_index_ind images).
  rewrite pairLoop_unfold.
  destruct (Z.ltb_spec (Z.of_nat i) (Z.of_nat (length images) - 1)) as [Hlt|Hge].
  - rewrite pairLoop_app. simpl. intros [->|Hin]%elem_of_cons; [done|].
    now apply (IH Hlt).
  - intros Hin. inversion Hin.
Qed.

Lemma createSpreads_ge2 (images : list string) :
  (2 <= length images)%nat →
  createSpreads images =
  mkSpread None (images !! 0%nat) true false
  :: pairLoop images 1 []
  ++ [mkSpread (images !! (length images - 1)%nat) None false true].
Proof.
  intros HL. unfold createSpreads.
  assert ((Z.of_nat (length images) >? 0) = true) as -> by (apply Z.gtb_lt; lia).
  assert ((Z.of_nat (length images) >? 1) = true) as -> by (apply Z.gtb_lt; lia).
  cbv zeta. now rewrite pairLoop_app.
Qed.

(** The number of spreads of a list with both covers. *)
Lemma createSpreads_length (images : list string) :
  (2 <= length images)%nat →
  Z.of_nat (length (createSpreads images)) =
  ceil_half (Z.of_nat (length images) - 2) + 2.
Proof.
  intros HL. rewrite createSpreads_ge2 by exact HL.
  rewrite length_cons, length_app, Nat2Z.inj_succ, Nat2Z.inj_add, pairLoop_length.
  replace (Z.of_nat (length images) - 1 - Z.of_nat 1)
    with (Z.of_nat (length images) - 2) by lia.
  assert (0 <= ceil_half (Z.of_nat (length images) - 2))
    by (unfold ceil_half; apply Z.div_pos; lia).
  simpl length. lia.
Qed.

(** The interior spreads in closed form: the [j]-th spread the loop adds
    from index [i] pairs the items [i + 2j] and [i + 2j + 1]. *)
Lemma pairLoop_lookup (images : list string) (i j : nat) :
  (j < length (pairLoop images i []))%nat →
  pairLoop images i [] !! j =
  Some (mkSpread (or_null (images !! (i + 2 * j)%nat))
                 (or_null (images !! (i + 2 * j + 1)%nat)) false false).
Proof.
  revert j. induction i as [i IH] using (loop_index_ind images). intros j.
  rewrite pairLoop_unfold.
  destruct (Z.ltb_spec (Z.of_nat i) (Z.of_nat (length images) - 1)) as [Hlt|Hge];
    [|simpl; lia].
  rewrite pairLoop_app. simpl. destruct j as [|j]; simpl.
  - intros _. by rewrite Nat.add_0_r.
  - intros Hj. rewrite (IH Hlt j) by lia.
    by replace (i + 2 + 2 * j)%nat with (i + S (j + S (j + 0)))%nat by lia.
Qed.

(** Spread [k] between the covers pairs the items [2k - 1] and [2k]. *)
Lemma createSpreads_interior (images : list string) (k : nat) :
  (1 <= k)%nat → (k + 1 < length (createSpreads images))%nat →
  createSpreads images !! k =
  Some (mkSpread (or_null (images !! (2 * k - 1)%nat))
                 (or_null (images !! (2 * k)%nat)) false false).
Proof.
  intros Hk Hlen.
  assert (HL : (2 <= length images)%nat).
  { destruct images as [|a [|b rest]]; [| |simpl; lia].
    - change (createSpreads []) with (@nil Spread) in Hlen. simpl in Hlen. lia.
    - change (createSpreads [a]) with [mkSpread None (Some a) true false] in Hlen.
      simpl in Hlen. lia. }
  rewrite createSpreads_ge2 in * by done.
  destruct k as [|k]; [lia|]. simpl in *. rewrite length_app in Hlen. simpl in Hlen.
  rewrite lookup_app_l by lia. rewrite pairLoop_lookup by lia.
  replace (k + S (k + 0) - 0)%nat with (1 + 2 * k)%nat by lia.
  by replace (S (k + S (k + 0))) with (1 + 2 * k + 1)%nat by lia.
Qed.

(** For an odd number of items the right slot of the last interior spread
    holds the last item, which is the back cover too. *)
Lemma createSpreads_odd_last_pair (images : list string) (m : nat) :
  length images = (2 * m + 3)%nat →
  length (createSpreads images) = (m + 3)%nat
  ∧ createSpreads images !! (m + 1)%nat =
    Some (mkSpread (or_null (images !! (length images - 2)%nat))
                   (or_null (images !! (length images - 1)%nat)) false false)
  ∧ createSpreads images !! (m + 2)%nat =
    Some (mkSpread (images !! (length images - 1)%nat) None false true).
Proof.
  intros HL.
  assert (Hlen : length (createSpreads images) = (m + 3)%nat).
  { apply Nat2Z.inj. rewrite createSpreads_ge2 by lia.
    rewrite length_cons, length_app, Nat2Z.inj_succ, Nat2Z.inj_add, pairLoop_length.
    simpl length. rewrite HL. unfold ceil_half.
    replace (Z.of_nat (2 * m + 3) - 1 - Z.of_nat 1 + 1) with ((Z.of_nat m + 1) * 2) by lia.
    rewrite Z.div_mul by lia. lia. }
  split; [done|]. split.
  - rewrite createSpreads_interior by lia. rewrite HL. do 3 f_equal; f_equal; lia.
  - rewrite createSpreads_ge2 by lia. rewrite createSpreads_ge2 in Hlen by lia.
    rewrite app_comm_cons, lookup_app_r; rewrite length_cons, length_app in Hlen;
      simpl in Hlen; simpl length; [|lia].
    by replace (m + 2 - S (length (pairLoop images 1 [])))%nat with 0%nat by lia.
Qed.

(** C1: the empty list gives no spread; a single item gives one spread,
    the front cover with the item in the right slot; a list of length
    L >= 2 gives ceil((L-2)/2) + 2 spreads, of which the first is the front
    cover (right slot = item 0, left slot empty) and the last is the back
    cover (left slot = item L-1, right slot empty). *)
Theorem createSpreads_shape (images : list string) :
  match images with
  | [] => createSpreads images = []
  | [item] => createSpreads images = [mkSpread None (Some item) true false]
  | item0 :: _ :: _ =>
      Z.of_nat (length (createSpreads images)) =
        ceil_half (Z.of_nat (length images) - 2) + 2
      ∧ createSpreads images !! 0%nat = Some (mkSpread None (Some item0) true false)
      ∧ ∃ itemL, images !! (length images - 1)%nat = Some itemL
          ∧ last (createSpreads images) = Some (mkSpread (Some itemL) None false true)
  end.
Proof.
  destruct images as [|item0 [|item1 rest]]; [reflexivity..|].
  remember (item0 :: item1 :: rest) as images eqn:Himages.
  assert (HL : (2 <= length images)%nat) by (subst; simpl; lia).
  split; [by apply createSpreads_length|].
  rewrite createSpreads_ge2 by exact HL.
  split.
  - now subst.
  - destruct (lookup_lt_is_Some_2 images (length images - 1)) as [itemL HitemL]; [lia|].
    exists itemL. split; [done|]. rewrite HitemL, app_comm_cons. apply last_snoc.
Qed.

Lemma pairs_ind (P : list string → Prop) :
  P [] → (∀ x, P [x]) → (∀ x y l, P l → P (x :: y :: l)) → ∀ l, P l.
Proof.
  intros H0 H1 H2.
  assert (H : ∀ l, P l ∧ ∀ x, P (x :: l)).
  { induction l as [|y l [IH1 IH2]]; [by split|]. split; [apply IH2|]. intros x. by apply H2. }
  intros l. apply H.
Qed.

Lemma pairLoop_pairs (images : list string) (i : nat) :
  pairLoop images i [] = pairs (drop i images).
Proof.
  induction i as [i IH] using (loop_index_ind images).
  rewrite pairLoop_unfold.
  destruct (Z.ltb_spec (Z.of_nat i) (Z.of_nat (length images) - 1)) as [Hlt|Hge].
  - destruct (lookup_lt_is_Some_2 images i) as [x Hx]; [lia|].
    destruct (lookup_lt_is_Some_2 images (i + 1)) as [y Hy]; [lia|].
    rewrite pairLoop_app, (IH Hlt), Hx, Hy.
    rewrite (drop_S _ _ _ Hx). replace (S i) with (i + 1)%nat by lia.
    rewrite (drop_S _ _ _ Hy). simpl.
    by replace (S (i + 1)) with (i + 2)%nat by lia.
  - assert (Hlen : (length (drop i images) <= 1)%nat) by (rewrite length_drop; lia).
    destruct (drop i images) as [|x [|y rest]]; simpl in *; [done|done|lia].
Qed.

Lemma slots_pairs (items : list string) :
  Forall (λ s, truthy s = true) items →
  flat_map slots (pairs items) =
  if Nat.even (length items) then items else removelast items.
Proof.
  induction items as [|x|x y l IH] using pairs_ind; [done|done|].
  intros Hall. inversion Hall as [|? ? Hx Hall']; subst.
  inversion Hall' as [|? ? Hy Hall'']; subst.
  change (pairs (x :: y :: l)) with
    (mkSpread (or_null (Some x)) (or_null (Some y)) false false :: pairs l).
  cbn [flat_map]. rewrite (IH Hall'').
  unfold slots, img_of. simpl. rewrite Hx, Hy. simpl. rewrite Hx, Hy. simpl.
  change (Nat.even (S (S (length l)))) with (Nat.even (length l)).
  destruct (Nat.even (length l)) eqn:Hev; [done|].
  destruct l as [|z l]; [done|]. done.
Qed.

(** X2: paging through the book shows every item, in the order of the media
    list.  For every list of non-empty locators, the images of the spreads,
    read spread by spread and left page before right page, are the media list
    itself, followed by one more copy of the last item when the length is odd
    and at least 3 (the last interior spread and the back cover both show
    it); no item is dropped and no other item is shown twice. *)
Theorem reading_order_createSpreads (images : list string) :
  Forall (λ s, truthy s = true) images →
  reading_order (createSpreads images) =
  images ++
  (if Nat.odd (length images) && (3 <=? length images)%nat
   then option_list (last images) else []).
Proof.
  intros Hall. unfold reading_order.
  destruct images as [|a [|b rest]].
  - reflexivity.
  - inversion Hall as [|? ? Ha _]; subst.
    change (createSpreads [a]) with [mkSpread None (Some a) true false].
    simpl. unfold slots, img_of. simpl. by rewrite Ha.
  - inversion Hall as [|? ? Ha Hall']; subst.
    remember (b :: rest) as tl eqn:Htl.
    assert (Hne : tl ≠ []) by (by subst).
    rewrite createSpreads_ge2 by (subst; simpl; lia).
    rewrite pairLoop_pairs. simpl drop. rewrite drop_0.
    cbn [flat_map]. rewrite flat_map_app, (slots_pairs tl Hall'). simpl flat_map.
    assert (Hlast : (a :: tl) !! (length tl - 0)%nat = last tl).
    { rewrite Nat.sub_0_r, last_lookup. by destruct tl. }
    assert (Hlast' : last (a :: tl) = last tl) by (by destruct tl).
    rewrite Hlast, Hlast'.
    destruct (last tl) as [z|] eqn:Hz; [|by apply last_None in Hz].
    assert (Hz' : truthy z = true).
    { rewrite Forall_forall in Hall'. apply Hall'.
      rewrite last_lookup in Hz. by eapply list_elem_of_lookup_2. }
    unfold slots, img_of. simpl. rewrite Ha, Hz'. simpl.
    rewrite Nat.odd_succ.
    destruct (Nat.even (length tl)) eqn:Hev.
    { destruct (length tl) as [|[|n]] eqn:Hn; [by destruct tl|done|done]. }
    simpl. rewrite app_nil_r. f_equal.
    destruct (exists_last Hne) as (l' & z' & ->).
    rewrite last_snoc in Hz. injection Hz as ->. by rewrite removelast_last.
Qed.

(** X2 at a three-page book: the third page is shown twice. *)
Lemma reading_order_createSpreads_witness :
  reading_order (createSpreads ["A"; "B"; "C"]) = ["A"; "B"; "C"; "C"].
Proof.
  apply (reading_order_createSpreads ["A"; "B"; "C"]).
  repeat constructor.
Defined.

End Pagination.

(** The spec's scenario: five items give four spreads. *)
Example createSpreads_5 :
  CSSEngine.createSpreads ["A"; "B"; "C"; "D"; "E"] =
  [ CSSEngine.mkSpread None (Some "A") true false;
    CSSEngine.mkSpread (Some "B") (Some "C") false false;
    CSSEngine.mkSpread (Some "D") (Some "E") false false;
    CSSEngine.mkSpread (Some "E") None false true ].
Proof. vm_compute. reflexivity. Qed.

(** * The layered engine: navigation *)

Ltac crush_state s :=
  destruct s; simpl in *; repeat case_match; simpl in *; auto.

(** Boolean tests of the source, as propositions. *)
Ltac zbool :=
  repeat match goal with
  | H : context [Number.ltb (Int _) (Int _)] |- _ => rewrite ltb_Int in H
  | H : context [Number.leb (Int _) (Int _)] |- _ => rewrite leb_Int in H
  | H : context [Number.geb (Int _) (Int _)] |- _ => rewrite geb_Int in H
  | H : context [Number.eqb (Int _) (Int _)] |- _ => rewrite eqb_Int in H
  | H : (_ || _) = false |- _ => apply orb_false_elim in H; destruct H
  | H : (_ || _) = true |- _ => apply orb_true_iff in H
  | H : negb _ = true |- _ => apply negb_true_iff in H
  | H : negb _ = false |- _ => apply negb_false_iff in H
  | H : (_ >=? _) = true |- _ => rewrite Z.geb_leb in H; apply Z.leb_le in H
  | H : (_ >=? _) = false |- _ => rewrite Z.geb_leb in H; apply Z.leb_gt in H
  | H : (_ >? _) = true |- _ => rewrite Z.gtb_ltb in H; apply Z.ltb_lt in H
  | H : (_ >? _) = false |- _ => rewrite Z.gtb_ltb in H; apply Z.ltb_ge in H
  | H : (_ <=? _) = true |- _ => apply Z.leb_le in H
  | H : (_ <=? _) = false |- _ => apply Z.leb_gt in H
  | H : (_ <? _) = true |- _ => apply Z.ltb_lt in H
  | H : (_ <? _) = false |- _ => apply Z.ltb_ge in H
  | H : (_ =? _) = true |- _ => apply Z.eqb_eq in H
  | H : (_ =? _) = false |- _ => apply Z.eqb_neq in H
  end.

Section CSSNavigation.
Import CSSEngine.

Lemma same_nav_refl s : same_nav s s.
Proof. now repeat split. Qed.

Lemma same_nav_trans s1 s2 s3 : same_nav s1 s2 → same_nav s2 s3 → same_nav s1 s3.
Proof. unfold same_nav. intuition congruence. Qed.

Lemma renderCurrentSpread_nav s : same_nav s (renderCurrentSpread s).
Proof. unfold renderCurrentSpread, updatePageIndicator, same_nav. crush_state s. Qed.

Lemma loadImages_resume_nav s j : same_nav s (loadImages_resume s j).
Proof.
  destruct j; simpl.
  - pose proof (renderCurrentSpread_nav s) as H. unfold same_nav in *. simpl. exact H.
  - now repeat split.
Qed.

Lemma fold_resume_nav js s : same_nav s (fold_left loadImages_resume js s).
Proof.
  revert s. induction js as [|j js IH]; intros s; simpl; [apply same_nav_refl|].
  eapply same_nav_trans; [apply loadImages_resume_nav|apply IH].
Qed.

Lemma runJobs_nav s : same_nav s (runJobs s).
Proof.
  unfold runJobs. eapply same_nav_trans; [|apply fold_resume_nav]. now repeat split.
Qed.

Lemma resolve_nav i s : same_nav s (resolve i s).
Proof. unfold resolve, same_nav. crush_state s. Qed.

Lemma reject_nav i m s : same_nav s (reject i m s).
Proof. unfold reject, same_nav. crush_state s. Qed.

Lemma loadImage_onload_nav src i s : same_nav s (loadImage_onload src i s).
Proof.
  unfold loadImage_onload. eapply same_nav_trans; [|apply resolve_nav]. now repeat split.
Qed.

Lemma loadImage_onerror_nav src i s : same_nav s (loadImage_onerror src i s).
Proof. apply reject_nav. Qed.

Lemma createFlippingPage_throws direction s :
  createFlippingPage direction s = (Thrown SyntaxError, s).
Proof. reflexivity. Qed.

Lemma performFlipAnimation_throws direction s :
  performFlipAnimation direction s = (Thrown SyntaxError, started direction s).
Proof. reflexivity. Qed.

(** [nextPage] and [prevPage] do nothing, or start a flip and are rejected. *)
Lemma goToNextSpread_eq s :
  goToNextSpread s =
  if isFlipping s || Number.geb (currentSpread s) (Z.of_nat (length (spreads s)) - 1)
  then (Returned, s) else (Thrown SyntaxError, started forward s).
Proof. reflexivity. Qed.

Lemma goToPrevSpread_eq s :
  goToPrevSpread s =
  if isFlipping s || Number.leb (currentSpread s) 0
  then (Returned, s) else (Thrown SyntaxError, started back s).
Proof. reflexivity. Qed.

Lemma nextPage_eq s :
  nextPage s =
  if isFlipping s || Number.geb (currentSpread s) (Z.of_nat (length (spreads s)) - 1)
  then (Fulfilled tt, s) else (Rejected SyntaxError, started forward s).
Proof. unfold nextPage. rewrite goToNextSpread_eq. by destruct (_ || _). Qed.

Lemma prevPage_eq s :
  prevPage s =
  if isFlipping s || Number.leb (currentSpread s) 0
  then (Fulfilled tt, s) else (Rejected SyntaxError, started back s).
Proof. unfold prevPage. rewrite goToPrevSpread_eq. by destruct (_ || _). Qed.

Lemma flip_inv_same_nav s s' : same_nav s s' → flip_inv s → flip_inv s'.
Proof. unfold same_nav, flip_inv. intros (_ & -> & -> & _ & ->). auto. Qed.

(** The position a direct jump commits. *)
Lemma jump_position_ok (len : Z) (index cur : number) :
  Number.ltb (Number.floor_half index) 0
  || Number.geb (Number.floor_half index) len
  || Number.eqb (Number.floor_half index) cur = false →
  position_ok len (Number.floor_half index).
Proof.
  intros H. apply orb_false_elim in H as [H _].
  destruct (floor_half_cases index) as [[c Hc]|[[negative Hc]|Hc]]; rewrite Hc in *.
  - zbool. simpl. lia.
  - by rewrite infinity_out_of_range in H.
  - done.
Qed.

Lemma handle_flip_inv s e : flip_inv s → flip_inv (handle e s).
Proof.
  intros Hinv. destruct e; simpl.
  - rewrite nextPage_eq. case_match; exact Hinv.
  - rewrite prevPage_eq. case_match; exact Hinv.
  - unfold goToPage. case_match eqn:Htest; simpl; [exact Hinv|].
    match goal with
    | |- flip_inv (call _ (renderCurrentSpread ?x)) =>
        apply (flip_inv_same_nav x);
          [pose proof (renderCurrentSpread_nav x) as Hn; unfold same_nav in *; simpl;
           exact Hn|]
    end.
    destruct Hinv as [Htm _]. split; [done|]. simpl.
    by eapply jump_position_ok.
  - destruct Hinv as [Htm Hpos]. by rewrite Htm.
  - repeat case_match; try exact Hinv.
    eapply flip_inv_same_nav; [apply loadImage_onload_nav|exact Hinv].
  - repeat case_match; try exact Hinv.
    eapply flip_inv_same_nav; [apply loadImage_onerror_nav|exact Hinv].
Qed.

Lemma step_flip_inv s e : flip_inv s → flip_inv (step s e).
Proof.
  intros. unfold step. eapply flip_inv_same_nav; [apply runJobs_nav|].
  now apply handle_flip_inv.
Qed.

(** Once the engine is flipping it stays so: only the callback of a timer
    resets the flag, and there is no timer. *)
Lemma step_stays_flipping s e :
  timers s = [] → isFlipping s = true → isFlipping (step s e) = true.
Proof.
  intros Htm Hfl. unfold step.
  destruct (runJobs_nav (handle e s)) as (_ & _ & _ & -> & _).
  destruct e; simpl.
  - rewrite nextPage_eq. by rewrite Hfl.
  - rewrite prevPage_eq. by rewrite Hfl.
  - unfold goToPage. case_match; simpl; [done|].
    match goal with
    | |- context [renderCurrentSpread ?x] =>
        destruct (renderCurrentSpread_nav x) as (_ & _ & _ & -> & _)
    end. done.
  - by rewrite Htm.
  - repeat case_match; try done.
    match goal with |- context [loadImage_onload ?a ?b ?c] =>
      by destruct (loadImage_onload_nav a b c) as (_ & _ & _ & -> & _) end.
  - repeat case_match; try done.
    match goal with |- context [loadImage_onerror ?a ?b ?c] =>
      by destruct (loadImage_onerror_nav a b c) as (_ & _ & _ & -> & _) end.
Qed.

(** Rendering only changes what is shown. *)
Lemma renderCurrentSpread_dom s : ∃ d, renderCurrentSpread s = set_dom d s.
Proof.
  unfold renderCurrentSpread, updatePageIndicator.
  destruct (element _ _); [|exists (dom s); by destruct s].
  simpl. case_match; eexists; reflexivity.
Qed.

Lemma runJobs_no_jobs s : jobs s = [] → runJobs s = s.
Proof. unfold runJobs. intros H. destruct s. simpl in *. by subst. Qed.

Lemma fold_resume_jobs js s : jobs (fold_left loadImages_resume js s) = jobs s.
Proof.
  revert s. induction js as [|j js IH]; intros s; simpl; [done|].
  rewrite IH. destruct j; simpl; [|done].
  destruct (renderCurrentSpread_dom s) as [d ->]. done.
Qed.

Lemma runJobs_jobs s : jobs (runJobs s) = [].
Proof. unfold runJobs. by rewrite fold_resume_jobs. Qed.

Lemma step_jobs s e : jobs (step s e) = [].
Proof. apply runJobs_jobs. Qed.

Lemma constructor_jobs config : jobs (constructor config) = [].
Proof. apply runJobs_jobs. Qed.

Lemma run_snoc s trace e : run s (trace ++ [e]) = step (run s trace) e.
Proof. unfold run. by rewrite fold_left_app. Qed.

Lemma run_jobs s trace : jobs s = [] → jobs (run s trace) = [].
Proof.
  induction trace as [|e trace IH] using rev_ind; [done|].
  intros _. rewrite run_snoc. apply step_jobs.
Qed.

(** The book never changes while the engine is alive. *)
Lemma step_book s e : config (step s e) = config s ∧ spreads (step s e) = spreads s.
Proof.
  unfold step. destruct (runJobs_nav (handle e s)) as (-> & -> & _).
  destruct e; simpl.
  - rewrite nextPage_eq. by case_match.
  - rewrite prevPage_eq. by case_match.
  - unfold goToPage. case_match; [done|]. simpl.
    match goal with
    | |- context [renderCurrentSpread ?x] =>
        destruct (renderCurrentSpread_nav x) as (-> & -> & _)
    end. done.
  - destruct (timers s) as [|[d direction] rest]; [done|].
    unfold flipTimeout. simpl.
    destruct direction;
      match goal with
      | |- context [renderCurrentSpread ?x] =>
          destruct (renderCurrentSpread_nav x) as (-> & -> & _)
      end; done.
  - repeat case_match; try done.
    match goal with |- context [loadImage_onload ?a ?b ?c] =>
      by destruct (loadImage_onload_nav a b c) as (-> & -> & _) end.
  - repeat case_match; try done.
    match goal with |- context [loadImage_onerror ?a ?b ?c] =>
      by destruct (loadImage_onerror_nav a b c) as (-> & -> & _) end.
Qed.

Lemma run_book s trace :
  config (run s trace) = config s ∧ spreads (run s trace) = spreads s.
Proof.
  induction trace as [|e trace IH] using rev_ind; [done|].
  rewrite run_snoc. destruct (step_book (run s trace) e) as [-> ->]. exact IH.
Qed.

Lemma constructor_book config :
  CSSEngine.config (constructor config) = config ∧
  spreads (constructor config) = createSpreads (images_of config).
Proof.
  unfold constructor.
  match goal with |- context [runJobs ?x] => destruct (runJobs_nav x) as (-> & -> & _) end.
  unfold loadImages. simpl. by destruct (forallb _ _).
Qed.

Lemma constructor_flip_inv config : flip_inv (constructor config).
Proof.
  unfold constructor.
  match goal with |- context [runJobs ?x] =>
    apply (flip_inv_same_nav x); [apply runJobs_nav|] end.
  unfold loadImages, flip_inv. simpl. destruct (forallb _ _); simpl; (split; [done|lia]).
Qed.

Lemma createSpreads_nonempty (images : list string) :
  images ≠ [] → (1 <= length (createSpreads images))%nat.
Proof.
  destruct images as [|a images]; [done|]. intros _. unfold createSpreads.
  assert ((Z.of_nat (length (a :: images)) >? 0) = true) as ->
    by (apply Z.gtb_lt; simpl length; lia).
  cbv zeta. rewrite pairLoop_app. case_match; rewrite ?length_app; simpl; lia.
Qed.

Lemma run_flip_inv s trace : flip_inv s → flip_inv (run s trace).
Proof.
  induction trace as [|e trace IH] using rev_ind; [done|].
  intros H. rewrite run_snoc. apply step_flip_inv; auto.
Qed.

End CSSNavigation.

(** * The scene-graph engine: navigation *)

Section WebGLNavigation.
Import WebGLEngine.

Lemma same_anim_refl s : same_anim s s.
Proof. by repeat split. Qed.

Lemma same_anim_trans s1 s2 s3 : same_anim s1 s2 → same_anim s2 s3 → same_anim s1 s3.
Proof. unfold same_anim. intros (-> & -> & -> & -> & ?) (-> & -> & -> & -> & ?). repeat split; lia. Qed.

Lemma set_visible_pages i v s :
  length (pages (set_visible i v s)) = length (pages s).
Proof. unfold set_visible. case_match; simpl; [apply length_insert|done]. Qed.

Lemma set_rotation_pages i r s :
  length (pages (set_rotation i r s)) = length (pages s).
Proof. unfold set_rotation. case_match; simpl; [apply length_insert|done]. Qed.

Lemma set_visible_pages_eq i v s : ∃ ps, set_visible i v s = set_pages ps s ∧ length ps = length (pages s).
Proof.
  unfold set_visible. case_match.
  - eexists. split; [done|]. apply length_insert.
  - exists (pages s). by destruct s.
Qed.

Lemma set_rotation_pages_eq i r s : ∃ ps, set_rotation i r s = set_pages ps s ∧ length ps = length (pages s).
Proof.
  unfold set_rotation. case_match.
  - eexists. split; [done|]. apply length_insert.
  - exists (pages s). by destruct s.
Qed.

Lemma loadTextures_resume_anim s j : same_anim s (loadTextures_resume s j).
Proof.
  destruct j; unfold same_anim; simpl; repeat split; try done.
  rewrite length_app. lia.
Qed.

Lemma fold_resume_anim js s : same_anim s (fold_left loadTextures_resume js s).
Proof.
  revert s. induction js as [|j js IH]; intros s; simpl; [apply same_anim_refl|].
  eapply same_anim_trans; [apply loadTextures_resume_anim|apply IH].
Qed.

Lemma runJobs_anim s : same_anim s (runJobs s).
Proof.
  unfold runJobs. eapply same_anim_trans; [|apply fold_resume_anim]. by repeat split.
Qed.

Lemma resolve_anim i v s : same_anim s (resolve i v s).
Proof. unfold resolve, same_anim. crush_state s. Qed.

Lemma reject_anim i m s : same_anim s (reject i m s).
Proof. unfold reject, same_anim. crush_state s. Qed.

Lemma loader_onLoad_anim path i image s : same_anim s (loader_onLoad path i image s).
Proof.
  unfold loader_onLoad. destruct image as [[w h]|]; [|apply reject_anim].
  case_match; [apply reject_anim|].
  eapply same_anim_trans; [apply resolve_anim|]. by repeat split.
Qed.

Lemma loader_onError_anim path i m s : same_anim s (loader_onError path i m s).
Proof. apply reject_anim. Qed.

Lemma anim_inv_same_anim s s' : same_anim s s' → anim_inv s → anim_inv s'.
Proof. unfold same_anim, anim_inv. by intros (_ & _ & -> & -> & _). Qed.

Lemma anim_inv_idle s : anim_inv s → isAnimating s = false → timelines s = [].
Proof.
  unfold anim_inv. intros H Hfl. rewrite Hfl in H.
  by destruct (timelines s) as [|tl [|? ?]].
Qed.



Lemma nextPage_anim_inv s : anim_inv s → anim_inv (snd (nextPage s)).
Proof.
  intros Hinv. unfold nextPage. case_match; [exact Hinv|]. zbool.
  pose proof (anim_inv_idle _ Hinv ltac:(done)) as Htl.
  simpl. destruct (element (pages s) (Number.add (currentPage s) 1)); simpl.
  - match goal with |- context [set_visible ?i true ?x] =>
      destruct (set_visible_pages_eq i true x) as (ps & -> & Hps) end.
    simpl in *.
    destruct (element (pages s) (currentPage s)); unfold anim_inv; simpl;
      rewrite Htl; simpl; done.
  - unfold anim_inv. simpl. by rewrite Htl.
Qed.

Lemma prevPage_anim_inv s : anim_inv s → anim_inv (snd (prevPage s)).
Proof.
  intros Hinv. unfold prevPage. case_match; [exact Hinv|]. zbool.
  pose proof (anim_inv_idle _ Hinv ltac:(done)) as Htl.
  simpl. destruct (element (pages s) (Number.add (currentPage s) (-1))); simpl.
  - match goal with |- context [set_visible ?i true ?x] =>
      destruct (set_visible_pages_eq i true x) as (ps & -> & Hps) end.
    match goal with |- context [set_rotation ?i ?r ?x] =>
      destruct (set_rotation_pages_eq i r x) as (ps' & Hrot & Hps') end.
    simpl in *. rewrite Hrot. unfold anim_inv; simpl.
    rewrite Htl; simpl. done.
  - unfold anim_inv. simpl. by rewrite Htl.
Qed.

Lemma onComplete_fields tl s :
  config (onComplete tl s) = config s ∧
  length (pages (onComplete tl s)) = length (pages s) ∧
  currentPage (onComplete tl s) =
    match tl_direction tl with
    | forward => Number.add (currentPage s) 1
    | back => Number.add (currentPage s) (-1)
    end ∧
  isAnimating (onComplete tl s) = false ∧
  timelines (onComplete tl s) = timelines s.
Proof.
  unfold onComplete.
  destruct (tl_direction tl).
  - destruct (set_rotation_pages_eq (tl_rotating tl) rot_minus_pi s) as (ps & -> & Hps).
    destruct (tl_currentPageMesh tl) as [i|]; [|by simpl].
    match goal with |- context [set_visible i false ?x] =>
      destruct (set_visible_pages_eq i false x) as (ps' & -> & Hps') end.
    simpl in *. repeat split; congruence.
  - destruct (set_rotation_pages_eq (tl_rotating tl) rot_0 s) as (ps & -> & Hps).
    destruct (tl_currentPageMesh tl) as [i|]; [|by simpl].
    match goal with |- context [set_visible i false ?x] =>
      destruct (set_visible_pages_eq i false x) as (ps' & -> & Hps') end.
    simpl in *. repeat split; congruence.
Qed.

(** A direct jump changes nothing, or passes the three tests and stores
    its argument, whether the page it names exists or not. *)
Lemma goToPage_fields pageIndex s :
  snd (goToPage pageIndex s) = s ∨
  (Number.ltb pageIndex 0 = false ∧
   Number.geb pageIndex (Z.of_nat (length (pages s))) = false ∧
   config (snd (goToPage pageIndex s)) = config s ∧
   length (pages (snd (goToPage pageIndex s))) = length (pages s) ∧
   currentPage (snd (goToPage pageIndex s)) = pageIndex ∧
   isAnimating (snd (goToPage pageIndex s)) = isAnimating s ∧
   timelines (snd (goToPage pageIndex s)) = timelines s ∧
   textures (snd (goToPage pageIndex s)) = textures s).
Proof.
  unfold goToPage. case_match eqn:Htest; [by left|].
  apply orb_false_elim in Htest as [Htest _]. apply orb_false_elim in Htest as [H1 H2].
  destruct (element (pages s) (currentPage s)); [|by left]. right.
  split; [done|]. split; [done|]. simpl.
  destruct (set_visible_pages_eq (place (currentPage s)) false s) as (ps1 & -> & Hp1).
  simpl. destruct (element ps1 pageIndex); simpl; [|done].
  match goal with |- context [set_visible ?i true ?x] =>
    destruct (set_visible_pages_eq i true x) as (ps2 & -> & Hp2) end.
  simpl in *.
  match goal with |- context [set_rotation ?i ?r ?x] =>
    destruct (set_rotation_pages_eq i r x) as (ps3 & -> & Hp3) end.
  simpl in *. repeat split; congruence.
Qed.

Lemma handle_anim_inv s e : anim_inv s → anim_inv (handle e s).
Proof.
  intros Hinv. destruct e; simpl.
  - by apply nextPage_anim_inv.
  - by apply prevPage_anim_inv.
  - destruct (goToPage_fields pageIndex s)
      as [->|(_ & _ & _ & Hlen & Hcur & Hfl & Htl & _)]; [done|].
    unfold anim_inv in *. by rewrite Htl, Hfl.
  - destruct (timelines s) as [|tl rest] eqn:Htm; [exact Hinv|].
    assert (rest = []) as ->.
    { unfold anim_inv in Hinv. rewrite Htm in Hinv. by destruct rest. }
    destruct (onComplete_fields tl (set_timelines [] s)) as (_ & Hlen & Hcur & Hfl & Htl).
    unfold anim_inv. by rewrite Htl.
  - repeat case_match; try exact Hinv.
    eapply anim_inv_same_anim; [apply loader_onLoad_anim|exact Hinv].
  - repeat case_match; try exact Hinv.
    eapply anim_inv_same_anim; [apply loader_onError_anim|exact Hinv].
Qed.

Lemma step_anim_inv s e : anim_inv s → anim_inv (step s e).
Proof.
  intros. unfold step. eapply anim_inv_same_anim; [apply runJobs_anim|].
  by apply handle_anim_inv.
Qed.

Lemma run_snoc_webgl s trace e : run s (trace ++ [e]) = step (run s trace) e.
Proof. unfold run. by rewrite fold_left_app. Qed.

Lemma run_anim_inv s trace : anim_inv s → anim_inv (run s trace).
Proof.
  induction trace as [|e trace IH] using rev_ind; [done|].
  intros H. rewrite run_snoc_webgl. apply step_anim_inv; auto.
Qed.

Lemma constructor_anim_inv config : anim_inv (constructor config).
Proof.
  unfold constructor.
  match goal with |- context [runJobs ?x] =>
    apply (anim_inv_same_anim x); [apply runJobs_anim|] end.
  unfold loadTextures, anim_inv. simpl. by destruct (forallb _ _).
Qed.

Lemma fold_resume_jobs_webgl js s : jobs (fold_left loadTextures_resume js s) = jobs s.
Proof.
  revert s. induction js as [|j js IH]; intros s; simpl; [done|].
  rewrite IH. by destruct j.
Qed.

Lemma runJobs_jobs_webgl s : jobs (runJobs s) = [].
Proof. unfold runJobs. by rewrite fold_resume_jobs_webgl. Qed.

Lemma run_jobs_webgl config trace : jobs (run (constructor config) trace) = [].
Proof.
  induction trace as [|e trace IH] using rev_ind; [apply runJobs_jobs_webgl|].
  rewrite run_snoc_webgl. apply runJobs_jobs_webgl.
Qed.

End WebGLNavigation.

(** * The scene-graph engine: what a flip calls *)

Lemma webgl_runJobs_no_jobs s : WebGLEngine.jobs s = [] → WebGLEngine.runJobs s = s.
Proof. unfold WebGLEngine.runJobs. intros H. destruct s. simpl in *. by subst. Qed.

Lemma webgl_nextPage_jobs s :
  WebGLEngine.jobs (snd (WebGLEngine.nextPage s)) = WebGLEngine.jobs s.
Proof.
  unfold WebGLEngine.nextPage. repeat case_match; simpl; try done.
  all: match goal with |- context [WebGLEngine.set_visible ?i ?v ?x] =>
    destruct (set_visible_pages_eq i v x) as (ps & -> & _) end; done.
Qed.

Lemma webgl_nextPage_started s :
  snd (WebGLEngine.nextPage s) = s ∨
  WebGLEngine.isAnimating (snd (WebGLEngine.nextPage s)) = true.
Proof.
  unfold WebGLEngine.nextPage. repeat case_match; simpl; auto.
  all: right; match goal with |- context [WebGLEngine.set_visible ?i ?v ?x] =>
    destruct (set_visible_pages_eq i v x) as (ps & -> & _) end; done.
Qed.

Lemma webgl_nextPage_twice s :
  snd (WebGLEngine.nextPage (snd (WebGLEngine.nextPage s))) = snd (WebGLEngine.nextPage s).
Proof.
  destruct (webgl_nextPage_started s) as [Heq|H]; [by rewrite !Heq|].
  unfold WebGLEngine.nextPage at 1. by rewrite H.
Qed.


Lemma onComplete_jobs tl s :
  WebGLEngine.jobs (WebGLEngine.onComplete tl s) = WebGLEngine.jobs s.
Proof.
  unfold WebGLEngine.onComplete.
  destruct (WebGLEngine.tl_direction tl).
  - destruct (set_rotation_pages_eq (WebGLEngine.tl_rotating tl) WebGLEngine.rot_minus_pi s)
      as (ps & -> & Hps).
    destruct (WebGLEngine.tl_currentPageMesh tl) as [i|]; simpl; [|done].
    match goal with |- context [WebGLEngine.set_visible i false ?x] =>
      destruct (set_visible_pages_eq i false x) as (ps' & -> & Hps') end. done.
  - destruct (set_rotation_pages_eq (WebGLEngine.tl_rotating tl) WebGLEngine.rot_0 s)
      as (ps & -> & Hps).
    destruct (WebGLEngine.tl_currentPageMesh tl) as [i|]; simpl; [|done].
    match goal with |- context [WebGLEngine.set_visible i false ?x] =>
      destruct (set_visible_pages_eq i false x) as (ps' & -> & Hps') end. done.
Qed.

(** * The layered engine: the shape of one task *)

Section CSSShape.
Import CSSEngine.

Lemma noop_eq s s' e : s' = s → step_shape s e s'.
Proof. intros ->. constructor. Qed.

Lemma step_has_shape s e : jobs s = [] → step_shape s e (step s e).
Proof.
  intros Hjobs. unfold step. destruct e as [| |idx| |i|i]; simpl.
  - (* nextPage *)
    rewrite nextPage_eq. case_match eqn:Htest.
    + apply noop_eq. by apply runJobs_no_jobs.
    + apply orb_false_elim in Htest as [Hfl Htest].
      rewrite runJobs_no_jobs by done. simpl.
      by apply (shape_flip s _ forward).
  - rewrite prevPage_eq. case_match eqn:Htest.
    + apply noop_eq. by apply runJobs_no_jobs.
    + apply orb_false_elim in Htest as [Hfl Htest].
      rewrite runJobs_no_jobs by done. simpl.
      by apply (shape_flip s _ back).
  - unfold goToPage. case_match eqn:Htest; simpl.
    + apply noop_eq. by apply runJobs_no_jobs.
    + match goal with |- context [renderCurrentSpread ?x] =>
        destruct (renderCurrentSpread_dom x) as [d ->] end.
      rewrite runJobs_no_jobs by done. simpl.
      by apply shape_jump.
  - destruct (timers s) as [|[delay direction] rest] eqn:Htm.
    + apply noop_eq. by apply runJobs_no_jobs.
    + unfold flipTimeout.
      match goal with |- context [renderCurrentSpread ?x] =>
        destruct (renderCurrentSpread_dom x) as [d Hd] end.
      rewrite Hd. rewrite runJobs_no_jobs by (by destruct direction).
      pose proof (shape_timer s delay direction rest
        (mkDom (pageLeft d) (pageRight d) (tail (flippingContainers d))
               (pageIndicator d) (attached d)) Htm) as Hshape.
      destruct direction; exact Hshape.
  - destruct (images_of (config s) !! i) as [src|] eqn:Hsrc;
      [|apply noop_eq; by apply runJobs_no_jobs].
    destruct (loadPromises s !! i) as [[|[]|m]|] eqn:Hp;
      try (apply noop_eq; by apply runJobs_no_jobs).
    unfold loadImage_onload, resolve. simpl. rewrite Hp. simpl.
    destruct (allLoaded s) eqn:Hall.
    + simpl.
      destruct (forallb is_fulfilled (<[i:=Fulfilled ()]> (loadPromises s))) eqn:Hf.
      * unfold runJobs. simpl. rewrite Hjobs. simpl.
        match goal with |- context [renderCurrentSpread ?x] =>
          destruct (renderCurrentSpread_dom x) as [d ->] end.
        pose proof (shape_load_last s i src d Hsrc Hp Hall Hf) as Hshape.
        destruct s; simpl in *. subst. exact Hshape.
      * rewrite runJobs_no_jobs by done. apply (shape_load s i src); auto.
    + rewrite runJobs_no_jobs by done.
      apply (shape_load s i src); auto. left. by rewrite Hall.
    + rewrite runJobs_no_jobs by done.
      apply (shape_load s i src); auto. left. by rewrite Hall.
  - destruct (images_of (config s) !! i) as [src|] eqn:Hsrc;
      [|apply noop_eq; by apply runJobs_no_jobs].
    destruct (loadPromises s !! i) as [[|[]|m]|] eqn:Hp;
      try (apply noop_eq; by apply runJobs_no_jobs).
    unfold loadImage_onerror, reject. simpl. rewrite Hp. simpl.
    destruct (allLoaded s) eqn:Hall; simpl.
    + unfold runJobs. simpl. rewrite Hjobs. simpl.
      pose proof (shape_error_first s i src Hsrc Hp Hall) as Hshape.
      destruct s; simpl in *. subst. exact Hshape.
    + rewrite runJobs_no_jobs by done.
      apply (shape_error_later s i src); auto. by rewrite Hall.
    + rewrite runJobs_no_jobs by done.
      apply (shape_error_later s i src); auto. by rewrite Hall.
Qed.

End CSSShape.

(** * The layered engine: loading *)

Lemma lifecycle_app cs cs' : lifecycle (cs ++ cs') = lifecycle cs ++ lifecycle cs'.
Proof. apply List.filter_app. Qed.

Lemma forallb_fulfilled_lookup {V} (ps : list (Promise V)) :
  forallb is_fulfilled ps = true ↔ ∀ i p, ps !! i = Some p → is_fulfilled p = true.
Proof.
  rewrite forallb_forall. split.
  - intros H i p Hi. apply H. apply list_elem_of_In. by eapply list_elem_of_lookup_2.
  - intros H p Hin. apply list_elem_of_In, list_elem_of_lookup in Hin as [i Hi]. eauto.
Qed.

Lemma forallb_fulfilled_false {V} (ps : list (Promise V)) :
  forallb is_fulfilled ps = false → ∃ i p, ps !! i = Some p ∧ is_fulfilled p = false.
Proof.
  induction ps as [|p ps IH]; simpl; [done|].
  destruct (is_fulfilled p) eqn:Hp; simpl.
  - intros (i & q & Hi & Hq)%IH. by exists (S i), q.
  - intros _. by exists 0%nat, p.
Qed.

Section CSSLoading.
Import CSSEngine.

Lemma step_load_inv s e : jobs s = [] → load_inv s → load_inv (step s e).
Proof.
  intros Hjobs [Hlen Hinv]. unfold load_inv.
  destruct (step_has_shape s e Hjobs)
    as [e|e direction Hfl Hdir|idx d Hidx|delay direction rest d Htm
       |i src Hsrc Hp Hmore|i src d Hsrc Hp Hall Hlast
       |i src Hsrc Hp Hall|i src Hsrc Hp Hall]; simpl.
  - done.
  - split; [done|]. rewrite lifecycle_app, app_nil_r. exact Hinv.
  - split; [done|]. rewrite lifecycle_app, app_nil_r. exact Hinv.
  - split; [done|]. rewrite !lifecycle_app, !app_nil_r. exact Hinv.
  - split; [by rewrite length_insert|].
    rewrite lifecycle_app, app_nil_r.
    destruct (allLoaded s) as [|[]|m].
    + destruct Hmore as [|Hmore]; [done|]. destruct Hinv as (_ & Hnr & Hcalls).
      split; [|split; [|done]].
      * apply forallb_fulfilled_false in Hmore as (j & p & Hj & Hpj).
        exists j. destruct (decide (i = j)) as [->|Hij].
        -- rewrite list_lookup_insert_eq in Hj by (by eapply lookup_lt_Some).
           injection Hj as <-. discriminate Hpj.
        -- rewrite list_lookup_insert_ne in Hj by done.
           destruct p as [| |m];
             [by rewrite list_lookup_insert_ne|done|by destruct (Hnr _ _ Hj)].
      * intros j m Hj. destruct (decide (i = j)) as [->|Hij].
        -- rewrite list_lookup_insert_eq in Hj by (by eapply lookup_lt_Some). done.
        -- rewrite list_lookup_insert_ne in Hj by done. by destruct (Hnr _ _ Hj).
    + destruct Hinv as [Hall Hcalls]. split; [|done].
      intros j p Hj. destruct (decide (i = j)) as [->|Hij].
      * rewrite list_lookup_insert_eq in Hj by (by eapply lookup_lt_Some).
        by injection Hj as <-.
      * rewrite list_lookup_insert_ne in Hj by done. eauto.
    + destruct Hinv as [[j Hj] Hcalls]. split; [|done].
      exists j. rewrite list_lookup_insert_ne; [done|]. intros ->. congruence.
  - split; [by rewrite length_insert|].
    rewrite Hall in Hinv. destruct Hinv as (_ & _ & Hcalls).
    split; [by apply forallb_fulfilled_lookup|].
    rewrite !lifecycle_app, Hcalls. done.
  - split; [by rewrite length_insert|].
    rewrite Hall in Hinv. destruct Hinv as (_ & _ & Hcalls).
    split.
    + exists i. apply list_lookup_insert_eq. by eapply lookup_lt_Some.
    + rewrite lifecycle_app, Hcalls. done.
  - split; [by rewrite length_insert|].
    destruct (allLoaded s) as [|[]|m]; [done| |].
    + destruct Hinv as [Hf _]. by apply Hf in Hp.
    + destruct Hinv as [[j Hj] Hcalls]. split; [|done].
      exists j. rewrite list_lookup_insert_ne; [done|]. intros ->. congruence.
Qed.

Lemma pending_not_fulfilled (images : list string) :
  forallb is_fulfilled (map (λ _ : string, @Pending unit) images) = true ↔ images = [].
Proof. destruct images; simpl; split; done. Qed.

Lemma constructor_load_inv config : load_inv (constructor config).
Proof.
  unfold constructor, loadImages. simpl.
  destruct (forallb is_fulfilled (map (λ _ : string, Pending) (images_of config))) eqn:Hf.
  - unfold runJobs. simpl.
    match goal with |- context [renderCurrentSpread ?x] =>
      destruct (renderCurrentSpread_dom x) as [d ->] end.
    unfold load_inv. simpl. split; [by rewrite length_map|].
    split; [|done]. by apply forallb_fulfilled_lookup.
  - unfold runJobs. simpl. unfold load_inv. simpl. split; [by rewrite length_map|].
    split; [|split; [|done]].
    + destruct (images_of config) as [|a l]; [done|]. by exists 0%nat.
    + intros i m Hi. apply list_lookup_fmap_Some in Hi as (? & ? & ?). done.
Qed.

Lemma constructor_css_inv config : css_inv (constructor config).
Proof.
  split; [apply constructor_jobs|].
  split; [apply constructor_flip_inv|apply constructor_load_inv].
Qed.

Lemma step_css_inv s e : css_inv s → css_inv (step s e).
Proof.
  intros (Hj & Hf & Hl). split; [apply step_jobs|].
  split; [by apply step_flip_inv|by apply step_load_inv].
Qed.

Lemma run_css_inv s trace : css_inv s → css_inv (run s trace).
Proof.
  induction trace as [|e trace IH] using rev_ind; [done|].
  intros H. rewrite run_snoc. apply step_css_inv; auto.
Qed.

(** A promise that is settled stays as it is. *)
Lemma step_settled s e i p :
  jobs s = [] → loadPromises s !! i = Some p → p ≠ Pending →
  loadPromises (step s e) !! i = Some p.
Proof.
  intros Hjobs Hi Hp.
  destruct (step_has_shape s e Hjobs); simpl; try done.
  all: rewrite list_lookup_insert_ne; [done|]; intros ->; congruence.
Qed.

(** A promise only settles on an event of its image. *)
Lemma step_pending s e i :
  jobs s = [] → loadPromises s !! i = Some Pending →
  e ≠ ImageLoad i → e ≠ ImageError i →
  loadPromises (step s e) !! i = Some Pending.
Proof.
  intros Hjobs Hi Hl He.
  destruct (step_has_shape s e Hjobs); simpl; try done.
  all: rewrite list_lookup_insert_ne; [done|]; intros ->; congruence.
Qed.

(** A promise is only rejected by the error event of its image. *)
Lemma step_rejected s e i m :
  jobs s = [] → loadPromises (step s e) !! i = Some (Rejected m) →
  loadPromises s !! i = Some (Rejected m) ∨ e = ImageError i.
Proof.
  intros Hjobs.
  destruct (step_has_shape s e Hjobs) as [| | | |j|j|j|j]; simpl; auto.
  all: destruct (decide (j = i)) as [->|Hij]; [|rewrite list_lookup_insert_ne by done; auto].
  all: rewrite list_lookup_insert_eq by (by eapply lookup_lt_Some); auto; done.
Qed.

Lemma runJobs_loadPromises s : loadPromises (runJobs s) = loadPromises s.
Proof.
  unfold runJobs.
  assert (∀ js x, loadPromises (fold_left loadImages_resume js x) = loadPromises x) as H.
  { induction js as [|j js IH]; intros x; simpl; [done|]. rewrite IH.
    destruct j; simpl; [|done]. by destruct (renderCurrentSpread_dom x) as [d ->]. }
  by rewrite H.
Qed.

(** The event of an image settles its promise. *)
Lemma step_settles s e i :
  load_inv s → (i < length (images_of (config s)))%nat →
  e = ImageLoad i ∨ e = ImageError i →
  ∃ p, loadPromises (step s e) !! i = Some p ∧ p ≠ Pending.
Proof.
  intros [Hlen _] Hi He.
  destruct (lookup_lt_is_Some_2 (loadPromises s) i) as [p Hp]; [lia|].
  destruct (lookup_lt_is_Some_2 (images_of (config s)) i) as [src Hsrc]; [lia|].
  assert (Hlt : (i < length (loadPromises s))%nat) by lia.
  unfold step. rewrite runJobs_loadPromises.
  destruct He as [-> | ->]; simpl; rewrite Hsrc, Hp.
  - destruct p as [|[]|m]; [|by eexists..].
    unfold loadImage_onload, resolve. simpl. rewrite Hp. simpl.
    exists (Fulfilled tt). split; [|done].
    repeat case_match; simpl; by apply list_lookup_insert_eq.
  - destruct p as [|[]|m]; [|by eexists..].
    unfold loadImage_onerror, reject. simpl. rewrite Hp. simpl.
    eexists. split; [|shelve].
    repeat case_match; simpl; by apply list_lookup_insert_eq.
    Unshelve. done.
Qed.

Lemma run_cons s e trace : run s (e :: trace) = run (step s e) trace.
Proof. done. Qed.

Lemma run_app s tr1 tr2 : run s (tr1 ++ tr2) = run (run s tr1) tr2.
Proof. unfold run. apply fold_left_app. Qed.

(** Without an error event no promise is rejected. *)
Lemma run_no_error_no_rejected s trace i m :
  css_inv s → (∀ j m', loadPromises s !! j ≠ Some (Rejected m')) →
  (∀ j, ImageError j ∉ trace) →
  loadPromises (run s trace) !! i ≠ Some (Rejected m).
Proof.
  intros Hinv Hs. revert i m.
  induction trace as [|e trace IH] using rev_ind; intros i m Hno; [apply Hs|].
  rewrite run_snoc. intros Hr.
  apply step_rejected in Hr as [Hr| ->].
  - revert Hr. apply IH. intros j Hj. apply (Hno j). set_solver.
  - apply (Hno i). set_solver.
  - by apply run_css_inv.
Qed.

(** Without an event of its image a promise stays pending. *)
Lemma run_untouched_pending s trace i :
  css_inv s → loadPromises s !! i = Some Pending →
  ImageLoad i ∉ trace → ImageError i ∉ trace →
  loadPromises (run s trace) !! i = Some Pending.
Proof.
  intros Hinv Hs.
  induction trace as [|e trace IH] using rev_ind; intros Hl He; [done|].
  rewrite run_snoc. apply step_pending.
  - by apply run_css_inv.
  - apply IH; set_solver.
  - intros ->. set_solver.
  - intros ->. set_solver.
Qed.

(** After an event of its image a promise is settled. *)
Lemma run_touched_settled s trace i :
  css_inv s → (i < length (images_of (config s)))%nat →
  ImageLoad i ∈ trace ∨ ImageError i ∈ trace →
  ∃ p, loadPromises (run s trace) !! i = Some p ∧ p ≠ Pending.
Proof.
  intros Hinv Hi.
  induction trace as [|e trace IH] using rev_ind;
    [by intros [?%elem_of_nil|?%elem_of_nil]|intros Hin].
  rewrite run_snoc.
  assert (Hrun : css_inv (run s trace)) by (by apply run_css_inv).
  destruct (decide (e = ImageLoad i ∨ e = ImageError i)) as [He|He].
  - apply step_settles; [apply Hrun| |done].
    by destruct (run_book s trace) as [-> _].
  - destruct IH as (p & Hp & Hne).
    { destruct Hin as [Hin|Hin]; apply elem_of_app in Hin as [Hin|Hin]; auto;
        apply list_elem_of_singleton in Hin; subst; tauto. }
    exists p. split; [|done]. apply step_settled; [apply Hrun|done|done].
Qed.

Lemma runJobs_allLoaded s : allLoaded (runJobs s) = allLoaded s.
Proof.
  unfold runJobs.
  assert (∀ js x, allLoaded (fold_left loadImages_resume js x) = allLoaded x) as H.
  { induction js as [|j js IH]; intros x; simpl; [done|]. rewrite IH.
    destruct j; simpl; [|done]. by destruct (renderCurrentSpread_dom x) as [d ->]. }
  by rewrite H.
Qed.

Lemma constructor_loadPromises config :
  loadPromises (constructor config) = map (λ _, Pending) (images_of config).
Proof.
  unfold constructor. rewrite runJobs_loadPromises. unfold loadImages. simpl.
  by destruct (forallb _ _).
Qed.

(** Once the aggregate has rejected it stays rejected. *)
Lemma run_rejected_stable s trace m :
  css_inv s → allLoaded s = Rejected m → allLoaded (run s trace) = Rejected m.
Proof.
  intros Hinv Hs.
  induction trace as [|e trace IH] using rev_ind; [done|].
  rewrite run_snoc.
  assert (Hrun : css_inv (run s trace)) by (by apply run_css_inv).
  destruct Hrun as (Hjobs & _ & _).
  destruct (step_has_shape (run s trace) e Hjobs); simpl; congruence.
Qed.

(** The first image that fails rejects the aggregate: [onError] is called
    with its error, once, and neither [onLoadComplete] nor [onReady] is. *)
Lemma css_first_failure config pre i src post :
  images_of config !! i = Some src →
  (∀ j, ImageError j ∉ pre) → ImageLoad i ∉ pre →
  let s := run (constructor config) (pre ++ ImageError i :: post) in
  allLoaded s = Rejected ("Failed to load image: " ++ src)%string
  ∧ lifecycle (calls s) = [onError ("Failed to load image: " ++ src)%string].
Proof.
  intros Hsrc Hnoerr Hnoload. cbv zeta.
  rewrite run_app, run_cons.
  set (s1 := run (constructor config) pre).
  assert (Hinv1 : css_inv s1) by apply run_css_inv, constructor_css_inv.
  assert (Hcfg : CSSEngine.config s1 = config).
  { unfold s1. destruct (run_book (constructor config) pre) as [-> _].
    apply constructor_book. }
  assert (Hnorej : ∀ j m, loadPromises s1 !! j ≠ Some (Rejected m)).
  { intros j m. apply run_no_error_no_rejected; [apply constructor_css_inv| |done].
    intros k m'. rewrite constructor_loadPromises.
    intros (? & ? & ?)%list_lookup_fmap_Some. done. }
  assert (Hp : loadPromises s1 !! i = Some Pending).
  { apply run_untouched_pending; [apply constructor_css_inv| |done|apply Hnoerr].
    rewrite constructor_loadPromises, list_lookup_fmap, Hsrc. done. }
  assert (Hall : allLoaded s1 = Pending).
  { destruct Hinv1 as (_ & _ & _ & Hl). destruct (allLoaded s1) as [|[]|m]; [done| |].
    - destruct Hl as [Hf _]. by apply Hf in Hp.
    - destruct Hl as [[j Hj] _]. by destruct (Hnorej _ _ Hj). }
  assert (Hstep : allLoaded (step s1 (ImageError i)) =
                  Rejected ("Failed to load image: " ++ src)%string).
  { unfold step. rewrite runJobs_allLoaded. simpl. rewrite Hcfg, Hsrc, Hp.
    unfold loadImage_onerror, reject. rewrite Hp. simpl. rewrite Hall. reflexivity. }
  assert (Hinv2 : css_inv (step s1 (ImageError i))) by (by apply step_css_inv).
  pose proof (run_rejected_stable _ post _ Hinv2 Hstep) as Hfinal.
  split; [done|].
  pose proof (run_css_inv _ post Hinv2) as (_ & _ & _ & Hl).
  rewrite Hfinal in Hl. apply Hl.
Qed.

(** When every image loads and none fails, loading completes:
    [onLoadComplete] and [onReady] are called, once each, and [onError] is
    not. *)
Lemma css_all_loaded config trace :
  (∀ i, (i < length (images_of config))%nat → ImageLoad i ∈ trace) →
  (∀ j, ImageError j ∉ trace) →
  let s := run (constructor config) trace in
  allLoaded s = Fulfilled tt ∧ lifecycle (calls s) = [onLoadComplete; onReady].
Proof.
  intros Hall Hnoerr. cbv zeta.
  pose proof (run_css_inv _ trace (constructor_css_inv config)) as (_ & _ & Hlen & Hl).
  assert (Hcfg : CSSEngine.config (run (constructor config) trace) = config).
  { destruct (run_book (constructor config) trace) as [-> _]. apply constructor_book. }
  rewrite Hcfg in Hlen.
  destruct (allLoaded (run (constructor config) trace)) as [|[]|m];
    [|by destruct Hl|].
  - destruct Hl as [[i Hi] _]. exfalso.
    assert (Hlt : (i < length (images_of config))%nat).
    { rewrite <- Hlen. by eapply lookup_lt_Some. }
    destruct (run_touched_settled (constructor config) trace i) as (p & Hp & Hne).
    + apply constructor_css_inv.
    + by destruct (constructor_book config) as [-> _].
    + left. by apply Hall.
    + congruence.
  - destruct Hl as [[j Hj] _]. exfalso. revert Hj.
    apply run_no_error_no_rejected; [apply constructor_css_inv| |done].
    intros k m'. rewrite constructor_loadPromises.
    intros (? & ? & ?)%list_lookup_fmap_Some. done.
Qed.

End CSSLoading.

(** * The scene-graph engine: loading *)

Ltac norm_pages :=
  repeat match goal with
  | |- context [WebGLEngine.set_visible ?i ?v ?x] =>
      let ps := fresh "ps" in
      destruct (set_visible_pages_eq i v x) as (ps & -> & _)
  | |- context [WebGLEngine.set_rotation ?i ?r ?x] =>
      let ps := fresh "ps" in
      destruct (set_rotation_pages_eq i r x) as (ps & -> & _)
  end.

Section WebGLLoading.
Import WebGLEngine.

Lemma quiet_refl s : quiet s s.
Proof. repeat split. exists []. by rewrite app_nil_r. Qed.

Lemma nextPage_quiet s : quiet s (snd (nextPage s)).
Proof.
  unfold nextPage. repeat case_match; simpl; try apply quiet_refl.
  all: norm_pages; unfold quiet; simpl; repeat split; by eexists [_].
Qed.

Lemma prevPage_quiet s : quiet s (snd (prevPage s)).
Proof.
  unfold prevPage. repeat case_match; simpl; try apply quiet_refl.
  all: norm_pages; unfold quiet; simpl; repeat split; by eexists [_].
Qed.

Lemma goToPage_quiet pageIndex s : quiet s (snd (goToPage pageIndex s)).
Proof.
  unfold goToPage. repeat case_match; simpl; try apply quiet_refl.
  all: norm_pages; unfold quiet; simpl; repeat split;
    first [by eexists [_] | exists []; by rewrite app_nil_r].
Qed.

Lemma onComplete_quiet tl rest s : quiet s (onComplete tl (set_timelines rest s)).
Proof.
  unfold onComplete. repeat case_match; simpl.
  all: norm_pages; unfold quiet; simpl; repeat split; eexists [_; _];
    by rewrite <- app_assoc.
Qed.

Lemma reject_shape s e i imagePath :
  jobs s = [] → target e = Some i → is_failure e = true →
  images_of (config s) !! i = Some imagePath →
  loadPromises s !! i = Some Pending →
  load_shape s e (runJobs (reject i (failure_message imagePath e) s)).
Proof.
  intros Hjobs Ht Hf Hsrc Hp. unfold reject. rewrite Hp. simpl.
  destruct (allLoaded s) eqn:Hall.
  - unfold runJobs. simpl. rewrite Hjobs. simpl.
    eapply lshape_failed; try done. left. by rewrite Hall.
  - rewrite webgl_runJobs_no_jobs by done.
    eapply lshape_failed; try done. right. by rewrite Hall.
  - rewrite webgl_runJobs_no_jobs by done.
    eapply lshape_failed; try done. right. by rewrite Hall.
Qed.

Lemma step_load_shape s e : jobs s = [] → load_shape s e (step s e).
Proof.
  intros Hjobs. unfold step.
  assert (Hq : ∀ x, quiet s x → load_shape s e (runJobs x)).
  { intros x Hx. apply lshape_quiet. rewrite webgl_runJobs_no_jobs; [done|].
    destruct Hx as (_ & _ & _ & -> & _). done. }
  destruct e as [| |idx| |i image|i message]; simpl.
  - apply Hq, nextPage_quiet.
  - apply Hq, prevPage_quiet.
  - apply Hq, goToPage_quiet.
  - destruct (timelines s) as [|tl rest]; apply Hq; [apply quiet_refl|apply onComplete_quiet].
  - destruct (images_of (config s) !! i) as [imagePath|] eqn:Hsrc; [|apply Hq, quiet_refl].
    destruct (loadPromises s !! i) as [[|v|m]|] eqn:Hp; try apply Hq, quiet_refl.
    unfold loader_onLoad.
    destruct image as [[width height]|];
      [|by apply (reject_shape s (TextureLoad i None) i imagePath)].
    destruct ((width =? 0) || (height =? 0)) eqn:Hdim;
      [by apply (reject_shape s (TextureLoad i (Some (width, height))) i imagePath)|].
    assert (Hnf : is_failure (TextureLoad i (Some (width, height))) = false) by done.
    unfold resolve. rewrite Hp. simpl.
    destruct (allLoaded s) eqn:Hall.
    + destruct (forallb is_fulfilled (<[i:=Fulfilled _]> (loadPromises s))) eqn:Hf.
      * unfold runJobs. simpl. rewrite Hjobs. simpl.
        eapply (lshape_loaded s (TextureLoad i (Some (width, height))) _ i _ [_; _; _] eq_refl Hnf Hp); simpl;
          [done|done|by rewrite <- !app_assoc|done|].
        right. by rewrite Hall.
      * rewrite webgl_runJobs_no_jobs by done.
        eapply (lshape_loaded s (TextureLoad i (Some (width, height))) _ i _ [_] eq_refl Hnf Hp); simpl; [done..|].
        left. rewrite Hall. auto.
    + rewrite webgl_runJobs_no_jobs by done.
      eapply (lshape_loaded s (TextureLoad i (Some (width, height))) _ i _ [_] eq_refl Hnf Hp);
        simpl; [done..|].
      left. rewrite Hall. auto.
    + rewrite webgl_runJobs_no_jobs by done.
      eapply (lshape_loaded s (TextureLoad i (Some (width, height))) _ i _ [_] eq_refl Hnf Hp);
        simpl; [done..|].
      left. rewrite Hall. auto.
  - destruct (images_of (config s) !! i) as [imagePath|] eqn:Hsrc; [|apply Hq, quiet_refl].
    destruct (loadPromises s !! i) as [[|v|m]|] eqn:Hp; try apply Hq, quiet_refl.
    unfold loader_onError.
    pose proof (reject_shape s (TextureError i message) i imagePath Hjobs eq_refl eq_refl Hsrc Hp)
      as Hshape.
    by destruct message.
Qed.

Lemma step_wload_inv s e : jobs s = [] → wload_inv s → wload_inv (step s e).
Proof.
  intros Hjobs [Hlen Hinv]. unfold wload_inv.
  destruct (step_load_shape s e Hjobs)
    as [(-> & -> & -> & _ & delta & -> & Hd)
       |i v delta _ _ Hp -> -> -> _ Hagg
       |i imagePath _ _ _ Hp -> -> _ Hagg].
  - split; [done|]. rewrite lifecycle_app, Hd, app_nil_r. exact Hinv.
  - split; [by rewrite length_insert|].
    rewrite lifecycle_app.
    destruct Hagg as [(-> & -> & Hmore)|(Hall & Hf & -> & ->)].
    + rewrite app_nil_r. destruct (allLoaded s) as [|vs|m].
      * destruct Hmore as [|Hmore]; [done|]. destruct Hinv as (_ & Hnr & Hcalls).
        split; [|split; [|done]].
        -- apply forallb_fulfilled_false in Hmore as (j & p & Hj & Hpj).
           exists j. destruct (decide (i = j)) as [->|Hij].
           ++ rewrite list_lookup_insert_eq in Hj by (by eapply lookup_lt_Some).
              injection Hj as <-. discriminate Hpj.
           ++ rewrite list_lookup_insert_ne in Hj by done.
              destruct p as [| |m];
                [by rewrite list_lookup_insert_ne|done|by destruct (Hnr _ _ Hj)].
        -- intros j m Hj. destruct (decide (i = j)) as [->|Hij].
           ++ rewrite list_lookup_insert_eq in Hj by (by eapply lookup_lt_Some). done.
           ++ rewrite list_lookup_insert_ne in Hj by done. by destruct (Hnr _ _ Hj).
      * destruct Hinv as [Hall Hcalls]. split; [|done].
        intros j p Hj. destruct (decide (i = j)) as [->|Hij].
        -- rewrite list_lookup_insert_eq in Hj by (by eapply lookup_lt_Some).
           by injection Hj as <-.
        -- rewrite list_lookup_insert_ne in Hj by done. eauto.
      * destruct Hinv as [[j Hj] Hcalls]. split; [|done].
        exists j. rewrite list_lookup_insert_ne; [done|]. intros ->. congruence.
    + rewrite Hall in Hinv. destruct Hinv as (_ & _ & ->).
      split; [by apply forallb_fulfilled_lookup|done].
  - split; [by rewrite length_insert|].
    destruct Hagg as [(Hall & -> & ->)|(Hall & -> & ->)].
    + rewrite Hall in Hinv. destruct Hinv as (_ & _ & Hcalls). split.
      * exists i. apply list_lookup_insert_eq. by eapply lookup_lt_Some.
      * by rewrite lifecycle_app, Hcalls.
    + destruct (allLoaded s) as [|vs|m]; [done| |].
      * destruct Hinv as [Hf _]. by apply Hf in Hp.
      * destruct Hinv as [[j Hj] Hcalls]. split; [|done].
        exists j. rewrite list_lookup_insert_ne; [done|]. intros ->. congruence.
Qed.

Lemma wpending_not_fulfilled (images : list string) :
  forallb is_fulfilled (map (λ _ : string, @Pending PageTexture) images) = true ↔ images = [].
Proof. destruct images; simpl; split; done. Qed.

Lemma constructor_wload_inv config : wload_inv (constructor config).
Proof.
  unfold constructor, loadTextures. simpl.
  destruct (forallb is_fulfilled (map (λ _ : string, Pending) (images_of config))) eqn:Hf.
  - unfold runJobs, wload_inv. simpl. split; [by rewrite length_map|].
    split; [|done]. by apply forallb_fulfilled_lookup.
  - unfold runJobs, wload_inv. simpl. split; [by rewrite length_map|].
    split; [|split; [|done]].
    + destruct (images_of config) as [|a l]; [done|]. by exists 0%nat.
    + intros i m Hi. apply list_lookup_fmap_Some in Hi as (? & ? & ?). done.
Qed.

Lemma constructor_webgl_inv config : webgl_inv (constructor config).
Proof.
  split; [apply runJobs_jobs_webgl|].
  split; [apply constructor_anim_inv|apply constructor_wload_inv].
Qed.

Lemma step_webgl_inv s e : webgl_inv s → webgl_inv (step s e).
Proof.
  intros (Hj & Hf & Hl). split; [apply runJobs_jobs_webgl|].
  split; [by apply step_anim_inv|by apply step_wload_inv].
Qed.

Lemma run_webgl_inv s trace : webgl_inv s → webgl_inv (run s trace).
Proof.
  induction trace as [|e trace IH] using rev_ind; [done|].
  intros H. rewrite run_snoc_webgl. apply step_webgl_inv; auto.
Qed.

Lemma step_config_webgl s e : jobs s = [] → config (step s e) = config s.
Proof.
  intros Hjobs. by destruct (step_load_shape s e Hjobs) as [(-> & _)| |].
Qed.

Lemma run_config_webgl config trace : WebGLEngine.config (run (constructor config) trace) = config.
Proof.
  induction trace as [|e trace IH] using rev_ind.
  - unfold run, constructor. simpl.
    match goal with |- context [runJobs ?x] => destruct (runJobs_anim x) as (-> & _) end.
    unfold loadTextures. simpl. by destruct (forallb _ _).
  - rewrite run_snoc_webgl, step_config_webgl; [done|].
    apply run_webgl_inv, constructor_webgl_inv.
Qed.

Lemma wstep_settled s e i p :
  jobs s = [] → loadPromises s !! i = Some p → p ≠ Pending →
  loadPromises (step s e) !! i = Some p.
Proof.
  intros Hjobs Hi Hp.
  destruct (step_load_shape s e Hjobs) as [(_ & -> & _)|j ? ? _ _ Hj _ -> _ _ _|j ? _ _ _ Hj _ -> _ _];
    [done|..].
  all: rewrite list_lookup_insert_ne; [done|]; intros ->; congruence.
Qed.

Lemma wstep_pending s e i :
  jobs s = [] → loadPromises s !! i = Some Pending → target e ≠ Some i →
  loadPromises (step s e) !! i = Some Pending.
Proof.
  intros Hjobs Hi He.
  destruct (step_load_shape s e Hjobs) as [(_ & -> & _)|j ? ? Ht _ Hj _ -> _ _ _|j ? Ht _ _ Hj _ -> _ _];
    [done|..].
  all: rewrite list_lookup_insert_ne; [done|]; intros ->; congruence.
Qed.

Lemma wstep_rejected s e i m :
  jobs s = [] → loadPromises (step s e) !! i = Some (Rejected m) →
  loadPromises s !! i = Some (Rejected m) ∨ is_failure e = true.
Proof.
  intros Hjobs.
  destruct (step_load_shape s e Hjobs) as [(_ & -> & _)|j ? ? Ht Hf Hj _ -> _ _ _|j ? Ht Hf _ Hj _ -> _ _];
    [auto| |auto].
  destruct (decide (j = i)) as [->|Hij]; [|rewrite list_lookup_insert_ne by done; auto].
  rewrite list_lookup_insert_eq by (by eapply lookup_lt_Some); done.
Qed.

Lemma runJobs_loadPromises_webgl s : loadPromises (runJobs s) = loadPromises s.
Proof.
  unfold runJobs.
  assert (∀ js x, loadPromises (fold_left loadTextures_resume js x) = loadPromises x) as H.
  { induction js as [|j js IH]; intros x; simpl; [done|]. rewrite IH. by destruct j. }
  by rewrite H.
Qed.

Lemma runJobs_allLoaded_webgl s : allLoaded (runJobs s) = allLoaded s.
Proof.
  unfold runJobs.
  assert (∀ js x, allLoaded (fold_left loadTextures_resume js x) = allLoaded x) as H.
  { induction js as [|j js IH]; intros x; simpl; [done|]. rewrite IH. by destruct j. }
  by rewrite H.
Qed.

Lemma reject_settles i m s :
  loadPromises s !! i = Some Pending →
  loadPromises (reject i m s) !! i = Some (Rejected m).
Proof.
  intros Hp. unfold reject. rewrite Hp. simpl.
  repeat case_match; simpl; apply list_lookup_insert_eq; by eapply lookup_lt_Some.
Qed.

Lemma wstep_settles s e i :
  wload_inv s → (i < length (images_of (config s)))%nat → target e = Some i →
  ∃ p, loadPromises (step s e) !! i = Some p ∧ p ≠ Pending.
Proof.
  intros [Hlen _] Hi He.
  destruct (lookup_lt_is_Some_2 (loadPromises s) i) as [p Hp]; [lia|].
  destruct (lookup_lt_is_Some_2 (images_of (config s)) i) as [src Hsrc]; [lia|].
  unfold step. rewrite runJobs_loadPromises_webgl.
  destruct e as [| | | |j image|j message]; try done; injection He as ->;
    simpl; rewrite Hsrc, Hp.
  - destruct p as [|v|m]; [|by eexists..].
    unfold loader_onLoad.
    destruct image as [[width height]|]; [|eexists; split; [by apply reject_settles|done]].
    destruct ((width =? 0) || (height =? 0));
      [eexists; split; [by apply reject_settles|done]|].
    simpl. unfold resolve. rewrite Hp. simpl.
    eexists. split; [|shelve].
    repeat case_match; simpl; apply list_lookup_insert_eq; by eapply lookup_lt_Some.
    Unshelve. done.
  - destruct p as [|v|m]; [|by eexists..].
    unfold loader_onError. eexists; split; [by apply reject_settles|done].
Qed.

Lemma run_cons_webgl s e trace : run s (e :: trace) = run (step s e) trace.
Proof. done. Qed.

Lemma run_app_webgl s tr1 tr2 : run s (tr1 ++ tr2) = run (run s tr1) tr2.
Proof. unfold run. apply fold_left_app. Qed.

Lemma wrun_no_failure_no_rejected s trace i m :
  webgl_inv s → (∀ j m', loadPromises s !! j ≠ Some (Rejected m')) →
  (∀ e, e ∈ trace → is_failure e = false) →
  loadPromises (run s trace) !! i ≠ Some (Rejected m).
Proof.
  intros Hinv Hs. revert i m.
  induction trace as [|e trace IH] using rev_ind; intros i m Hno; [apply Hs|].
  rewrite run_snoc_webgl. intros Hr.
  apply wstep_rejected in Hr as [Hr|Hr].
  - revert Hr. apply IH. intros e' He'. apply Hno. set_solver.
  - rewrite Hno in Hr; [done|set_solver].
  - by apply run_webgl_inv.
Qed.

Lemma wrun_untouched_pending s trace i :
  webgl_inv s → loadPromises s !! i = Some Pending →
  (∀ e, e ∈ trace → target e ≠ Some i) →
  loadPromises (run s trace) !! i = Some Pending.
Proof.
  intros Hinv Hs.
  induction trace as [|e trace IH] using rev_ind; intros Hno; [done|].
  rewrite run_snoc_webgl. apply wstep_pending.
  - by apply run_webgl_inv.
  - apply IH. intros e' He'. apply Hno. set_solver.
  - apply Hno. set_solver.
Qed.

Lemma wrun_touched_settled config trace i e :
  (i < length (images_of config))%nat → e ∈ trace → target e = Some i →
  ∃ p, loadPromises (run (constructor config) trace) !! i = Some p ∧ p ≠ Pending.
Proof.
  intros Hi.
  induction trace as [|e' trace IH] using rev_ind; [by intros ?%elem_of_nil|intros Hin Ht].
  rewrite run_snoc_webgl.
  assert (Hrun : webgl_inv (run (constructor config) trace))
    by apply run_webgl_inv, constructor_webgl_inv.
  destruct (decide (target e' = Some i)) as [He|He].
  - apply wstep_settles; [apply Hrun| |done]. by rewrite run_config_webgl.
  - destruct IH as (p & Hp & Hne); [|done|].
    { apply elem_of_app in Hin as [Hin|Hin]; [done|].
      apply list_elem_of_singleton in Hin. by subst. }
    exists p. split; [|done]. apply wstep_settled; [apply Hrun|done|done].
Qed.

Lemma constructor_loadPromises_webgl config :
  loadPromises (constructor config) = map (λ _, Pending) (images_of config).
Proof.
  unfold constructor. rewrite runJobs_loadPromises_webgl. unfold loadTextures. simpl.
  by destruct (forallb _ _).
Qed.

Lemma wrun_rejected_stable s trace m :
  webgl_inv s → allLoaded s = Rejected m → allLoaded (run s trace) = Rejected m.
Proof.
  intros Hinv Hs.
  induction trace as [|e trace IH] using rev_ind; [done|].
  rewrite run_snoc_webgl.
  assert (Hrun : webgl_inv (run s trace)) by (by apply run_webgl_inv).
  destruct Hrun as (Hjobs & _ & _).
  destruct (step_load_shape (run s trace) e Hjobs)
    as [(_ & _ & -> & _)|? ? ? _ _ _ _ _ _ _ Hagg|? ? _ _ _ _ _ _ _ Hagg]; [done|..].
  - destruct Hagg as [(-> & _)|(Hp & _)]; congruence.
  - destruct Hagg as [(Hp & _)|(_ & -> & _)]; congruence.
Qed.

Lemma webgl_first_failure config pre e i imagePath post :
  images_of config !! i = Some imagePath →
  target e = Some i → is_failure e = true →
  (∀ e', e' ∈ pre → is_failure e' = false ∧ target e' ≠ Some i) →
  let s := run (constructor config) (pre ++ e :: post) in
  allLoaded s = Rejected (failure_message imagePath e)
  ∧ lifecycle (calls s) = [onError (failure_message imagePath e)].
Proof.
  intros Hsrc Ht Hfail Hpre. cbv zeta.
  rewrite run_app_webgl, run_cons_webgl.
  set (s1 := run (constructor config) pre).
  assert (Hinv1 : webgl_inv s1) by apply run_webgl_inv, constructor_webgl_inv.
  assert (Hcfg : WebGLEngine.config s1 = config) by apply run_config_webgl.
  assert (Hnorej : ∀ j m, loadPromises s1 !! j ≠ Some (Rejected m)).
  { intros j m. apply wrun_no_failure_no_rejected; [apply constructor_webgl_inv| |apply Hpre].
    intros k m'. rewrite constructor_loadPromises_webgl.
    intros (? & ? & ?)%list_lookup_fmap_Some. done. }
  assert (Hp : loadPromises s1 !! i = Some Pending).
  { apply wrun_untouched_pending; [apply constructor_webgl_inv| |apply Hpre].
    rewrite constructor_loadPromises_webgl, list_lookup_fmap, Hsrc. done. }
  assert (Hall : allLoaded s1 = Pending).
  { destruct Hinv1 as (_ & _ & _ & Hl). destruct (allLoaded s1) as [|vs|m]; [done| |].
    - destruct Hl as [Hf _]. by apply Hf in Hp.
    - destruct Hl as [[j Hj] _]. by destruct (Hnorej _ _ Hj). }
  assert (Hstep : allLoaded (step s1 e) = Rejected (failure_message imagePath e)).
  { destruct Hinv1 as (Hjobs & _).
    destruct (step_load_shape s1 e Hjobs)
      as [(_ & Hlp & _)|j ? ? _ Hnf _ _ _ _ _ _|j path Htj _ Hpath _ _ _ _ Hagg].
    - exfalso. destruct (wstep_settles s1 e i) as (p & Hp' & Hne).
      + apply (run_webgl_inv _ pre (constructor_webgl_inv config)).
      + rewrite Hcfg. by eapply lookup_lt_Some.
      + done.
      + rewrite Hlp in Hp'. congruence.
    - congruence.
    - assert (j = i) as -> by congruence.
      rewrite Hcfg, Hsrc in Hpath. injection Hpath as <-.
      destruct Hagg as [(_ & -> & _)|(? & _)]; [done|congruence]. }
  assert (Hinv2 : webgl_inv (step s1 e)) by (by apply step_webgl_inv).
  pose proof (wrun_rejected_stable _ post _ Hinv2 Hstep) as Hfinal.
  split; [done|].
  pose proof (run_webgl_inv _ post Hinv2) as (_ & _ & _ & Hl).
  rewrite Hfinal in Hl. apply Hl.
Qed.

Lemma webgl_all_loaded config trace :
  (∀ i, (i < length (images_of config))%nat → ∃ e, e ∈ trace ∧ target e = Some i) →
  (∀ e, e ∈ trace → is_failure e = false) →
  let s := run (constructor config) trace in
  is_fulfilled (allLoaded s) = true
  ∧ lifecycle (calls s) = [onLoadComplete; onReady].
Proof.
  intros Hall Hnoerr. cbv zeta.
  pose proof (run_webgl_inv _ trace (constructor_webgl_inv config)) as (_ & _ & Hlen & Hl).
  rewrite run_config_webgl in Hlen.
  destruct (allLoaded (run (constructor config) trace)) as [|vs|m];
    [|by destruct Hl|].
  - destruct Hl as [[i Hi] _]. exfalso.
    assert (Hlt : (i < length (images_of config))%nat).
    { rewrite <- Hlen. by eapply lookup_lt_Some. }
    destruct (Hall i Hlt) as (e & He & Ht).
    destruct (wrun_touched_settled config trace i e Hlt He Ht) as (p & Hp & Hne).
    congruence.
  - destruct Hl as [[j Hj] _]. exfalso. revert Hj.
    apply wrun_no_failure_no_rejected; [apply constructor_webgl_inv| |done].
    intros k m'. rewrite constructor_loadPromises_webgl.
    intros (? & ? & ?)%list_lookup_fmap_Some. done.
Qed.

End WebGLLoading.

(** * The layered engine: what [getCurrentPage] and [onPageChange] report *)

Section CSSPageInfo.
Import CSSEngine.

Lemma step_page_changes s e :
  jobs s = [] →
  Forall (page_change_ok (length (spreads s))) (calls s) →
  Forall (page_change_ok (length (spreads (step s e)))) (calls (step s e)).
Proof.
  intros Hjobs Hinv.
  destruct (step_has_shape s e Hjobs); simpl; try done.
  all: repeat (apply Forall_app; split); try done.
  all: apply Forall_singleton; simpl; try done.
  all: unfold pageInfo_at; simpl; split; [lia|done].
Qed.

Lemma constructor_calls config :
  calls (constructor config) = [] ∨ calls (constructor config) = [onLoadComplete; onReady].
Proof.
  unfold constructor, loadImages. simpl.
  destruct (forallb _ _); unfold runJobs; simpl; [right|by left].
  match goal with |- context [renderCurrentSpread ?x] =>
    destruct (renderCurrentSpread_dom x) as [d ->] end. done.
Qed.

Lemma run_page_changes config trace :
  let s := run (constructor config) trace in
  Forall (page_change_ok (length (spreads s))) (calls s).
Proof.
  cbv zeta. induction trace as [|e trace IH] using rev_ind.
  - unfold run. simpl.
    destruct (constructor_calls config) as [-> | ->]; repeat constructor.
  - rewrite run_snoc. apply step_page_changes; [|done].
    apply run_jobs, constructor_jobs.
Qed.

(** The position only changes when a timer elapses or on a direct jump. *)
Lemma step_position_stable s e :
  jobs s = [] → e ≠ TimerElapsed → (∀ i, e ≠ CallGoToPage i) →
  getCurrentPage (step s e) = getCurrentPage s.
Proof.
  intros Hjobs Ht Hg.
  destruct (step_has_shape s e Hjobs) as [| |idx| | | | |]; simpl; try done.
  by destruct (Hg idx).
Qed.

Lemma run_position_stable s trace :
  jobs s = [] → TimerElapsed ∉ trace → (∀ i, CallGoToPage i ∉ trace) →
  getCurrentPage (run s trace) = getCurrentPage s.
Proof.
  intros Hjobs.
  induction trace as [|e trace IH] using rev_ind; intros Ht Hg; [done|].
  rewrite run_snoc, step_position_stable.
  - apply IH; [set_solver|]. intros i Hi. apply (Hg i). set_solver.
  - by apply run_jobs.
  - intros ->. set_solver.
  - intros i ->. apply (Hg i). set_solver.
Qed.

Lemma progress_reports_app cs cs' :
  progress_reports (cs ++ cs') = progress_reports cs ++ progress_reports cs'.
Proof.
  induction cs as [|c cs IH]; simpl; [done|]. destruct c; simpl; by rewrite ?IH.
Qed.

Lemma step_progress_inv s e : jobs s = [] → progress_inv s → progress_inv (step s e).
Proof.
  intros Hjobs (Hset & Hseq & Htot).
  assert (Hfresh : ∀ i, loadPromises s !! i = Some Pending →
            size ({[i]} ∪ loadedImages s) = S (size (loadedImages s))).
  { intros i Hp. rewrite size_union, size_singleton; [done|].
    apply disjoint_singleton_l. rewrite Hset, Hp. done. }
  assert (Hins : ∀ i (p : Promise unit) j, loadPromises s !! i = Some Pending →
            <[i := p]> (loadPromises s) !! j =
            if decide (i = j) then Some p else loadPromises s !! j).
  { intros i p j Hp. case_decide as Hij.
    - subst. apply list_lookup_insert_eq. by eapply lookup_lt_Some.
    - by apply list_lookup_insert_ne. }
  unfold progress_inv.
  destruct (step_has_shape s e Hjobs)
    as [e|e direction Hfl Hdir|idx d Hidx|delay direction rest d Htm
       |i src Hsrc Hp Hmore|i src d Hsrc Hp Hall Hlast
       |i src Hsrc Hp Hall|i src Hsrc Hp Hall]; simpl.
  - done.
  - rewrite progress_reports_app, app_nil_r. done.
  - rewrite progress_reports_app, app_nil_r. done.
  - rewrite !progress_reports_app, !app_nil_r. done.
  - rewrite progress_reports_app, map_app, Hseq. simpl.
    split; [|split].
    + intros j. rewrite (Hins i _ j Hp), elem_of_union, elem_of_singleton, Hset.
      case_decide; subst; [tauto|]. split; [intros [?|?]; [congruence|done]|tauto].
    + by rewrite (Hfresh i Hp), seq_S, map_app.
    + apply Forall_app. split; [done|]. by apply Forall_singleton.
  - rewrite !progress_reports_app, !app_nil_r, map_app, Hseq. simpl.
    split; [|split].
    + intros j. rewrite (Hins i _ j Hp), elem_of_union, elem_of_singleton, Hset.
      case_decide; subst; [tauto|]. split; [intros [?|?]; [congruence|done]|tauto].
    + by rewrite (Hfresh i Hp), seq_S, map_app.
    + apply Forall_app. split; [done|]. by apply Forall_singleton.
  - rewrite progress_reports_app, app_nil_r. split; [|done].
    intros j. rewrite (Hins i _ j Hp), Hset. case_decide; subst; [|done].
    rewrite Hp. split; done.
  - split; [|done].
    intros j. rewrite (Hins i _ j Hp), Hset. case_decide; subst; [|done].
    rewrite Hp. split; done.
Qed.

Lemma constructor_progress_inv config : progress_inv (constructor config).
Proof.
  unfold progress_inv. rewrite constructor_loadPromises.
  assert (loadedImages (constructor config) = ∅) as ->.
  { unfold constructor, loadImages. simpl.
    destruct (forallb _ _); unfold runJobs; simpl; [|done].
    match goal with |- context [renderCurrentSpread ?x] =>
      destruct (renderCurrentSpread_dom x) as [d ->] end. done. }
  split; [|split].
  - intros i. rewrite list_lookup_fmap. split; [set_solver|].
    by destruct (images_of config !! i).
  - by destruct (constructor_calls config) as [-> | ->].
  - by destruct (constructor_calls config) as [-> | ->].
Qed.

Lemma run_progress_inv config trace : progress_inv (run (constructor config) trace).
Proof.
  induction trace as [|e trace IH] using rev_ind; [apply constructor_progress_inv|].
  rewrite run_snoc. apply step_progress_inv; [|done].
  apply run_jobs, constructor_jobs.
Qed.

End CSSPageInfo.

(** * Example books *)

(** * The layered engine: what is on screen, inputs and disposal *)

Section CSSDisplay.
Import CSSEngine.

(** The images of a spread in reading order are what the two slots show. *)
Lemma slots_shown sp :
  slots sp = option_list (shown_left sp) ++ option_list (shown_right sp).
Proof.
  unfold slots, shown_left, shown_right.
  destruct (isCover sp); [done|]. destruct (isBack sp); [|done].
  by rewrite app_nil_r.
Qed.

Lemma renderCurrentSpread_at s sp :
  element (spreads s) (currentSpread s) = Some sp →
  renderCurrentSpread s =
  set_dom (mkDom (shown_left sp) (shown_right sp) (flippingContainers (dom s))
                 (match pageIndicator (dom s) with
                  | Some _ => Some (Number.add (currentSpread s) 1, Z.of_nat (length (spreads s)))
                  | None => None
                  end)
                 (attached (dom s))) s.
Proof.
  intros Hsp. unfold renderCurrentSpread, updatePageIndicator, shown_left, shown_right.
  rewrite Hsp. destruct s as [c sps cur fl fd li d tm lp al jb cl]; simpl.
  destruct d as [pl pr fc pi att]; simpl.
  destruct (isCover sp), (isBack sp), pi; reflexivity.
Qed.

Lemma renderCurrentSpread_none s :
  element (spreads s) (currentSpread s) = None → renderCurrentSpread s = s.
Proof. intros H. unfold renderCurrentSpread. by rewrite H. Qed.

(** Rendering leaves the flipping pages alone, and after it the slots show
    the spread at the position. *)
Lemma renderCurrentSpread_display s :
  (pageIndicator (dom s) = None ↔ navigation_pageIndicator (config s) = false) →
  let s' := renderCurrentSpread s in
  flippingContainers (dom s') = flippingContainers (dom s)
  ∧ attached (dom s') = attached (dom s)
  ∧ (pageIndicator (dom s') = None ↔ navigation_pageIndicator (config s) = false)
  ∧ ∀ sp, element (spreads s) (currentSpread s) = Some sp →
       pageLeft (dom s') = shown_left sp
       ∧ pageRight (dom s') = shown_right sp
       ∧ (navigation_pageIndicator (config s) = true →
          pageIndicator (dom s') =
          Some (Number.add (currentSpread s) 1, Z.of_nat (length (spreads s)))).
Proof.
  intros Hpi. cbv zeta.
  destruct (element (spreads s) (currentSpread s)) as [sp|] eqn:Hsp.
  - rewrite (renderCurrentSpread_at s sp Hsp). simpl.
    split; [done|]. split; [done|]. split.
    + destruct (pageIndicator (dom s)); [|done]. split; [done|].
      intros Hf. apply Hpi in Hf. done.
    + intros sp' Hsp'. injection Hsp' as <-.
      split; [done|]. split; [done|].
      intros Hflag. destruct (pageIndicator (dom s)) eqn:Hp; [done|].
      destruct Hpi as [Hpi _]. rewrite Hpi in Hflag; done.
  - rewrite (renderCurrentSpread_none s Hsp).
    split; [done|]. split; [done|]. split; [done|].
    intros sp' Hsp'. congruence.
Qed.

Lemma constructor_display config : display_inv (constructor config).
Proof.
  unfold constructor, loadImages. simpl.
  destruct (forallb is_fulfilled (map (λ _ : string, Pending) (images_of config))) eqn:Hf.
  - unfold runJobs. simpl.
    match goal with |- display_inv (call onReady (call onLoadComplete (renderCurrentSpread ?x))) =>
      pose proof (renderCurrentSpread_display x) as Hr;
      pose proof (renderCurrentSpread_dom x) as [d Hd] end.
    simpl in Hr. destruct Hr as (H1 & H2 & H3 & H4).
    { by destruct (navigation_pageIndicator config). }
    rewrite Hd in *. simpl in *. unfold display_inv. simpl.
    rewrite H1, H2. auto.
  - unfold runJobs. simpl. unfold display_inv. simpl.
    split; [done|]. split; [by destruct (navigation_pageIndicator config)|]. done.
Qed.

Lemma step_display s e : jobs s = [] → display_inv s → display_inv (step s e).
Proof.
  intros Hjobs Hinv. pose proof Hinv as (Hfc & Hpi & Hatt & Hshow). unfold step.
  destruct e as [| |idx| |i|i]; simpl.
  - rewrite nextPage_eq. case_match; by rewrite runJobs_no_jobs.
  - rewrite prevPage_eq. case_match; by rewrite runJobs_no_jobs.
  - unfold goToPage. case_match; simpl.
    + rewrite runJobs_no_jobs by done. done.
    + match goal with |- context [renderCurrentSpread ?x] =>
        pose proof (renderCurrentSpread_display x) as Hr;
        pose proof (renderCurrentSpread_dom x) as [d Hd] end.
      simpl in Hr. destruct (Hr Hpi) as (H1 & H2 & H3 & H4).
      rewrite Hd in *. rewrite runJobs_no_jobs by done.
      simpl in *. unfold display_inv. simpl.
      rewrite H1, H2. auto.
  - destruct (timers s) as [|[delay direction] rest] eqn:Htm.
    + rewrite runJobs_no_jobs by done. done.
    + unfold flipTimeout.
      match goal with |- context [renderCurrentSpread ?x] =>
        pose proof (renderCurrentSpread_display x) as Hr;
        pose proof (renderCurrentSpread_dom x) as [d Hd] end.
      rewrite Hd in *. rewrite runJobs_no_jobs by (by destruct direction).
      assert (Hlen : ∀ fc : list (option string),
                length fc = S (length rest) → length (tail fc) = length rest).
      { intros [|? ?]; simpl; congruence. }
      simpl in Hfc.
      destruct direction; simpl in *;
        destruct (Hr Hpi) as (H1 & H2 & H3 & H4);
        unfold display_inv; simpl; rewrite H1, H2; auto.
  - destruct (images_of (config s) !! i) as [src|] eqn:Hsrc;
      [|by rewrite runJobs_no_jobs].
    destruct (loadPromises s !! i) as [[|[]|m]|] eqn:Hp;
      try (by rewrite runJobs_no_jobs).
    unfold loadImage_onload, resolve. simpl. rewrite Hp. simpl.
    destruct (allLoaded s) eqn:Hall.
    + simpl.
      destruct (forallb is_fulfilled (<[i:=Fulfilled ()]> (loadPromises s))) eqn:Hf.
      * unfold runJobs. simpl. rewrite Hjobs. simpl.
        match goal with |- context [renderCurrentSpread ?x] =>
          pose proof (renderCurrentSpread_display x) as Hr;
          pose proof (renderCurrentSpread_dom x) as [d Hd] end.
        rewrite Hd in *. simpl in *. destruct (Hr Hpi) as (H1 & H2 & H3 & H4).
        unfold display_inv; simpl; rewrite H1, H2; auto.
      * rewrite runJobs_no_jobs by done. unfold display_inv. simpl.
        rewrite Hall. auto.
    + rewrite runJobs_no_jobs by done. unfold display_inv. simpl.
      rewrite Hall. auto.
    + rewrite runJobs_no_jobs by done. unfold display_inv. simpl.
      rewrite Hall. auto.
  - destruct (images_of (config s) !! i) as [src|] eqn:Hsrc;
      [|by rewrite runJobs_no_jobs].
    destruct (loadPromises s !! i) as [[|[]|m]|] eqn:Hp;
      try (by rewrite runJobs_no_jobs).
    unfold loadImage_onerror, reject. simpl. rewrite Hp. simpl.
    destruct (allLoaded s) eqn:Hall; simpl.
    + unfold runJobs. simpl. rewrite Hjobs. simpl.
      unfold display_inv. simpl. split_and!; auto; intros ?; done.
    + rewrite runJobs_no_jobs by done. unfold display_inv. simpl.
      rewrite Hall. auto.
    + rewrite runJobs_no_jobs by done. unfold display_inv. simpl.
      rewrite Hall. auto.
Qed.

End CSSDisplay.

(** * The layered engine: keyboard, pointer and touch input *)

Section CSSInputs.
Import CSSEngine.

(** The state after [goToNextSpread] is the state after [nextPage],
    whether the flip it starts throws or not. *)
Lemma goToNextSpread_state s : snd (goToNextSpread s) = snd (nextPage s).
Proof. unfold nextPage. by destruct (goToNextSpread s). Qed.

Lemma goToPrevSpread_state s : snd (goToPrevSpread s) = snd (prevPage s).
Proof. unfold prevPage. by destruct (goToPrevSpread s). Qed.

(** A listener other than the promise callbacks does nothing, or what
    [nextPage] does, or what [prevPage] does. *)
Lemma step_input_cases tr s i :
  snd (step_input (tr, s) i) = runJobs s
  ∨ ∃ e, snd (step_input (tr, s) i) = step s e.
Proof.
  destruct i as [e|key|cx rl rw| | |touches|changed]; simpl.
  - right. by exists e.
  - unfold handleKeyDown. destruct (isFlipping s); [by left|].
    destruct (String.eqb key "ArrowRight");
      [right; exists CallNextPage; by rewrite goToNextSpread_state|].
    destruct (String.eqb key "ArrowLeft");
      [right; exists CallPrevPage; by rewrite goToPrevSpread_state|by left].
  - unfold page_onclick. destruct (isFlipping s); [by left|].
    destruct (Qlt_le_dec _ _); right;
      [exists CallPrevPage; by rewrite goToPrevSpread_state
      |exists CallNextPage; by rewrite goToNextSpread_state].
  - right. exists CallPrevPage. unfold prevBtn_onclick. by rewrite goToPrevSpread_state.
  - right. exists CallNextPage. unfold nextBtn_onclick. by rewrite goToNextSpread_state.
  - by left.
  - unfold touchend. destruct (isFlipping s); [by left|].
    destruct changed as [|[endX endY] [|? ?]]; [by left| |by left].
    cbv zeta. destruct (Qlt_le_dec _ _); [|by left].
    destruct (Qlt_le_dec _ _); [|by left].
    destruct (Qlt_le_dec _ _); right;
      [exists CallPrevPage; by rewrite goToPrevSpread_state
      |exists CallNextPage; by rewrite goToNextSpread_state].
Qed.

(** What every task of the event loop keeps, every input keeps. *)
Lemma run_inputs_invariant (P : t → Prop) :
  (∀ s e, jobs s = [] → P s → P (step s e)) →
  ∀ inputs tr s, jobs s = [] → P s →
    jobs (snd (run_inputs (tr, s) inputs)) = [] ∧ P (snd (run_inputs (tr, s) inputs)).
Proof.
  intros Hstep inputs. unfold run_inputs.
  induction inputs as [|i inputs IH]; intros tr s Hjobs HP; [done|].
  change (fold_left step_input (i :: inputs) (tr, s))
    with (fold_left step_input inputs (step_input (tr, s) i)).
  destruct (step_input (tr, s) i) as [tr' s'] eqn:Hsi.
  assert (Hs' : s' = snd (step_input (tr, s) i)) by (by rewrite Hsi).
  apply IH.
  - destruct (step_input_cases tr s i) as [Hn | [e He]]; rewrite Hs'.
    + rewrite Hn. apply runJobs_jobs.
    + rewrite He. apply step_jobs.
  - destruct (step_input_cases tr s i) as [Hn | [e He]]; rewrite Hs'.
    + rewrite Hn, runJobs_no_jobs by done. done.
    + rewrite He. by apply Hstep.
Qed.

Lemma dispose_fields s :
  config (dispose s) = config s
  ∧ currentSpread (dispose s) = currentSpread s
  ∧ isFlipping (dispose s) = isFlipping s
  ∧ timers (dispose s) = timers s
  ∧ jobs (dispose s) = jobs s
  ∧ calls (dispose s) = calls s
  ∧ spreads (dispose s) = [].
Proof. done. Qed.

Lemma after_inputs_inv cfg inputs :
  let s := after_inputs cfg inputs in
  css_inv s ∧ display_inv s ∧ progress_inv s
  ∧ config s = cfg ∧ spreads s = createSpreads (images_of cfg).
Proof.
  cbv zeta. unfold after_inputs.
  apply (run_inputs_invariant
    (λ s, css_inv s ∧ display_inv s ∧ progress_inv s
          ∧ config s = cfg ∧ spreads s = createSpreads (images_of cfg))).
  - intros s e Hjobs (Hc & Hd & Hp & Hcfg & Hsp).
    destruct (step_book s e) as [-> ->].
    split; [by apply step_css_inv|]. split; [by apply step_display|].
    split; [by apply step_progress_inv|]. done.
  - apply constructor_jobs.
  - destruct (constructor_book cfg) as [Hcfg Hsp].
    split; [apply constructor_css_inv|]. split; [apply constructor_display|].
    split; [apply constructor_progress_inv|]. done.
Qed.

Lemma run_inputs_app st inputs1 inputs2 :
  run_inputs st (inputs1 ++ inputs2) = run_inputs (run_inputs st inputs1) inputs2.
Proof. apply fold_left_app. Qed.


(** The state reached by one more input. *)
Lemma after_inputs_snoc cfg inputs i :
  after_inputs cfg (inputs ++ [i]) =
  snd (step_input (fst (run_inputs (touch_initial, constructor cfg) inputs),
                   after_inputs cfg inputs) i).
Proof.
  unfold after_inputs. rewrite run_inputs_app. simpl.
  by destruct (run_inputs (touch_initial, constructor cfg) inputs).
Qed.

Lemma step_next_flipping s :
  jobs s = [] → isFlipping s = true → step s CallNextPage = s.
Proof.
  intros Hj Hf. unfold step. simpl. rewrite nextPage_eq, Hf. simpl.
  by apply runJobs_no_jobs.
Qed.

Lemma step_prev_flipping s :
  jobs s = [] → isFlipping s = true → step s CallPrevPage = s.
Proof.
  intros Hj Hf. unfold step. simpl. rewrite prevPage_eq, Hf. simpl.
  by apply runJobs_no_jobs.
Qed.


End CSSInputs.

(** * The layered engine: further properties *)

Section CSSBehaviour.
Import CSSEngine.

(** X1: the interior spreads pair consecutive items.  For every media list
    and every [k] with [1 <= k] and [2 * k < length images], spread [k] is a
    regular spread whose left page is item [2 * k - 1] and whose right page is
    item [2 * k] (an empty locator gives an empty page). *)
Theorem interior_spread_pairs_consecutive_items (images : list string) (k : nat) :
  (1 <= k)%nat → (2 * k < length images)%nat →
  ∃ l r, images !! (2 * k - 1)%nat = Some l ∧ images !! (2 * k)%nat = Some r
    ∧ createSpreads images !! k =
      Some (mkSpread (if truthy l then Some l else None)
                     (if truthy r then Some r else None) false false).
Proof.
  intros Hk Hlen.
  destruct (lookup_lt_is_Some_2 images (2 * k - 1)) as [l Hl]; [lia|].
  destruct (lookup_lt_is_Some_2 images (2 * k)) as [r Hr]; [lia|].
  exists l, r. split; [done|]. split; [done|].
  rewrite createSpreads_interior.
  - by rewrite Hl, Hr.
  - done.
  - pose proof (createSpreads_length images ltac:(lia)) as HL.
    unfold ceil_half in HL.
    assert (2 * Z.of_nat k < Z.of_nat (length images)) by lia.
    assert (Z.of_nat k <= (Z.of_nat (length images) - 2 + 1) / 2).
    { apply Z.div_le_lower_bound; lia. }
    lia.
Qed.

(** X1 at a four-page book: the one interior spread shows pages B and C. *)
Lemma interior_spread_pairs_consecutive_items_witness :
  ∃ l r, ["A"; "B"; "C"; "D"] !! 1%nat = Some l ∧ ["A"; "B"; "C"; "D"] !! 2%nat = Some r
    ∧ createSpreads ["A"; "B"; "C"; "D"] !! 1%nat =
      Some (mkSpread (if truthy l then Some l else None)
                     (if truthy r then Some r else None) false false).
Proof.
  apply (interior_spread_pairs_consecutive_items ["A"; "B"; "C"; "D"] 1); simpl; lia.
Defined.

(** X3: the layered engine reports its loading progress by counting.  For
    every configuration and every sequence of inputs and load events, the
    [loaded] fields of the [onLoadProgress] calls made so far are 1, 2, 3,
    ... in this order, whatever the order in which the images complete;
    there is one report per image loaded; every report carries the length of
    the media list as [total]; and once the aggregate load is fulfilled the
    number of reports is that length, so the last report says
    [loaded = total]. *)
Theorem css_progress_reports_count_loaded_images
  (cfg : FlipbookConfig) (inputs : list Input) :
  let s := after_inputs cfg inputs in
  let reports := progress_reports (calls s) in
  map loaded reports = map Z.of_nat (seq 1 (length reports))
  ∧ length reports = size (loadedImages s)
  ∧ Forall (λ p, lp_total p = media_length cfg) reports
  ∧ (allLoaded s = Fulfilled tt → Z.of_nat (length reports) = media_length cfg).
Proof.
  cbv zeta.
  destruct (after_inputs_inv cfg inputs) as (Hc & _ & (Hset & Hseq & Htot) & Hcfg & Hsp).
  assert (Hlen : length (progress_reports (calls (after_inputs cfg inputs))) =
                 size (loadedImages (after_inputs cfg inputs))).
  { apply (f_equal length) in Hseq. by rewrite !length_map, length_seq in Hseq. }
  rewrite Hcfg in Htot.
  split; [by rewrite Hlen|]. split; [done|]. split; [done|].
  intros Hall. rewrite Hlen.
  destruct Hc as (_ & _ & Hpl & Hl). rewrite Hcfg in Hpl. rewrite Hall in Hl.
  destruct Hl as [Hf _].
  assert (loadedImages (after_inputs cfg inputs)
          = list_to_set (seq 0 (length (images_of cfg)))) as ->.
  { apply set_eq. intros i. rewrite Hset, elem_of_list_to_set, elem_of_seq. split.
    - intros Hi%lookup_lt_Some. lia.
    - intros [_ Hi]. simpl in Hi. rewrite <- Hpl in Hi.
      destruct (lookup_lt_is_Some_2 _ _ Hi) as [p Hp].
      rewrite Hp. specialize (Hf _ _ Hp). by destruct p as [|[]|]. }
  rewrite size_list_to_set by apply NoDup_seq. rewrite length_seq.
  unfold media_length, images_of. by destruct (media_src cfg).
Qed.

Lemma step_position s e :
  (∀ x, e ≠ CallGoToPage x) → timers s = [] → currentSpread (step s e) = currentSpread s.
Proof.
  intros Hg Htm. unfold step.
  destruct (runJobs_nav (handle e s)) as (_ & _ & -> & _).
  destruct e as [| |idx| |i|i]; simpl.
  - rewrite nextPage_eq. by case_match.
  - rewrite prevPage_eq. by case_match.
  - by destruct (Hg idx).
  - by rewrite Htm.
  - repeat case_match; try done.
    match goal with |- context [loadImage_onload ?a ?b ?c] =>
      by destruct (loadImage_onload_nav a b c) as (_ & _ & -> & _) end.
  - repeat case_match; try done.
    match goal with |- context [loadImage_onerror ?a ?b ?c] =>
      by destruct (loadImage_onerror_nav a b c) as (_ & _ & -> & _) end.
Qed.

(** X4: a flip that starts leaves nothing on the screen and schedules
    nothing.  For every configuration and every sequence of inputs, timer
    expiries and load events, the mount point holds no flipping page and no
    timer is pending, whether the engine is flipping or not; the wrapper
    element stays attached; and no input but a direct jump changes the
    position.  In the five-page book a click on the next button leaves the
    engine flipping. *)
Theorem started_flip_adds_no_page_and_no_timer
  (cfg : FlipbookConfig) (inputs : list Input) :
  let s := after_inputs cfg inputs in
  flippingContainers (dom s) = []
  ∧ timers s = []
  ∧ attached (dom s) = true
  ∧ (∀ i, (∀ x, i ≠ Live (CallGoToPage x)) →
       currentSpread (after_inputs cfg (inputs ++ [i])) = currentSpread s)
  ∧ isFlipping (after_inputs book5 [NextClick]) = true.
Proof.
  cbv zeta.
  destruct (after_inputs_inv cfg inputs)
    as ((Hj & (Htm & _) & _) & (Hfc & _ & Hatt & _) & _).
  split; [|split; [done|split; [done|split; [|done]]]].
  - rewrite Htm in Hfc. by destruct (flippingContainers _).
  - intros i Hi. rewrite after_inputs_snoc.
    set (s := after_inputs cfg inputs) in *.
    set (tr := fst (run_inputs (touch_initial, constructor cfg) inputs)).
    destruct (step_input_cases tr s i) as [-> | [e He]].
    + by rewrite runJobs_no_jobs.
    + destruct i as [e'| | | | | |]; simpl in *.
      * apply step_position; [|done]. intros x ->. by apply (Hi x).
      * revert He. unfold handleKeyDown. destruct (isFlipping s) eqn:Hfl;
          [by rewrite runJobs_no_jobs|].
        destruct (String.eqb key "ArrowRight"); [rewrite goToNextSpread_state|].
        -- intros _. by apply (step_position s CallNextPage).
        -- destruct (String.eqb key "ArrowLeft"); [rewrite goToPrevSpread_state|].
           ++ intros _. by apply (step_position s CallPrevPage).
           ++ by rewrite runJobs_no_jobs.
      * unfold page_onclick. destruct (isFlipping s) eqn:Hfl;
          [by rewrite runJobs_no_jobs|].
        destruct (Qlt_le_dec _ _).
        -- rewrite goToPrevSpread_state. by apply (step_position s CallPrevPage).
        -- rewrite goToNextSpread_state. by apply (step_position s CallNextPage).
      * unfold prevBtn_onclick. rewrite goToPrevSpread_state.
        by apply (step_position s CallPrevPage).
      * unfold nextBtn_onclick. rewrite goToNextSpread_state.
        by apply (step_position s CallNextPage).
      * by rewrite runJobs_no_jobs.
      * unfold touchend. destruct (isFlipping s) eqn:Hfl;
          [by rewrite runJobs_no_jobs|].
        destruct changedTouches as [|[endX endY] [|? ?]];
          try (by rewrite runJobs_no_jobs).
        cbv zeta. destruct (Qlt_le_dec _ _); [|by rewrite runJobs_no_jobs].
        destruct (Qlt_le_dec _ _); [|by rewrite runJobs_no_jobs].
        destruct (Qlt_le_dec _ _).
        -- rewrite goToPrevSpread_state. by apply (step_position s CallPrevPage).
        -- rewrite goToNextSpread_state. by apply (step_position s CallNextPage).
Qed.

(** X5: once the images have loaded, the screen shows the current spread.
    For every configuration and every sequence of inputs, timer expiries and
    load events after which the aggregate load is fulfilled and the position
    is that of a spread, the left and the right page slot hold the images of
    that spread (a front cover only on the right, a back cover only on the
    left), and the page indicator, when configured, reads
    [currentSpread + 1] of the number of spreads. *)
Theorem screen_shows_current_spread
  (cfg : FlipbookConfig) (inputs : list Input) (sp : Spread) :
  let s := after_inputs cfg inputs in
  allLoaded s = Fulfilled tt →
  element (spreads s) (currentSpread s) = Some sp →
  pageLeft (dom s) = shown_left sp
  ∧ pageRight (dom s) = shown_right sp
  ∧ pageIndicator (dom s) =
    if navigation_pageIndicator cfg
    then Some (Number.add (currentSpread s) 1, Z.of_nat (length (spreads s)))
    else None.
Proof.
  cbv zeta. intros Hall Hsp.
  destruct (after_inputs_inv cfg inputs) as (_ & (_ & Hpi & _ & Hshow) & _ & Hcfg & _).
  destruct (Hshow Hall sp Hsp) as (Hl & Hr & Hi). rewrite Hcfg in *.
  split; [done|]. split; [done|].
  destruct (navigation_pageIndicator cfg); [by apply Hi|by apply Hpi].
Qed.

(** X5 for the five-page book: after the five images have loaded and a jump
    to page 2, the screen shows pages B and C and the indicator reads 2 of
    4. *)
Lemma screen_shows_current_spread_witness :
  let s := after_inputs book5
             [Live (ImageLoad 0); Live (ImageLoad 1); Live (ImageLoad 2);
              Live (ImageLoad 3); Live (ImageLoad 4); Live (CallGoToPage 2)] in
  pageLeft (dom s) = Some "B" ∧ pageRight (dom s) = Some "C"
  ∧ pageIndicator (dom s) = Some (Int 2, 4).
Proof.
  apply (screen_shows_current_spread book5
           [Live (ImageLoad 0); Live (ImageLoad 1); Live (ImageLoad 2);
            Live (ImageLoad 3); Live (ImageLoad 4); Live (CallGoToPage 2)]
           (mkSpread (Some "B") (Some "C") false false)).
  - vm_compute. reflexivity.
  - vm_compute. reflexivity.
Defined.

(** X6: a flip that has started never ends.  For every configuration and
    every sequence of inputs after which the engine is flipping, it is still
    flipping after any further inputs, timer expiries and load events, and
    no timer is pending; a key, a click on a page or on an arrow button, a
    swipe, [nextPage], [prevPage] and a timer expiry leave the state as it
    is. *)
Theorem started_flip_never_ends (cfg : FlipbookConfig) (inputs more : list Input) :
  let s := after_inputs cfg inputs in
  isFlipping s = true →
  isFlipping (after_inputs cfg (inputs ++ more)) = true
  ∧ timers (after_inputs cfg (inputs ++ more)) = []
  ∧ (∀ i, flip_input i = true → after_inputs cfg (inputs ++ [i]) = s).
Proof.
  cbv zeta. intros Hfl. split; [|split].
  - induction more as [|i more IH] using rev_ind; [by rewrite app_nil_r|].
    rewrite app_assoc, after_inputs_snoc.
    destruct (after_inputs_inv cfg (inputs ++ more)) as ((Hj & (Htm & _) & _) & _).
    set (s := after_inputs cfg (inputs ++ more)) in *.
    set (tr := fst (run_inputs (touch_initial, constructor cfg) (inputs ++ more))).
    destruct (step_input_cases tr s i) as [-> | [e ->]].
    + by rewrite runJobs_no_jobs.
    + by apply step_stays_flipping.
  - by destruct (after_inputs_inv cfg (inputs ++ more)) as ((_ & (Htm & _) & _) & _).
  - intros i Hi. rewrite after_inputs_snoc.
    destruct (after_inputs_inv cfg inputs) as ((Hj & (Htm & _) & _) & _).
    set (s := after_inputs cfg inputs) in *.
    destruct i as [[| | | | |]| | | | | |]; simpl in *; try done.
    + by apply step_next_flipping.
    + by apply step_prev_flipping.
    + unfold step. simpl. rewrite Htm. by apply runJobs_no_jobs.
    + unfold handleKeyDown. rewrite Hfl. by apply runJobs_no_jobs.
    + unfold page_onclick. rewrite Hfl. by apply runJobs_no_jobs.
    + unfold prevBtn_onclick. rewrite goToPrevSpread_eq, Hfl. by apply runJobs_no_jobs.
    + unfold nextBtn_onclick. rewrite goToNextSpread_eq, Hfl. by apply runJobs_no_jobs.
    + by apply runJobs_no_jobs.
    + unfold touchend. rewrite Hfl. by apply runJobs_no_jobs.
Qed.

(** X6 for the five-page book: after a click on the next button the right
    arrow key and the expiry of a timer change nothing. *)
Lemma started_flip_never_ends_witness :
  let cfg := book5 in
  let inputs := [NextClick] in
  let more := [KeyDown "ArrowRight"; Live TimerElapsed] in
  isFlipping (after_inputs cfg (inputs ++ more)) = true
  ∧ timers (after_inputs cfg (inputs ++ more)) = []
  ∧ (∀ i, flip_input i = true → after_inputs cfg (inputs ++ [i]) = after_inputs cfg inputs).
Proof.
  apply (started_flip_never_ends book5 [NextClick] [KeyDown "ArrowRight"; Live TimerElapsed]).
  vm_compute. reflexivity.
Defined.



(** X10: what the public methods do after [dispose].  For every state [s] a
    live engine can reach: disposing twice is disposing once;
    [getCurrentPage] keeps the position and reports 0 pages; [goToPage]
    changes nothing any more, unless its argument is NaN, which it commits
    and reports; [nextPage] changes nothing either, unless the position is
    NaN; but [prevPage] is not disabled: when no flip is in progress and the
    position is neither 0 nor NaN, it still sets the flipping state and
    calls [onAnimationStart] before it is rejected; no timer is pending
    then, and the flipping state stays. *)
Theorem public_methods_after_dispose (cfg : FlipbookConfig) (inputs : list Input) :
  let s := after_inputs cfg inputs in
  let cur := currentSpread s in
  dispose (dispose s) = dispose s
  ∧ getCurrentPage (dispose s) = mkPageInfo (Number.twice cur) 0 cur 0
  ∧ (∀ index, Number.floor_half index ≠ NaN →
       goToPage index (dispose s) = (Fulfilled tt, dispose s))
  ∧ goToPage NaN (dispose s) =
      (Fulfilled tt,
       call (onPageChange (mkPageInfo NaN 0 NaN 0)) (set_currentSpread NaN (dispose s)))
  ∧ (isFlipping s = true ∨ cur ≠ NaN → nextPage (dispose s) = (Fulfilled tt, dispose s))
  ∧ (isFlipping s = true ∨ cur = Int 0 → prevPage (dispose s) = (Fulfilled tt, dispose s))
  ∧ (isFlipping s = false → cur ≠ Int 0 →
     let s' := snd (prevPage (dispose s)) in
     fst (prevPage (dispose s)) = Rejected SyntaxError
     ∧ isFlipping s' = true
     ∧ currentSpread s' = cur
     ∧ timers s' = []
     ∧ calls s' = calls s ++ [onAnimationStart]
     ∧ ∀ e, isFlipping (step s' e) = true).
Proof.
  cbv zeta.
  destruct (after_inputs_inv cfg inputs) as ((Hj & (Htm & Hpos) & _) & _).
  set (s := after_inputs cfg inputs) in *.
  split; [done|]. split; [done|]. split; [|split; [|split; [|split]]].
  - intros index Hnan. unfold goToPage. simpl.
    destruct (floor_half_cases index) as [[c Hc]|[[negative Hc]|Hc]]; [| |done].
    + rewrite Hc. case_match eqn:Htest; [done|]. exfalso. zbool. simpl in *. lia.
    + rewrite Hc. by rewrite infinity_out_of_range.
  - reflexivity.
  - intros H. rewrite nextPage_eq. simpl. destruct (isFlipping s); [done|].
    destruct H as [|H]; [done|]. simpl.
    destruct (currentSpread s) as [c| | |]; try done.
    case_match eqn:Htest; [done|]. exfalso. zbool. simpl in *. lia.
  - intros H. rewrite prevPage_eq. simpl. destruct (isFlipping s); [done|].
    destruct H as [|H]; [done|]. by rewrite H.
  - intros Hfl Hne. rewrite prevPage_eq. simpl. rewrite Hfl. simpl.
    assert (Number.leb (currentSpread s) 0 = false) as ->.
    { destruct (currentSpread s) as [c| | |]; try done. rewrite leb_Int.
      simpl in Hpos. apply Z.leb_gt.
      destruct (decide (c = 0)) as [->|]; [done|lia]. }
    simpl. repeat split; try done.
    intros e. by apply step_stays_flipping.
Qed.

End CSSBehaviour.

(** * The scene-graph engine: pages, visibility and input *)

Section WebGLScene.
Import WebGLEngine.

Lemma visibility_set_visible i v s :
  visibility (set_visible i v s) = <[i := v]> (visibility s).
Proof.
  unfold visibility, set_visible.
  destruct (pages s !! i) as [m|] eqn:Hm; simpl.
  - by rewrite list_fmap_insert.
  - symmetry. apply list_insert_ge. rewrite length_map.
    by apply lookup_ge_None.
Qed.

Lemma visibility_set_rotation i r s :
  visibility (set_rotation i r s) = visibility s.
Proof.
  unfold visibility, set_rotation.
  destruct (pages s !! i) as [m|] eqn:Hm; simpl; [|done].
  rewrite list_fmap_insert. simpl. apply list_insert_id.
  by rewrite list_lookup_fmap, Hm.
Qed.

Lemma fulfilled_values_length {V} (ps : list (Promise V)) :
  forallb is_fulfilled ps = true → length (fulfilled_values ps) = length ps.
Proof.
  induction ps as [|[|v|m] ps IH]; simpl; try done.
  intros H. by rewrite IH.
Qed.

(** What a load event does to the scene. *)
Lemma load_event_scene s e :
  jobs s = [] →
  is_load_event e = true →
  let s' := step s e in
  config s' = config s ∧ currentPage s' = currentPage s
  ∧ isAnimating s' = isAnimating s ∧ timelines s' = timelines s
  ∧ ((pages s' = pages s ∧ textures s' = textures s
      ∧ (is_fulfilled (allLoaded s') = is_fulfilled (allLoaded s)))
     ∨ (is_fulfilled (allLoaded s) = false ∧ is_fulfilled (allLoaded s') = true
        ∧ length (textures s') = length (loadPromises s)
        ∧ pages s' =
          pages s ++ imap (λ index _, mkMesh (negb (0 <? Z.of_nat index)) rot_0)
                          (textures s'))).
Proof.
  intros Hjobs He. cbv zeta. unfold step.
  assert (Hrej : ∀ i m, loadPromises s !! i = Some Pending →
    let s' := runJobs (reject i m s) in
    config s' = config s ∧ currentPage s' = currentPage s
    ∧ isAnimating s' = isAnimating s ∧ timelines s' = timelines s
    ∧ pages s' = pages s ∧ textures s' = textures s
    ∧ is_fulfilled (allLoaded s') = is_fulfilled (allLoaded s)).
  { intros i m Hp. cbv zeta. unfold reject. rewrite Hp. simpl.
    destruct (allLoaded s) eqn:Hall.
    - unfold runJobs. simpl. rewrite Hjobs. simpl. by rewrite ?Hall.
    - rewrite webgl_runJobs_no_jobs by done. simpl. by rewrite ?Hall.
    - rewrite webgl_runJobs_no_jobs by done. simpl. by rewrite ?Hall. }
  assert (Hsame : let s' := runJobs s in
    config s' = config s ∧ currentPage s' = currentPage s
    ∧ isAnimating s' = isAnimating s ∧ timelines s' = timelines s
    ∧ ((pages s' = pages s ∧ textures s' = textures s
        ∧ (is_fulfilled (allLoaded s') = is_fulfilled (allLoaded s)))
       ∨ (is_fulfilled (allLoaded s) = false ∧ is_fulfilled (allLoaded s') = true
          ∧ length (textures s') = length (loadPromises s)
          ∧ pages s' =
            pages s ++ imap (λ index _, mkMesh (negb (0 <? Z.of_nat index)) rot_0)
                            (textures s')))).
  { cbv zeta. rewrite webgl_runJobs_no_jobs by done. repeat split; auto. }
  destruct e as [| |idx| |i image|i message]; try done; simpl.
  - destruct (images_of (config s) !! i) as [imagePath|] eqn:Hsrc; [|exact Hsame].
    destruct (loadPromises s !! i) as [[|v|m]|] eqn:Hp; try exact Hsame.
    unfold loader_onLoad.
    destruct image as [[width height]|].
    2:{ destruct (Hrej i ("Invalid image dimensions: " ++ imagePath)%string Hp)
          as (? & ? & ? & ? & ? & ? & ?). repeat split; auto. }
    destruct ((width =? 0) || (height =? 0)) eqn:Hdim.
    { destruct (Hrej i ("Invalid image dimensions: " ++ imagePath)%string Hp)
          as (? & ? & ? & ? & ? & ? & ?). repeat split; auto. }
    unfold resolve. rewrite Hp. simpl.
    destruct (allLoaded s) eqn:Hall.
    + destruct (forallb is_fulfilled (<[i:=Fulfilled _]> (loadPromises s))) eqn:Hf.
      * unfold runJobs. simpl. rewrite Hjobs. simpl.
        repeat split; auto. right. rewrite ?Hall.
        repeat split; auto. rewrite fulfilled_values_length by done.
        apply length_insert.
      * rewrite webgl_runJobs_no_jobs by done. simpl. rewrite ?Hall. repeat split; auto.
    + rewrite webgl_runJobs_no_jobs by done. simpl. rewrite ?Hall. repeat split; auto.
    + rewrite webgl_runJobs_no_jobs by done. simpl. rewrite ?Hall. repeat split; auto.
  - destruct (images_of (config s) !! i) as [imagePath|] eqn:Hsrc; [|exact Hsame].
    destruct (loadPromises s !! i) as [[|v|m]|] eqn:Hp; try exact Hsame.
    unfold loader_onError.
    match goal with |- context [reject i ?m s] =>
      destruct (Hrej i m Hp) as (? & ? & ? & ? & ? & ? & ?) end.
    repeat split; auto.
Qed.

Lemma scene_inv_idle s :
  scene_inv s → isAnimating s = false →
  ∃ cur, currentPage s = Int cur
  ∧ 0 <= cur ∧ (cur < Z.of_nat (length (pages s)) ∨ Z.of_nat (length (pages s)) = 0 ∧ cur = 0)
  ∧ timelines s = []
  ∧ ∀ i b, visibility s !! i = Some b → (b = true ↔ Z.of_nat i = cur).
Proof.
  intros (cur & Hcur & Hge & Hlt & H) Hfl. exists cur.
  split; [done|]. split; [done|]. split; [done|].
  destruct (timelines s) as [|tl [|? ?]]; [|exfalso..].
  - by destruct H.
  - destruct H. congruence.
  - done.
Qed.

Lemma visibility_length s : length (visibility s) = length (pages s).
Proof. apply length_map. Qed.

Lemma set_visible_config i v s : config (set_visible i v s) = config s.
Proof. unfold set_visible. by case_match. Qed.

Lemma set_rotation_config i r s : config (set_rotation i r s) = config s.
Proof. unfold set_rotation. by case_match. Qed.

Lemma set_visible_textures i v s : textures (set_visible i v s) = textures s.
Proof. unfold set_visible. by case_match. Qed.

Lemma set_rotation_textures i r s : textures (set_rotation i r s) = textures s.
Proof. unfold set_rotation. by case_match. Qed.

Lemma set_visible_currentPage i v s : currentPage (set_visible i v s) = currentPage s.
Proof. unfold set_visible. by case_match. Qed.

Lemma set_rotation_currentPage i r s : currentPage (set_rotation i r s) = currentPage s.
Proof. unfold set_rotation. by case_match. Qed.

Lemma set_visible_isAnimating i v s : isAnimating (set_visible i v s) = isAnimating s.
Proof. unfold set_visible. by case_match. Qed.

Lemma set_rotation_isAnimating i r s : isAnimating (set_rotation i r s) = isAnimating s.
Proof. unfold set_rotation. by case_match. Qed.

Lemma set_visible_timelines i v s : timelines (set_visible i v s) = timelines s.
Proof. unfold set_visible. by case_match. Qed.

Lemma set_rotation_timelines i r s : timelines (set_rotation i r s) = timelines s.
Proof. unfold set_rotation. by case_match. Qed.

Lemma set_visible_loadPromises i v s : loadPromises (set_visible i v s) = loadPromises s.
Proof. unfold set_visible. by case_match. Qed.

Lemma set_rotation_loadPromises i r s : loadPromises (set_rotation i r s) = loadPromises s.
Proof. unfold set_rotation. by case_match. Qed.

Lemma set_visible_allLoaded i v s : allLoaded (set_visible i v s) = allLoaded s.
Proof. unfold set_visible. by case_match. Qed.

Lemma set_rotation_allLoaded i r s : allLoaded (set_rotation i r s) = allLoaded s.
Proof. unfold set_rotation. by case_match. Qed.

Lemma set_visible_jobs i v s : jobs (set_visible i v s) = jobs s.
Proof. unfold set_visible. by case_match. Qed.

Lemma set_rotation_jobs i r s : jobs (set_rotation i r s) = jobs s.
Proof. unfold set_rotation. by case_match. Qed.

Lemma set_visible_calls i v s : calls (set_visible i v s) = calls s.
Proof. unfold set_visible. by case_match. Qed.

Lemma set_rotation_calls i r s : calls (set_rotation i r s) = calls s.
Proof. unfold set_rotation. by case_match. Qed.

Ltac scene_fields1 :=
  rewrite ?set_visible_config, ?set_rotation_config, ?set_visible_textures,
    ?set_rotation_textures, ?set_visible_currentPage, ?set_rotation_currentPage,
    ?set_visible_isAnimating, ?set_rotation_isAnimating, ?set_visible_timelines,
    ?set_rotation_timelines, ?set_visible_loadPromises, ?set_rotation_loadPromises,
    ?set_visible_allLoaded, ?set_rotation_allLoaded, ?set_visible_jobs,
    ?set_rotation_jobs, ?set_visible_calls, ?set_rotation_calls,
    ?set_visible_pages, ?set_rotation_pages.

Ltac scene_fields := repeat (progress (simpl; scene_fields1)).

Ltac vis_norm1 :=
  unfold visibility; simpl;
  repeat match goal with
  | |- context [map visible (pages ?x)] => fold (visibility x)
  end;
  rewrite ?visibility_set_rotation, ?visibility_set_visible.

Ltac vis_norm := do 4 vis_norm1.

Lemma lookup_insert_cases {A} (l : list A) (k i : nat) (v b : A) :
  <[k := v]> l !! i = Some b →
  (i = k ∧ b = v) ∨ (i ≠ k ∧ l !! i = Some b).
Proof.
  intros H. destruct (decide (k = i)) as [->|Hne].
  - left. split; [done|].
    rewrite list_lookup_insert_eq in H by (apply lookup_lt_Some in H; by rewrite length_insert in H).
    congruence.
  - right. split; [done|]. by rewrite list_lookup_insert_ne in H.
Qed.

Lemma nextPage_scene s :
  scene_inv s → scene_inv (snd (nextPage s)) ∧ fst (nextPage s) = Fulfilled tt.
Proof.
  intros Hinv. unfold nextPage.
  destruct (isAnimating s || Number.geb (currentPage s) (Z.of_nat (length (pages s)) - 1))
    eqn:Hg; [done|].
  apply orb_false_elim in Hg as [Hfl Hg].
  destruct (scene_inv_idle s Hinv Hfl) as (cur & Hcur & Hge & Hlt & Htl & Hvis).
  rewrite Hcur in Hg. zbool.
  simpl. rewrite Hcur. simpl.
  destruct (element_in_range (pages s) (cur + 1) ltac:(lia)) as [m1 Hm1].
  destruct (element_in_range (pages s) cur ltac:(lia)) as [m0 Hm0].
  simpl in Hm1, Hm0. rewrite Hm1, Hm0. simpl. split; [|done].
  unfold scene_inv. simpl. scene_fields. simpl. rewrite Htl, Hcur. simpl.
  unfold visibility at 1. simpl.
  fold (visibility (set_visible (Z.to_nat (cur + 1)) true
         (call onAnimationStart (set_isAnimating true s)))).
  rewrite visibility_set_visible.
  change (visibility (call onAnimationStart (set_isAnimating true s)))
    with (visibility s).
  exists cur.
  split; [done|]. split; [done|]. split; [lia|]. split; [done|]. split; [done|].
  split; [lia|].
  intros i b Hi. apply lookup_insert_cases in Hi as [[-> ->]|[Hne Hi]].
  - split; [intros _; lia|done].
  - rewrite (Hvis i b Hi). lia.
Qed.

Lemma prevPage_scene s :
  scene_inv s → scene_inv (snd (prevPage s)) ∧ fst (prevPage s) = Fulfilled tt.
Proof.
  intros Hinv. unfold prevPage.
  destruct (isAnimating s || Number.leb (currentPage s) 0) eqn:Hg; [done|].
  apply orb_false_elim in Hg as [Hfl Hg].
  destruct (scene_inv_idle s Hinv Hfl) as (cur & Hcur & Hge & Hlt & Htl & Hvis).
  rewrite Hcur in Hg. zbool.
  simpl. rewrite Hcur. simpl.
  destruct (element_in_range (pages s) (cur + -1) ltac:(lia)) as [m1 Hm1].
  destruct (element_in_range (pages s) cur ltac:(lia)) as [m0 Hm0].
  simpl in Hm1, Hm0. rewrite Hm1, Hm0. simpl. split; [|done].
  unfold scene_inv. simpl. scene_fields. simpl. rewrite Htl, Hcur. simpl.
  unfold visibility at 1. simpl.
  match goal with |- context [map visible (pages ?x)] => fold (visibility x) end.
  rewrite visibility_set_rotation, visibility_set_visible.
  change (visibility (call onAnimationStart (set_isAnimating true s)))
    with (visibility s).
  exists cur.
  split; [done|]. split; [done|]. split; [lia|]. split; [done|]. split; [done|].
  split; [lia|].
  intros i b Hi. apply lookup_insert_cases in Hi as [[-> ->]|[Hne Hi]].
  - split; [intros _; lia|done].
  - rewrite (Hvis i b Hi). lia.
Qed.

Lemma goToPage_scene (pageIndex : Z) s :
  scene_inv s → isAnimating s = false →
  scene_inv (snd (goToPage pageIndex s)) ∧ fst (goToPage pageIndex s) = Fulfilled tt.
Proof.
  intros Hinv Hfl. unfold goToPage.
  destruct (Number.ltb pageIndex 0
            || Number.geb pageIndex (Z.of_nat (length (pages s)))
            || Number.eqb pageIndex (currentPage s)) eqn:Hg; [done|].
  destruct (scene_inv_idle s Hinv Hfl) as (cur & Hcur & Hge & Hlt & Htl & Hvis).
  rewrite Hcur in Hg. zbool.
  rewrite Hcur.
  destruct (element_in_range (pages s) cur ltac:(lia)) as [m0 Hm0].
  rewrite Hm0. simpl.
  destruct (element_in_range (pages s) pageIndex ltac:(lia)) as [m1 Hm1].
  assert (Hm1' : element (pages (set_visible (Z.to_nat cur) false s)) pageIndex
                 = Some m1).
  { unfold set_visible. simpl in Hm0, Hm1. unfold at_index in Hm0, Hm1 |- *.
    destruct (Z.ltb_spec cur 0); [lia|]. destruct (Z.ltb_spec pageIndex 0); [lia|].
    rewrite Hm0. simpl. unfold at_index.
    destruct (Z.ltb_spec pageIndex 0); [lia|].
    rewrite list_lookup_insert_ne by lia. done. }
  simpl in Hm1'. rewrite Hm1'. simpl. split; [|done].
  unfold scene_inv. simpl. scene_fields. simpl. rewrite Htl. simpl.
  unfold visibility at 1. simpl.
  match goal with |- context [map visible (pages ?x)] => fold (visibility x) end.
  rewrite visibility_set_rotation, visibility_set_visible.
  match goal with |- context [visibility (set_currentPage ?k ?x)] =>
    change (visibility (set_currentPage k x)) with (visibility x) end.
  rewrite visibility_set_visible.
  exists pageIndex.
  split; [done|]. split; [lia|]. split; [lia|]. split; [done|].
  intros i b Hi. apply lookup_insert_cases in Hi as [[-> ->]|[Hne Hi]].
  - split; [intros _; lia|done].
  - apply lookup_insert_cases in Hi as [[-> ->]|[Hne' Hi]].
    + split; [done|lia].
    + rewrite (Hvis i b Hi). lia.
Qed.

Lemma onComplete_scene tl s :
  scene_inv s → timelines s = [tl] →
  scene_inv (onComplete tl (set_timelines [] s)).
Proof.
  intros (cur & Hcur & Hge & Hlt & Hinv) Htl. rewrite Htl in Hinv.
  destruct Hinv as (Hfl & Hmesh & Hdir).
  unfold onComplete. rewrite Hmesh.
  destruct (tl_direction tl); destruct Hdir as [Hr Hvis].
  - unfold scene_inv. scene_fields. vis_norm. rewrite Hcur. simpl.
    exists (cur + 1).
    split; [done|]. split; [lia|]. split; [lia|]. split; [done|].
    intros i b Hi. apply lookup_insert_cases in Hi as [[-> ->]|[Hne Hi]].
    + split; [done|lia].
    + rewrite (Hvis i b Hi). lia.
  - unfold scene_inv. scene_fields. vis_norm. rewrite Hcur. simpl.
    exists (cur + -1).
    split; [done|]. split; [lia|]. split; [lia|]. split; [done|].
    intros i b Hi. apply lookup_insert_cases in Hi as [[-> ->]|[Hne Hi]].
    + split; [done|lia].
    + rewrite (Hvis i b Hi). lia.
Qed.

(** A navigation call or the end of a timeline keeps the book. *)
Lemma nav_event_book s e :
  is_load_event e = false →
  config (handle e s) = config s ∧ allLoaded (handle e s) = allLoaded s
  ∧ textures (handle e s) = textures s
  ∧ length (pages (handle e s)) = length (pages s)
  ∧ jobs (handle e s) = jobs s.
Proof.
  intros He. destruct e as [| |idx| |i image|i message]; try done; simpl.
  - unfold nextPage. repeat case_match; scene_fields; done.
  - unfold prevPage. repeat case_match; scene_fields; done.
  - unfold goToPage. repeat case_match; scene_fields; done.
  - destruct (timelines s) as [|tl rest]; [done|].
    unfold onComplete. repeat case_match; scene_fields; done.
Qed.

(** Without pages nothing moves. *)
Lemma nav_event_no_pages s e :
  is_load_event e = false →
  pages s = [] → currentPage s = Int 0 → timelines s = [] →
  handle e s = s.
Proof.
  intros He Hp Hc Ht. destruct e as [| |idx| |i image|i message]; try done; simpl.
  - unfold nextPage. rewrite Hp, Hc. simpl.
    change (Number.geb 0 (Z.of_nat 0 - 1)) with true. by rewrite orb_true_r.
  - unfold prevPage. rewrite Hc. simpl.
    change (Number.leb 0 0) with true. by rewrite orb_true_r.
  - unfold goToPage. rewrite Hp, Hc. simpl. by case_match.
  - by rewrite Ht.
Qed.

Lemma step_pages_inv s e : jobs s = [] → wload_inv s → pages_inv s → pages_inv (step s e).
Proof.
  intros Hjobs [Hlen _] Hinv.
  destruct (is_load_event e) eqn:Hl; revgoals.
  - unfold step. destruct (nav_event_book s e Hl) as (Hc & Ha & Ht & Hp & Hj).
    rewrite webgl_runJobs_no_jobs by congruence.
    unfold pages_inv in *. rewrite Ha, Hc, Ht, Hp.
    destruct (is_fulfilled (allLoaded s)); [done|].
    destruct Hinv as (Hp0 & Ht0 & Hc0 & Hf0 & Htl0).
    rewrite (nav_event_no_pages s e Hl Hp0 Hc0 Htl0). done.
  - destruct (load_event_scene s e Hjobs Hl) as (Hc & Hcur & Hfl & Htl & Hcase).
    unfold pages_inv in *. rewrite Hc, Hcur, Hfl, Htl.
    destruct Hcase as [(-> & -> & ->)|(Hnf & -> & Hlt & ->)]; [done|].
    rewrite Hnf in Hinv. destruct Hinv as (-> & _).
    simpl. rewrite length_imap. split; congruence.
Qed.

Lemma constructor_pages_inv config : pages_inv (constructor config).
Proof.
  unfold constructor, loadTextures. simpl.
  destruct (forallb is_fulfilled (map (λ _ : string, Pending) (images_of config))) eqn:Hf.
  - apply wpending_not_fulfilled in Hf. unfold runJobs, pages_inv. simpl.
    rewrite Hf. done.
  - unfold runJobs, pages_inv. simpl. done.
Qed.

Lemma constructor_scene_inv config : scene_inv (constructor config).
Proof.
  unfold constructor, loadTextures. simpl.
  destruct (forallb is_fulfilled (map (λ _ : string, Pending) (images_of config))) eqn:Hf.
  - apply wpending_not_fulfilled in Hf. unfold runJobs, scene_inv. simpl.
    rewrite Hf. simpl. exists 0.
    split; [done|]. split; [done|]. split; [by right|]. split; [done|].
    intros i b Hi. done.
  - unfold runJobs, scene_inv. simpl. exists 0.
    split; [done|]. split; [done|]. split; [by right|]. split; [done|].
    intros i b Hi. done.
Qed.

Lemma step_scene_inv s e :
  jobs s = [] → wguarded s e = true → pages_inv s → scene_inv s →
  scene_inv (step s e).
Proof.
  intros Hjobs Hg Hpg Hinv.
  destruct (is_load_event e) eqn:Hl; revgoals.
  - unfold step. destruct (nav_event_book s e Hl) as (_ & _ & _ & _ & Hj).
    rewrite webgl_runJobs_no_jobs by congruence.
    destruct e as [| |idx| |i image|i message]; try done; simpl.
    + by apply nextPage_scene.
    + by apply prevPage_scene.
    + simpl in Hg. apply andb_true_iff in Hg as [Hg Hint].
      destruct idx as [k| | |]; try done.
      apply goToPage_scene; [done|]. by destruct (isAnimating s).
    + destruct (timelines s) as [|tl rest] eqn:Htl; [done|].
      assert (rest = []) as ->.
      { destruct Hinv as (? & _ & _ & _ & H). rewrite Htl in H. by destruct rest. }
      by apply onComplete_scene.
  - destruct (load_event_scene s e Hjobs Hl) as (Hc & Hcur & Hfl & Htl & Hcase).
    destruct Hcase as [(Hp & _ & _)|(Hnf & Hf' & Hlt & Hp)].
    + unfold scene_inv, visibility in *. by rewrite Hp, Hcur, Hfl, Htl.
    + unfold pages_inv in Hpg. rewrite Hnf in Hpg.
      destruct Hpg as (Hp0 & _ & Hc0 & Hf0 & Htl0).
      unfold scene_inv, visibility. rewrite Hp, Hcur, Hfl, Htl, Hp0, Hc0, Hf0, Htl0.
      simpl. rewrite length_imap. exists 0.
      split; [done|]. split; [done|]. split; [lia|]. split; [done|].
      intros i b Hi. rewrite list_lookup_fmap, list_lookup_imap in Hi.
      destruct (textures (step s e) !! i); simpl in Hi; [|done].
      injection Hi as <-. destruct i; simpl; [done|]. split; [done|lia].
Qed.

Lemma fulfilled_values_map {V} (ps : list (Promise V)) :
  forallb is_fulfilled ps = true → ps = map Fulfilled (fulfilled_values ps).
Proof.
  induction ps as [|[|v|m] ps IH]; simpl; try done.
  intros H. by rewrite <- IH.
Qed.

Lemma step_tex_inv s e : jobs s = [] → tex_inv s → tex_inv (step s e).
Proof.
  intros Hjobs Hinv.
  assert (Hpend : ∀ i, is_fulfilled (allLoaded s) = true →
                    loadPromises s !! i ≠ Some Pending).
  { intros i Hall Hp. unfold tex_inv in Hinv.
    destruct (allLoaded s) as [|vs|]; try done.
    destruct Hinv as [_ Hl]. rewrite Hl, list_lookup_fmap in Hp.
    by destruct (vs !! i). }
  destruct (is_load_event e) eqn:Hl; revgoals.
  - unfold step. destruct (nav_event_book s e Hl) as (_ & Ha & Ht & _ & Hj).
    rewrite webgl_runJobs_no_jobs by congruence.
    assert (Hq : quiet s (handle e s)).
    { destruct e as [| |idx| |i image|i message]; try done; simpl.
      - apply nextPage_quiet.
      - apply prevPage_quiet.
      - apply goToPage_quiet.
      - destruct (timelines s) as [|tl rest]; [apply quiet_refl|apply onComplete_quiet]. }
    destruct Hq as (_ & Hlp & _). unfold tex_inv in *. by rewrite Ha, Ht, Hlp.
  - assert (Hrej : ∀ i m, loadPromises s !! i = Some Pending →
                     tex_inv (runJobs (reject i m s))).
    { intros i m Hp. unfold reject. rewrite Hp. simpl.
      destruct (allLoaded s) eqn:Hall.
      - unfold runJobs. simpl. rewrite Hjobs. simpl. unfold tex_inv. simpl. done.
      - by destruct (Hpend i eq_refl).
      - rewrite webgl_runJobs_no_jobs by done. unfold tex_inv. simpl. by rewrite Hall. }
    unfold step. destruct e as [| |idx| |i image|i message]; try done; simpl.
    + destruct (images_of (config s) !! i) as [imagePath|] eqn:Hsrc;
        [|by rewrite webgl_runJobs_no_jobs].
      destruct (loadPromises s !! i) as [[|v|m]|] eqn:Hp;
        try (by rewrite webgl_runJobs_no_jobs).
      unfold loader_onLoad.
      destruct image as [[width height]|]; [|by apply Hrej].
      destruct ((width =? 0) || (height =? 0)) eqn:Hdim; [by apply Hrej|].
      unfold resolve. rewrite Hp. simpl.
      destruct (allLoaded s) eqn:Hall.
      * destruct (forallb is_fulfilled (<[i:=Fulfilled _]> (loadPromises s))) eqn:Hf.
        -- unfold runJobs. simpl. rewrite Hjobs. simpl. unfold tex_inv. simpl.
           split; [done|]. by apply fulfilled_values_map.
        -- rewrite webgl_runJobs_no_jobs by done. unfold tex_inv. simpl. by rewrite Hall.
      * by destruct (Hpend i eq_refl).
      * rewrite webgl_runJobs_no_jobs by done. unfold tex_inv. simpl. by rewrite Hall.
    + destruct (images_of (config s) !! i) as [imagePath|] eqn:Hsrc;
        [|by rewrite webgl_runJobs_no_jobs].
      destruct (loadPromises s !! i) as [[|v|m]|] eqn:Hp;
        try (by rewrite webgl_runJobs_no_jobs).
      unfold loader_onError. by apply Hrej.
Qed.

Lemma constructor_tex_inv config : tex_inv (constructor config).
Proof.
  unfold constructor, loadTextures. simpl.
  destruct (forallb is_fulfilled (map (λ _ : string, Pending) (images_of config))) eqn:Hf.
  - unfold runJobs, tex_inv. simpl. split; [done|]. by apply fulfilled_values_map.
  - unfold runJobs, tex_inv. simpl. done.
Qed.

(** The effect of a texture that arrives with its dimensions. *)
Lemma step_texture_delivered s i imagePath width height :
  images_of (config s) !! i = Some imagePath →
  loadPromises s !! i = Some Pending →
  width ≠ 0 → height ≠ 0 →
  loadPromises (step s (TextureLoad i (Some (width, height)))) !! i =
  Some (Fulfilled (mkPageTexture (ratio width height) (width, height))).
Proof.
  intros Hsrc Hp Hw Hh. unfold step. rewrite runJobs_loadPromises_webgl. simpl.
  rewrite Hsrc, Hp. unfold loader_onLoad.
  destruct (Z.eqb_spec width 0); [done|]. destruct (Z.eqb_spec height 0); [done|].
  simpl. unfold resolve. rewrite Hp. simpl.
  assert (Hins : <[i:=Fulfilled (mkPageTexture (ratio width height) (width, height))]>
                   (loadPromises s) !! i =
                 Some (Fulfilled (mkPageTexture (ratio width height) (width, height)))).
  { apply list_lookup_insert_eq. by eapply lookup_lt_Some. }
  destruct (allLoaded s); [|done..]. by destruct (forallb _ _).
Qed.

End WebGLScene.

(** * The scene-graph engine: further properties *)

Section WebGLBehaviour.
Import WebGLEngine.





(** A pointer listener does nothing, or what [nextPage] does, or what
    [prevPage] does. *)
Lemma wstep_input_cases s i :
  step_input s i = runJobs s
  ∨ ∃ e, step_input s i = step s e
         ∧ match i with Live _ => True | _ => wguarded s e = true end.
Proof.
  assert (Hh : ∀ hit, runJobs (handleInteraction hit s) = runJobs s
    ∨ ∃ e, runJobs (handleInteraction hit s) = step s e ∧ wguarded s e = true).
  { intros [[x|]|]; simpl; [|right; by exists CallNextPage|by left].
    destruct (Qlt_le_dec x (1 # 2)); right;
      [by exists CallPrevPage|by exists CallNextPage]. }
  destruct i as [e|hit|touches hit]; simpl.
  - right. by exists e.
  - unfold onMouseDown. destruct (isAnimating s); [by left|]. apply Hh.
  - unfold onTouchStart. destruct (isAnimating s || negb (touches =? 1)%nat); [by left|].
    apply Hh.
Qed.

(** Everything that holds of a live engine between two tasks, whatever the
    inputs. *)
Lemma wafter_inputs_inv cfg inputs :
  let s := wafter_inputs cfg inputs in
  webgl_inv s ∧ pages_inv s ∧ config s = cfg.
Proof.
  cbv zeta. unfold wafter_inputs, run_inputs.
  assert (H0 : webgl_inv (constructor cfg) ∧ pages_inv (constructor cfg)
               ∧ config (constructor cfg) = cfg).
  { split; [apply constructor_webgl_inv|]. split; [apply constructor_pages_inv|].
    apply (run_config_webgl cfg []). }
  revert H0. generalize (constructor cfg).
  induction inputs as [|i inputs IH]; intros s H; [done|].
  simpl. apply IH. destruct H as (Hw & Hp & Hc).
  pose proof Hw as (Hj & _ & Hl).
  destruct (wstep_input_cases s i) as [->|(e & -> & _)].
  - by rewrite webgl_runJobs_no_jobs.
  - split; [by apply step_webgl_inv|]. split; [by apply step_pages_inv|].
    by rewrite step_config_webgl.
Qed.

(** And as long as direct jumps are made between flips. *)
Lemma wafter_inputs_scene cfg inputs :
  inputs_guarded (constructor cfg) inputs = true →
  scene_inv (wafter_inputs cfg inputs).
Proof.
  unfold wafter_inputs, run_inputs.
  assert (H0 : webgl_inv (constructor cfg) ∧ pages_inv (constructor cfg)
               ∧ scene_inv (constructor cfg)).
  { split; [apply constructor_webgl_inv|]. split; [apply constructor_pages_inv|].
    apply constructor_scene_inv. }
  revert H0. generalize (constructor cfg).
  induction inputs as [|i inputs IH]; intros s H Hg; [by destruct H as (_ & _ & ?)|].
  simpl in *. apply andb_true_iff in Hg as [Hgi Hg].
  apply IH; [|done]. destruct H as (Hw & Hp & Hs).
  pose proof Hw as (Hj & _ & Hl).
  assert (Hstep : ∀ e, wguarded s e = true →
            webgl_inv (step s e) ∧ pages_inv (step s e) ∧ scene_inv (step s e)).
  { intros e He. split; [by apply step_webgl_inv|]. split; [by apply step_pages_inv|].
    by apply step_scene_inv. }
  destruct i as [e|hit|touches hit].
  - by apply Hstep.
  - destruct (wstep_input_cases s (MouseDown hit)) as [->|(e & -> & He)];
      [by rewrite webgl_runJobs_no_jobs|by apply Hstep].
  - destruct (wstep_input_cases s (TouchStartAt touches hit)) as [->|(e & -> & He)];
      [by rewrite webgl_runJobs_no_jobs|by apply Hstep].
Qed.


(** X11: the scene-graph engine has no pages until every image has loaded.
    For every configuration and every sequence of inputs and loader events:
    once the aggregate load is fulfilled there is one page and one texture
    per media item, and [getCurrentPage] reports that many pages; until then,
    and for good after a failed load, there is no page, [getCurrentPage]
    reports page 0 of 0, and [nextPage], [prevPage] and [goToPage] change
    nothing; the promise of [goToPage(NaN)] is rejected then, every other
    promise is fulfilled. *)
Theorem webgl_pages_exist_once_loaded (cfg : FlipbookConfig) (inputs : list Input) :
  let s := wafter_inputs cfg inputs in
  if is_fulfilled (allLoaded s)
  then length (pages s) = length (images_of cfg)
       ∧ length (textures s) = length (images_of cfg)
       ∧ total (getCurrentPage s) = Z.of_nat (length (images_of cfg))
  else getCurrentPage s = mkPageInfo 0 0 0 0
       ∧ isAnimating s = false
       ∧ nextPage s = (Fulfilled tt, s)
       ∧ prevPage s = (Fulfilled tt, s)
       ∧ (∀ pageIndex, pageIndex ≠ NaN → goToPage pageIndex s = (Fulfilled tt, s))
       ∧ goToPage NaN s = (Rejected TypeError, s).
Proof.
  cbv zeta. destruct (wafter_inputs_inv cfg inputs) as (_ & Hp & Hc).
  unfold pages_inv in Hp. rewrite Hc in Hp.
  destruct (is_fulfilled (allLoaded (wafter_inputs cfg inputs))).
  - destruct Hp as [Hp Ht]. unfold getCurrentPage. simpl. by rewrite Hp.
  - destruct Hp as (Hp & _ & Hcur & Hfl & _).
    unfold getCurrentPage, nextPage, prevPage, goToPage. rewrite Hp, Hcur, Hfl. simpl.
    change (Number.geb 0 (Z.of_nat 0 - 1)) with true. change (Number.leb 0 0) with true.
    split; [done|]. split; [done|]. split; [done|]. split; [done|]. split; [|done].
    intros k Hk. change (Z.of_nat 0) with 0.
    by rewrite (ltb_or_geb k 0 Hk).
Qed.

(** X12: which pages are visible.  For every configuration and every
    sequence of inputs and loader events in which direct jumps are made
    between flips and to integers: the position is an integer, that of a
    page as soon as there are pages; at rest the page at the position is the
    only visible one; during a flip exactly the page at the position and the
    page the flip leads to are visible. *)
Theorem webgl_visible_pages (cfg : FlipbookConfig) (inputs : list Input) :
  inputs_guarded (constructor cfg) inputs = true →
  let s := wafter_inputs cfg inputs in
  ∃ cur, currentPage s = Int cur
  ∧ (pages s ≠ [] → 0 <= cur < Z.of_nat (length (pages s)))
  ∧ (isAnimating s = false →
     ∀ i m, pages s !! i = Some m → (visible m = true ↔ Z.of_nat i = cur))
  ∧ (isAnimating s = true →
     ∃ tl, timelines s = [tl]
       ∧ ∀ i m, pages s !! i = Some m →
           (visible m = true ↔
            Z.of_nat i = cur
            ∨ Z.of_nat i = match tl_direction tl with
                           | forward => cur + 1
                           | back => cur - 1
                           end)).
Proof.
  intros Hg. cbv zeta. pose proof (wafter_inputs_scene cfg inputs Hg) as Hs.
  set (s := wafter_inputs cfg inputs) in *.
  assert (Hvis : ∀ i m, pages s !! i = Some m → visibility s !! i = Some (visible m)).
  { intros i m Hi. unfold visibility. by rewrite list_lookup_fmap, Hi. }
  destruct Hs as (cur & Hcur & Hge & Hlt & H). exists cur.
  split; [done|]. split; [|split].
  - intros Hne. destruct Hlt as [Hlt|[Hz _]]; [lia|].
    destruct (pages s); [done|simpl in Hz; lia].
  - intros Hfl.
    destruct (timelines s) as [|tl [|? ?]]; [|destruct H; congruence|done].
    destruct H as [_ H]. intros i m Hi. by apply H, Hvis.
  - intros Hfl.
    destruct (timelines s) as [|tl [|? ?]]; [destruct H; congruence| |done].
    exists tl. split; [done|]. destruct H as (_ & _ & H).
    intros i m Hi. destruct (tl_direction tl); destruct H as [_ H]; by apply H, Hvis.
Qed.

(** X12 for a three-page book during its first flip: pages 0 and 1 are
    visible, page 2 is not. *)
Lemma webgl_visible_pages_witness :
  let s := wafter_inputs book3
             [Live (TextureLoad 0 (Some (800, 600))); Live (TextureLoad 1 (Some (800, 600)));
              Live (TextureLoad 2 (Some (800, 600))); MouseDown (Some (Some (3 # 4)))] in
  ∃ cur, currentPage s = Int cur
  ∧ (pages s ≠ [] → 0 <= cur < Z.of_nat (length (pages s)))
  ∧ (isAnimating s = false →
     ∀ i m, pages s !! i = Some m → (visible m = true ↔ Z.of_nat i = cur))
  ∧ (isAnimating s = true →
     ∃ tl, timelines s = [tl]
       ∧ ∀ i m, pages s !! i = Some m →
           (visible m = true ↔
            Z.of_nat i = cur
            ∨ Z.of_nat i = match tl_direction tl with
                           | forward => cur + 1
                           | back => cur - 1
                           end)).
Proof.
  apply (webgl_visible_pages book3
    [Live (TextureLoad 0 (Some (800, 600))); Live (TextureLoad 1 (Some (800, 600)));
     Live (TextureLoad 2 (Some (800, 600))); MouseDown (Some (Some (3 # 4)))]).
  vm_compute. reflexivity.
Defined.

(** X13: navigation between pages never throws.  For every configuration
    and every sequence of inputs and loader events in which direct jumps are
    made between flips and to integers, the promises of [nextPage] and
    [prevPage] are fulfilled, and so is that of [goToPage] for every integer
    when no flip is in progress: no such call reads a page that does not
    exist.  A number that is not an integer and passes the three tests of
    [goToPage] is stored as the position before the call fails on the page
    it does not name: the promise is rejected, and the page that was shown
    is hidden. *)
Theorem webgl_navigation_never_rejects (cfg : FlipbookConfig) (inputs : list Input) :
  inputs_guarded (constructor cfg) inputs = true →
  let s := wafter_inputs cfg inputs in
  fst (nextPage s) = Fulfilled tt
  ∧ fst (prevPage s) = Fulfilled tt
  ∧ (isAnimating s = false →
     ∀ pageIndex : Z, fst (goToPage pageIndex s) = Fulfilled tt)
  ∧ (isAnimating s = false → pages s ≠ [] →
     ∀ pageIndex, is_integer pageIndex = false →
       goToPage pageIndex s = (Fulfilled tt, s)
       ∨ fst (goToPage pageIndex s) = Rejected TypeError
         ∧ currentPage (snd (goToPage pageIndex s)) = pageIndex
         ∧ ∀ i m, pages (snd (goToPage pageIndex s)) !! i = Some m → visible m = false).
Proof.
  intros Hg. cbv zeta. pose proof (wafter_inputs_scene cfg inputs Hg) as Hs.
  split; [by apply nextPage_scene|]. split; [by apply prevPage_scene|].
  split; [intros Hfl k; by apply goToPage_scene|].
  intros Hfl Hne x Hx. set (s := wafter_inputs cfg inputs) in *.
  destruct (scene_inv_idle s Hs Hfl) as (cur & Hcur & Hge & Hlt & Htl & Hvis).
  unfold goToPage. case_match; [by left|]. right.
  assert (Hin : 0 <= cur < Z.of_nat (length (pages s))).
  { destruct Hlt as [?|[Hz _]]; [lia|]. destruct (pages s); [done|simpl in Hz; lia]. }
  rewrite Hcur. destruct (element_in_range (pages s) cur Hin) as [m0 Hm0].
  rewrite Hm0. simpl. rewrite (element_not_integer _ x Hx). simpl.
  split; [done|]. split; [done|].
  intros i m Hi.
  assert (Hv : visibility (set_visible (Z.to_nat cur) false s) !! i = Some (visible m)).
  { unfold visibility. by rewrite list_lookup_fmap, Hi. }
  rewrite visibility_set_visible in Hv.
  apply lookup_insert_cases in Hv as [[-> Hv]|[Hni Hv]]; [done|].
  destruct (visible m) eqn:Hm; [|done].
  apply (Hvis i true) in Hv. destruct Hv as [Hv _]. specialize (Hv eq_refl). lia.
Qed.

(** X13 for a three-page book with its images loaded. *)
Lemma webgl_navigation_never_rejects_witness :
  let s := wafter_inputs book3
             [Live (TextureLoad 0 (Some (800, 600))); Live (TextureLoad 1 (Some (800, 600)));
              Live (TextureLoad 2 (Some (800, 600)))] in
  fst (nextPage s) = Fulfilled tt
  ∧ fst (prevPage s) = Fulfilled tt
  ∧ (isAnimating s = false →
     ∀ pageIndex : Z, fst (goToPage pageIndex s) = Fulfilled tt)
  ∧ (isAnimating s = false → pages s ≠ [] →
     ∀ pageIndex, is_integer pageIndex = false →
       goToPage pageIndex s = (Fulfilled tt, s)
       ∨ fst (goToPage pageIndex s) = Rejected TypeError
         ∧ currentPage (snd (goToPage pageIndex s)) = pageIndex
         ∧ ∀ i m, pages (snd (goToPage pageIndex s)) !! i = Some m → visible m = false).
Proof.
  apply (webgl_navigation_never_rejects book3
    [Live (TextureLoad 0 (Some (800, 600))); Live (TextureLoad 1 (Some (800, 600)));
     Live (TextureLoad 2 (Some (800, 600)))]).
  vm_compute. reflexivity.
Defined.

Lemma wafter_inputs_snoc cfg inputs i :
  wafter_inputs cfg (inputs ++ [i]) = step_input (wafter_inputs cfg inputs) i.
Proof. unfold wafter_inputs, run_inputs. by rewrite fold_left_app. Qed.

Lemma wstep_animating s e :
  jobs s = [] → isAnimating s = true →
  e = CallNextPage ∨ e = CallPrevPage → step s e = s.
Proof.
  intros Hj Hfl [-> | ->]; unfold step; simpl.
  - unfold nextPage. rewrite Hfl. simpl. by apply webgl_runJobs_no_jobs.
  - unfold prevPage. rewrite Hfl. simpl. by apply webgl_runJobs_no_jobs.
Qed.

(** X14: the pointer does what the public methods do.  In every state a
    live engine can reach, a mouse press on a page acts as [prevPage] when
    the point hit lies in the left half of the page ([uv.x < 0.5]) and as
    [nextPage] otherwise, also when the intersection has no texture
    coordinate; a press beside the pages changes nothing; a touch with one
    finger acts as a mouse press at the same point, and a touch with any
    other number of fingers changes nothing. *)
Theorem webgl_pointer_acts_as_public_methods
  (cfg : FlipbookConfig) (inputs : list Input) :
  let after i := wafter_inputs cfg (inputs ++ [i]) in
  (∀ x, (x < 1 # 2)%Q → after (MouseDown (Some (Some x))) = after (Live CallPrevPage))
  ∧ (∀ x, (1 # 2 <= x)%Q → after (MouseDown (Some (Some x))) = after (Live CallNextPage))
  ∧ after (MouseDown (Some None)) = after (Live CallNextPage)
  ∧ after (MouseDown None) = wafter_inputs cfg inputs
  ∧ (∀ hit, after (TouchStartAt 1 hit) = after (MouseDown hit))
  ∧ (∀ touches hit, touches ≠ 1%nat →
       after (TouchStartAt touches hit) = wafter_inputs cfg inputs).
Proof.
  cbv beta zeta.
  destruct (wafter_inputs_inv cfg inputs) as ((Hj & _) & _).
  set (s := wafter_inputs cfg inputs) in *.
  split; [|split; [|split; [|split; [|split]]]].
  - intros x Hx. rewrite !wafter_inputs_snoc. fold s. simpl. unfold onMouseDown.
    destruct (isAnimating s) eqn:Hfl.
    + rewrite webgl_runJobs_no_jobs by done. symmetry. apply wstep_animating; auto.
    + simpl. destruct (Qlt_le_dec x (1 # 2)) as [?|Hge]; [done|].
      exfalso. exact (Qlt_not_le _ _ Hx Hge).
  - intros x Hx. rewrite !wafter_inputs_snoc. fold s. simpl. unfold onMouseDown.
    destruct (isAnimating s) eqn:Hfl.
    + rewrite webgl_runJobs_no_jobs by done. symmetry. apply wstep_animating; auto.
    + simpl. destruct (Qlt_le_dec x (1 # 2)) as [Hlt|?]; [|done].
      exfalso. exact (Qlt_not_le _ _ Hlt Hx).
  - rewrite !wafter_inputs_snoc. fold s. simpl. unfold onMouseDown.
    destruct (isAnimating s) eqn:Hfl; [|done].
    rewrite webgl_runJobs_no_jobs by done. symmetry. apply wstep_animating; auto.
  - rewrite !wafter_inputs_snoc. fold s. simpl. unfold onMouseDown.
    destruct (isAnimating s); by apply webgl_runJobs_no_jobs.
  - intros hit. rewrite !wafter_inputs_snoc. fold s. simpl.
    unfold onTouchStart, onMouseDown. simpl. by rewrite orb_false_r.
  - intros n hit Hn. rewrite !wafter_inputs_snoc. fold s. simpl. unfold onTouchStart.
    apply Nat.eqb_neq in Hn. rewrite Hn. simpl. rewrite orb_true_r.
    by apply webgl_runJobs_no_jobs.
Qed.


Lemma wafter_inputs_tex cfg inputs : tex_inv (wafter_inputs cfg inputs).
Proof.
  unfold wafter_inputs, run_inputs.
  assert (H0 : webgl_inv (constructor cfg) ∧ tex_inv (constructor cfg)).
  { split; [apply constructor_webgl_inv|apply constructor_tex_inv]. }
  revert H0. generalize (constructor cfg).
  induction inputs as [|i inputs IH]; intros s H; [by destruct H|].
  simpl. apply IH. destruct H as (Hw & Ht). pose proof Hw as (Hj & _).
  destruct (wstep_input_cases s i) as [->|(e & -> & _)].
  - by rewrite webgl_runJobs_no_jobs.
  - split; [by apply step_webgl_inv|by apply step_tex_inv].
Qed.

Lemma run_inputs_settled inputs : ∀ s i p,
  webgl_inv s → loadPromises s !! i = Some p → p ≠ Pending →
  loadPromises (run_inputs s inputs) !! i = Some p.
Proof.
  unfold run_inputs.
  induction inputs as [|x inputs IH]; intros s i p Hw Hi Hp; [done|].
  simpl. pose proof Hw as (Hj & _).
  destruct (wstep_input_cases s x) as [->|(e & -> & _)].
  - rewrite webgl_runJobs_no_jobs by done. by apply IH.
  - apply IH; [by apply step_webgl_inv| |done]. by apply wstep_settled.
Qed.

(** X22: page [i] gets the texture of media item [i], whatever the order in
    which the textures arrive.  For every configuration and every sequence
    of inputs and loader events: when the texture of item [i] arrives, with
    positive dimensions and while the load of this item is pending, then
    whatever happens before and afterwards, once the aggregate load is
    fulfilled the texture at position [i] is the one that arrived for item
    [i], with its dimensions and their ratio. *)
Theorem webgl_textures_follow_media_order
  (cfg : FlipbookConfig) (pre post : list Input) (i : nat) (imagePath : string)
  (width height : Z) :
  images_of cfg !! i = Some imagePath →
  loadPromises (wafter_inputs cfg pre) !! i = Some Pending →
  0 < width → 0 < height →
  let s := wafter_inputs cfg
             (pre ++ Live (TextureLoad i (Some (width, height))) :: post) in
  is_fulfilled (allLoaded s) = true →
  textures s !! i = Some (mkPageTexture (ratio width height) (width, height)).
Proof.
  intros Hsrc Hp Hw Hh. cbv zeta. intros Hall.
  pose proof (wafter_inputs_tex cfg
    (pre ++ Live (TextureLoad i (Some (width, height))) :: post)) as Ht.
  unfold tex_inv in Ht.
  destruct (allLoaded _) as [|vs|]; try done. destruct Ht as [Htex Hlp].
  assert (Hi : loadPromises (wafter_inputs cfg
             (pre ++ Live (TextureLoad i (Some (width, height))) :: post)) !! i
           = Some (Fulfilled (mkPageTexture (ratio width height) (width, height)))).
  { destruct (wafter_inputs_inv cfg pre) as (Hinv & _ & Hcfg).
    replace (wafter_inputs cfg (pre ++ Live (TextureLoad i (Some (width, height))) :: post))
      with (run_inputs (step (wafter_inputs cfg pre) (TextureLoad i (Some (width, height))))
              post)
      by (unfold wafter_inputs, run_inputs; by rewrite fold_left_app).
    apply run_inputs_settled; [by apply step_webgl_inv| |done].
    apply (step_texture_delivered _ i imagePath); [by rewrite Hcfg|done|lia|lia]. }
  rewrite Hlp, list_lookup_fmap in Hi. rewrite Htex.
  destruct (vs !! i); simpl in Hi; congruence.
Qed.

(** X22 for a three-page book whose last texture arrives first. *)
Lemma webgl_textures_follow_media_order_witness :
  let s := wafter_inputs book3
             ([Live (TextureLoad 2 (Some (1024, 768)))]
              ++ Live (TextureLoad 0 (Some (800, 600)))
              :: [Live (TextureLoad 1 (Some (640, 480)))]) in
  is_fulfilled (allLoaded s) = true
  ∧ textures s !! 0%nat = Some (mkPageTexture (ratio 800 600) (800, 600)).
Proof.
  split; [vm_compute; reflexivity|].
  apply (webgl_textures_follow_media_order book3
           [Live (TextureLoad 2 (Some (1024, 768)))]
           [Live (TextureLoad 1 (Some (640, 480)))] 0 "A" 800 600).
  - reflexivity.
  - vm_compute. reflexivity.
  - reflexivity.
  - reflexivity.
  - vm_compute. reflexivity.
Defined.

End WebGLBehaviour.

(** * The configuration objects of the facade *)

Section CoreConfig.
Import Config.

Lemma mergeConfig_lookup_other d u k :
  k ≠ "animation" → k ≠ "navigation" → k ≠ "theme" → k ≠ "loading" →
  mergeConfig d u !! k = (u ∪ d) !! k.
Proof.
  intros H1 H2 H3 H4. unfold mergeConfig, spread. cbv zeta.
  by rewrite !lookup_insert_ne by congruence.
Qed.

Lemma mergeConfig_animation d u :
  get (mergeConfig d u) "animation" =
  VObject (props (get u "animation") ∪ props (get d "animation")).
Proof.
  unfold get at 1, mergeConfig, spread. cbv zeta.
  rewrite lookup_insert_ne by done. rewrite lookup_insert_ne by done.
  rewrite lookup_insert_ne by done. by rewrite lookup_insert_eq.
Qed.

Lemma mergeConfig_navigation d u :
  get (mergeConfig d u) "navigation" =
  VObject (props (get u "navigation") ∪ props (get d "navigation")).
Proof.
  unfold get at 1, mergeConfig, spread. cbv zeta.
  rewrite lookup_insert_ne by done. rewrite lookup_insert_ne by done.
  by rewrite lookup_insert_eq.
Qed.

Lemma mergeConfig_loading d u :
  get (mergeConfig d u) "loading" =
  VObject (props (get u "loading") ∪ props (get d "loading")).
Proof. unfold get at 1, mergeConfig, spread. cbv zeta. by rewrite lookup_insert_eq. Qed.

Lemma mergeConfig_theme d u :
  get (mergeConfig d u) "theme" =
  VObject
    (<["spine" := VObject (props (get_opt (get u "theme") "spine")
                           ∪ props (get_opt (get d "theme") "spine"))]>
       (<["pageShadow" := VObject (props (get_opt (get u "theme") "pageShadow")
                                   ∪ props (get_opt (get d "theme") "pageShadow"))]>
          (props (get u "theme") ∪ props (get d "theme")))).
Proof.
  unfold get at 1, mergeConfig, spread. cbv zeta.
  rewrite lookup_insert_ne by done. by rewrite lookup_insert_eq.
Qed.

(** A section of a merged configuration is present. *)
Lemma mergeConfig_section_lookup d u k :
  k = "animation" ∨ k = "navigation" ∨ k = "theme" ∨ k = "loading" →
  mergeConfig d u !! k = Some (get (mergeConfig d u) k).
Proof.
  intros Hk. unfold get.
  cut (is_Some (mergeConfig d u !! k)); [by intros [v Hv]; rewrite Hv|].
  unfold mergeConfig, spread. cbv zeta.
  destruct Hk as [-> | [-> | [-> | ->]]].
  - rewrite !lookup_insert_ne by done. rewrite lookup_insert_eq. by eexists.
  - rewrite !lookup_insert_ne by done. rewrite lookup_insert_eq. by eexists.
  - rewrite !lookup_insert_ne by done. rewrite lookup_insert_eq. by eexists.
  - rewrite lookup_insert_eq. by eexists.
Qed.

Lemma theme_field d u k :
  get_opt (get (mergeConfig d u) "theme") k =
  if decide (k = "spine")
  then VObject (props (get_opt (get u "theme") "spine")
                ∪ props (get_opt (get d "theme") "spine"))
  else if decide (k = "pageShadow")
  then VObject (props (get_opt (get u "theme") "pageShadow")
                ∪ props (get_opt (get d "theme") "pageShadow"))
  else get (props (get u "theme") ∪ props (get d "theme")) k.
Proof.
  rewrite mergeConfig_theme. unfold get_opt, get at 1.
  destruct (decide (k = "spine")) as [->|Hs]; [by rewrite lookup_insert_eq|].
  rewrite lookup_insert_ne by done.
  destruct (decide (k = "pageShadow")) as [->|Hp]; [by rewrite lookup_insert_eq|].
  by rewrite lookup_insert_ne by done.
Qed.

Lemma get_union (a b : Object) k :
  get (a ∪ b) k = match a !! k with Some v => v | None => get b k end.
Proof. unfold get. rewrite lookup_union. by destruct (a !! k), (b !! k). Qed.

Lemma mergeConfig_assoc (c a b : Object) :
  mergeConfig (mergeConfig c a) b = mergeConfig c (mergeConfig a b).
Proof.
  apply map_eq. intros k.
  destruct (decide (k = "animation")) as [->|Ha].
  { rewrite !mergeConfig_section_lookup by auto. f_equal.
    rewrite (mergeConfig_animation (mergeConfig c a) b), (mergeConfig_animation c (mergeConfig a b)).
    rewrite !mergeConfig_animation. simpl. by rewrite (assoc_L (∪)). }
  destruct (decide (k = "navigation")) as [->|Hn].
  { rewrite !mergeConfig_section_lookup by auto. f_equal.
    rewrite (mergeConfig_navigation (mergeConfig c a) b), (mergeConfig_navigation c (mergeConfig a b)).
    rewrite !mergeConfig_navigation. simpl. by rewrite (assoc_L (∪)). }
  destruct (decide (k = "loading")) as [->|Hl].
  { rewrite !mergeConfig_section_lookup by auto. f_equal.
    rewrite (mergeConfig_loading (mergeConfig c a) b), (mergeConfig_loading c (mergeConfig a b)).
    rewrite !mergeConfig_loading. simpl. by rewrite (assoc_L (∪)). }
  destruct (decide (k = "theme")) as [->|Ht].
  { rewrite !mergeConfig_section_lookup by auto. f_equal.
    rewrite (mergeConfig_theme (mergeConfig c a) b), (mergeConfig_theme c (mergeConfig a b)).
    rewrite !theme_field. simpl.
    rewrite !mergeConfig_theme. simpl. f_equal.
    apply map_eq. intros f.
    destruct (decide (f = "spine")) as [->|Hs].
    { rewrite !lookup_insert_eq. by rewrite (assoc_L (∪)). }
    rewrite !(lookup_insert_ne _ "spine") by done.
    destruct (decide (f = "pageShadow")) as [->|Hp].
    { rewrite !lookup_insert_eq. by rewrite (assoc_L (∪)). }
    rewrite !(lookup_insert_ne _ "pageShadow") by done.
    rewrite !lookup_union. rewrite !(lookup_insert_ne _ "spine") by done.
    rewrite !(lookup_insert_ne _ "pageShadow") by done.
    rewrite !lookup_union.
    by destruct (props (get b "theme") !! f), (props (get a "theme") !! f),
                (props (get c "theme") !! f). }
  rewrite !mergeConfig_lookup_other by done.
  rewrite !lookup_union. rewrite !mergeConfig_lookup_other by done.
  rewrite !lookup_union.
  by destruct (b !! k), (a !! k), (c !! k).
Qed.

Lemma mergeConfig_empty (c a : Object) :
  mergeConfig (mergeConfig c a) ∅ = mergeConfig c a.
Proof.
  apply map_eq. intros k.
  assert (He : ∀ f, props (get (∅ : Object) f) = ∅) by done.
  destruct (decide (k = "animation")) as [->|Ha].
  { rewrite !mergeConfig_section_lookup by auto. f_equal.
    rewrite (mergeConfig_animation (mergeConfig c a) ∅).
    rewrite !mergeConfig_animation. simpl. by rewrite He, (left_id_L ∅ (∪)). }
  destruct (decide (k = "navigation")) as [->|Hn].
  { rewrite !mergeConfig_section_lookup by auto. f_equal.
    rewrite (mergeConfig_navigation (mergeConfig c a) ∅).
    rewrite !mergeConfig_navigation. simpl. by rewrite He, (left_id_L ∅ (∪)). }
  destruct (decide (k = "loading")) as [->|Hl].
  { rewrite !mergeConfig_section_lookup by auto. f_equal.
    rewrite (mergeConfig_loading (mergeConfig c a) ∅).
    rewrite !mergeConfig_loading. simpl. by rewrite He, (left_id_L ∅ (∪)). }
  destruct (decide (k = "theme")) as [->|Ht].
  { rewrite !mergeConfig_section_lookup by auto. f_equal.
    rewrite (mergeConfig_theme (mergeConfig c a) ∅).
    rewrite !theme_field. simpl.
    rewrite !mergeConfig_theme. simpl. f_equal.
    change (get (∅ : Object) "theme") with VUndefined. simpl.
    rewrite !(left_id_L ∅ (∪)).
    apply map_eq. intros f.
    destruct (decide (f = "spine")) as [->|Hs]; [by rewrite !lookup_insert_eq|].
    destruct (decide (f = "pageShadow")) as [->|Hp].
    { rewrite !(lookup_insert_ne _ "spine" "pageShadow") by done.
      rewrite !lookup_insert_eq. done. }
    by rewrite !lookup_insert_ne by done. }
  rewrite mergeConfig_lookup_other by done.
  by rewrite (left_id_L ∅ (∪)).
Qed.

(** X16: two updates of the configuration amount to one, and an empty
    update changes nothing.  For all configuration objects [c], [a] and [b]:
    [updateConfig(a)] followed by [updateConfig(b)] leaves the configuration
    that one call of [updateConfig] with [b] merged into [a] would leave, at
    every level of nesting; and [updateConfig({})] leaves a configuration
    that was produced by a merge as it is. *)
Theorem updateConfig_twice_is_once (c a b : Object) :
  updateConfig b (updateConfig a c) = updateConfig (mergeConfig a b) c
  ∧ updateConfig ∅ (mergeConfig c a) = mergeConfig c a.
Proof.
  unfold updateConfig. split; [apply mergeConfig_assoc|apply mergeConfig_empty].
Qed.

Lemma defaultConfig_no_container : defaultConfig !! "container" = None.
Proof. vm_compute. reflexivity. Qed.

Lemma defaultConfig_no_media : defaultConfig !! "media" = None.
Proof. vm_compute. reflexivity. Qed.

Lemma defaultConfig_renderMode : defaultConfig !! "renderMode" = Some (VString "css").
Proof. vm_compute. reflexivity. Qed.

(** X17: what [validateConfig] accepts of the configuration that the
    constructor of the facade merges from the defaults and the user's
    object, and which engine class the constructor then instantiates.  For
    every user configuration and whether or not the browser supports WebGL,
    the outcome only depends on the user's own [container], [media] and
    [renderMode] (the defaults provide neither a container nor a media
    source): a missing, undefined or empty container gives the error
    [Container element is required]; otherwise a missing [media] or a falsy
    [media.src] gives [Media source is required], so that an empty string is
    refused while an empty array is accepted; otherwise [validateConfig]
    returns, and the class instantiated is the scene-graph engine exactly
    when the user asked for [webgl] and WebGL is supported, and the layered
    engine in every other case, the render mode of the configuration being
    reset to [css] when WebGL was asked for and is missing. *)
Theorem validateConfig_outcome (userConfig : Object) (webglSupported : bool) :
  let merged := mergeConfig defaultConfig userConfig in
  let asked :=
    match userConfig !! "renderMode" with
    | Some v => v
    | None => VString "css"
    end in
  validateConfig merged webglSupported =
  (if negb (truthy (get userConfig "container")) then
     inl "Container element is required"
   else if negb (truthy (get userConfig "media"))
           || negb (truthy (get_opt (get userConfig "media") "src")) then
     inl "Media source is required"
   else if is_string asked "webgl" && negb webglSupported then
     inr (<["renderMode" := VString "css"]> merged)
   else inr merged)
  ∧ ∀ validated, validateConfig merged webglSupported = inr validated →
      engineClass validated =
      if is_string asked "webgl" && webglSupported then UseWebGLEngine else UseCSSEngine.
Proof.
  cbv zeta. unfold validateConfig, engineClass.
  assert (Hc : get (mergeConfig defaultConfig userConfig) "container" = get userConfig "container").
  { unfold get. rewrite mergeConfig_lookup_other by done.
    rewrite lookup_union, defaultConfig_no_container.
    by destruct (userConfig !! "container"). }
  assert (Hm : get (mergeConfig defaultConfig userConfig) "media" = get userConfig "media").
  { unfold get. rewrite mergeConfig_lookup_other by done.
    rewrite lookup_union, defaultConfig_no_media.
    by destruct (userConfig !! "media"). }
  assert (Hr : get (mergeConfig defaultConfig userConfig) "renderMode" =
               match userConfig !! "renderMode" with Some v => v | None => VString "css" end).
  { unfold get. rewrite mergeConfig_lookup_other by done.
    rewrite lookup_union, defaultConfig_renderMode.
    by destruct (userConfig !! "renderMode"). }
  rewrite Hc, Hm, Hr.
  destruct (negb (truthy (get userConfig "container"))); [done|].
  destruct (negb (truthy (get userConfig "media"))
            || negb (truthy (get_opt (get userConfig "media") "src"))); [done|].
  destruct (is_string _ "webgl") eqn:Hw.
  - destruct webglSupported; simpl.
    + split; [done|]. intros v [= <-]. by rewrite Hr, Hw.
    + split; [done|]. intros v [= <-]. unfold get. by rewrite lookup_insert_eq.
  - simpl. split; [done|]. intros v [= <-]. by rewrite Hr, Hw.
Qed.

(** X18: the user's value wins, field by field, and every other field keeps
    its default.  For all objects [defaults] and [userConfig], reading a
    field of the merged configuration gives the user's value when the user's
    object has the field, also when that value is [undefined], and the
    default otherwise: at the top level, inside [animation], [navigation],
    [loading] and [theme], and inside [theme.pageShadow] and
    [theme.spine]. *)
Theorem mergeConfig_user_value_wins (defaults userConfig : Object) :
  let merged := mergeConfig defaults userConfig in
  (∀ k, k ≠ "animation" → k ≠ "navigation" → k ≠ "theme" → k ≠ "loading" →
     get merged k =
     match userConfig !! k with Some v => v | None => get defaults k end)
  ∧ (∀ section field,
       section = "animation" ∨ section = "navigation" ∨ section = "loading" →
       get_opt (get merged section) field =
       match props (get userConfig section) !! field with
       | Some v => v
       | None => get_opt (get defaults section) field
       end)
  ∧ (∀ field, field ≠ "pageShadow" → field ≠ "spine" →
       get_opt (get merged "theme") field =
       match props (get userConfig "theme") !! field with
       | Some v => v
       | None => get_opt (get defaults "theme") field
       end)
  ∧ (∀ part field, part = "pageShadow" ∨ part = "spine" →
       get_opt (get_opt (get merged "theme") part) field =
       match props (get_opt (get userConfig "theme") part) !! field with
       | Some v => v
       | None => get_opt (get_opt (get defaults "theme") part) field
       end).
Proof.
  cbv zeta.
  assert (Hget : ∀ v f, get (props v) f = get_opt v f) by (by intros []).
  split; [|split; [|split]].
  - intros k H1 H2 H3 H4. unfold get at 1.
    rewrite mergeConfig_lookup_other, lookup_union by done.
    unfold get. by destruct (userConfig !! k), (defaults !! k).
  - intros section field [-> | [-> | ->]].
    + rewrite mergeConfig_animation. simpl. rewrite get_union. by rewrite Hget.
    + rewrite mergeConfig_navigation. simpl. rewrite get_union. by rewrite Hget.
    + rewrite mergeConfig_loading. simpl. rewrite get_union. by rewrite Hget.
  - intros field Hp Hs. rewrite theme_field.
    rewrite decide_False by done. rewrite decide_False by done.
    rewrite get_union. by rewrite Hget.
  - intros part field [-> | ->]; rewrite theme_field; simpl.
    + rewrite get_union. by rewrite Hget.
    + rewrite get_union. by rewrite Hget.
Qed.

End CoreConfig.

(** * The media type of a locator *)

Section CoreMedia.
Import Config.

Lemma split_dot_no_dot ext : has_dot ext = false → split_dot ext = [ext].
Proof.
  induction ext as [|c ext IH]; simpl; [done|].
  intros H. apply orb_false_elim in H as [Hc Hext]. rewrite Hc, (IH Hext). done.
Qed.

Lemma split_dot_app base ext :
  has_dot ext = false →
  ∃ seg init,
    split_dot (String.append base (String "."%char ext)) = seg :: init ++ [ext].
Proof.
  intros Hext. induction base as [|c base (seg & init & IH)].
  - change (String.append "" (String "."%char ext)) with (String "."%char ext).
    exists EmptyString, []. simpl. by rewrite (split_dot_no_dot ext Hext).
  - change (String.append (String c base) (String "."%char ext))
      with (String c (String.append base (String "."%char ext))).
    cbn [split_dot]. rewrite IH. destruct (Ascii.eqb c "."%char).
    + exists EmptyString, (seg :: init). done.
    + exists (String c seg), init. done.
Qed.

(** X19: the media type is read off the characters after the last dot,
    whatever their case.  For every locator [base.ext] whose last segment
    [ext] contains no dot, [detectMediaType] answers for the lower-case form
    of [ext]: [pdf] for [pdf], [image] for [jpg], [jpeg], [png], [gif],
    [webp], [bmp] and [svg], and [url] for anything else; what precedes the
    last dot does not matter, and a locator without any dot is taken as an
    extension in whole, so that the bare word [pdf] is a PDF. *)
Theorem detectMediaType_reads_last_extension (base ext : string) :
  has_dot ext = false →
  detectMediaType (String.append base (String "."%char ext))
  = type_of_extension (toLowerCase ext)
  ∧ detectMediaType ext = type_of_extension (toLowerCase ext).
Proof.
  intros Hext. unfold detectMediaType, type_of_extension. split.
  - destruct (split_dot_app base ext Hext) as (seg & init & ->).
    rewrite app_comm_cons, last_snoc. done.
  - rewrite (split_dot_no_dot ext Hext). done.
Qed.

(** X19 for an upper-case extension after a path with dots. *)
Lemma detectMediaType_reads_last_extension_witness :
  detectMediaType (String.append "https://example.org/v1.2/Book" (String "."%char "PDF"))
  = type_of_extension (toLowerCase "PDF")
  ∧ detectMediaType "PDF" = type_of_extension (toLowerCase "PDF").
Proof.
  apply (detectMediaType_reads_last_extension "https://example.org/v1.2/Book" "PDF").
  reflexivity.
Defined.

End CoreMedia.

(** * Listeners *)

(** X21: [dispose] takes off every listener that the constructor put on.
    For the layered engine and every value of the flags
    [navigation.keyboard] and [responsive], and for the scene-graph engine
    and every value of [navigation.click], [navigation.touch] and
    [responsive], the listeners registered by [bindEvents] on the window and
    on the container are all removed by [dispose].  The scene-graph engine
    registers nothing at all when [navigation.click] is off, not even the
    resize listener of a responsive book. *)
Theorem dispose_removes_the_listeners :
  (∀ keyboard responsive,
     CSSEngine.dispose_listeners keyboard responsive
       (CSSEngine.bindEvents keyboard responsive ∅) = ∅)
  ∧ (∀ click touch responsive,
       WebGLEngine.dispose_listeners
         (WebGLEngine.bindEvents click touch responsive ∅) = ∅)
  ∧ (∀ touch responsive, WebGLEngine.bindEvents false touch responsive ∅ = ∅).
Proof.
  split; [|split].
  - intros [] []; unfold CSSEngine.dispose_listeners, CSSEngine.bindEvents; set_solver.
  - intros [] [] []; unfold WebGLEngine.dispose_listeners, WebGLEngine.bindEvents;
      simpl; set_solver.
  - done.
Qed.

(** * Preloading images *)

Section PreloadImages.
Import Preload.

Lemma preloadImages_inv srcs : preload_inv (preloadImages srcs).
Proof.
  unfold preloadImages, preload_inv. simpl. rewrite length_map. split; [done|].
  destruct srcs as [|a l]; simpl.
  - split; [done|]. by intros [|i] p.
  - split; [by exists 0%nat|]. intros [|i] m; simpl; [done|].
    rewrite list_lookup_fmap. by destruct (l !! i).
Qed.

Lemma step_sources s e : sources (step s e) = sources s.
Proof.
  destruct e as [i|i]; simpl.
  - unfold img_onload. by repeat case_match.
  - unfold img_onerror. by repeat case_match.
Qed.

Lemma step_preload_inv s e : preload_inv s → preload_inv (step s e).
Proof.
  intros [Hlen Hinv]. destruct e as [i|i]; simpl.
  - unfold img_onload.
    destruct (loadPromises s !! i) as [[|[]|m]|] eqn:Hp; try (by split).
    unfold preload_inv. simpl. rewrite length_insert. split; [done|].
    destruct (allLoaded s) as [|vs|m] eqn:Hall.
    + destruct Hinv as [_ Hnr].
      destruct (forallb is_fulfilled (<[i:=Fulfilled ()]> (loadPromises s))) eqn:Hf.
      * split.
        -- rewrite fulfilled_values_length by done. by rewrite length_insert.
        -- by apply forallb_fulfilled_lookup.
      * split.
        -- apply forallb_fulfilled_false in Hf as (j & p & Hj & Hpj).
           exists j. destruct (decide (i = j)) as [->|Hij].
           ++ rewrite list_lookup_insert_eq in Hj by (by eapply lookup_lt_Some).
              injection Hj as <-. discriminate Hpj.
           ++ rewrite list_lookup_insert_ne in Hj by done.
              destruct p as [| |m];
                [by rewrite list_lookup_insert_ne|done|by destruct (Hnr _ _ Hj)].
        -- intros j m Hj. destruct (decide (i = j)) as [->|Hij].
           ++ rewrite list_lookup_insert_eq in Hj by (by eapply lookup_lt_Some). done.
           ++ rewrite list_lookup_insert_ne in Hj by done. by destruct (Hnr _ _ Hj).
    + destruct Hinv as [Hvs Hf]. by apply Hf in Hp.
    + destruct Hinv as (j & src & Hsrc & -> & Hj). exists j, src.
      split; [done|]. split; [done|].
      rewrite list_lookup_insert_ne; [done|]. intros ->. congruence.
  - unfold img_onerror.
    destruct (sources s !! i) as [src|] eqn:Hsrc; [|by split].
    destruct (loadPromises s !! i) as [[|[]|m]|] eqn:Hp; try (by split).
    unfold preload_inv. simpl. rewrite length_insert. split; [done|].
    destruct (allLoaded s) as [|vs|m] eqn:Hall.
    + exists i, src. split; [done|]. split; [done|].
      apply list_lookup_insert_eq. by eapply lookup_lt_Some.
    + destruct Hinv as [Hvs Hf]. by apply Hf in Hp.
    + destruct Hinv as (j & src' & Hsrc' & -> & Hj). exists j, src'.
      split; [done|]. split; [done|].
      rewrite list_lookup_insert_ne; [done|]. intros ->. congruence.
Qed.

Lemma run_preload_snoc s trace e : run s (trace ++ [e]) = step (run s trace) e.
Proof. unfold run. by rewrite fold_left_app. Qed.

Lemma run_preload_inv srcs trace :
  preload_inv (run (preloadImages srcs) trace)
  ∧ sources (run (preloadImages srcs) trace) = srcs.
Proof.
  induction trace as [|e trace [IH1 IH2]] using rev_ind.
  - split; [apply preloadImages_inv|done].
  - rewrite run_preload_snoc. split; [by apply step_preload_inv|].
    by rewrite step_sources.
Qed.

(** An image that has fired no event is pending, and without an error event
    no promise is rejected. *)
Lemma run_preload_untouched srcs trace i :
  (i < length srcs)%nat → ImageLoad i ∉ trace → ImageError i ∉ trace →
  loadPromises (run (preloadImages srcs) trace) !! i = Some Pending.
Proof.
  intros Hi. induction trace as [|e trace IH] using rev_ind; intros Hl He.
  - simpl. rewrite list_lookup_fmap.
    destruct (lookup_lt_is_Some_2 srcs i Hi) as [x ->]. done.
  - rewrite run_preload_snoc.
    rewrite not_elem_of_app in Hl, He. destruct Hl as [Hl Hl'], He as [He He'].
    specialize (IH Hl He).
    rewrite list_elem_of_singleton in Hl', He'.
    destruct e as [j|j]; simpl.
    + unfold img_onload. repeat case_match; try done; simpl;
        (rewrite list_lookup_insert_ne; [done|congruence]).
    + unfold img_onerror. repeat case_match; try done; simpl;
        (rewrite list_lookup_insert_ne; [done|congruence]).
Qed.

Lemma run_preload_no_error srcs trace :
  (∀ j, ImageError j ∉ trace) →
  ∀ i m, loadPromises (run (preloadImages srcs) trace) !! i ≠ Some (Rejected m).
Proof.
  induction trace as [|e trace IH] using rev_ind; intros Hne i m.
  - simpl. rewrite list_lookup_fmap. by destruct (srcs !! i).
  - rewrite run_preload_snoc.
    assert (Hne' : ∀ j, ImageError j ∉ trace).
    { intros j Hj. apply (Hne j). apply elem_of_app. by left. }
    specialize (IH Hne').
    destruct e as [j|j]; simpl.
    + unfold img_onload.
      destruct (loadPromises (run (preloadImages srcs) trace) !! j) as [[|[]|]|];
        try apply IH.
      simpl. destruct (decide (j = i)) as [->|Hij].
      * intros Hi. apply lookup_lt_Some in Hi as Hlt. rewrite length_insert in Hlt.
        by rewrite list_lookup_insert_eq in Hi.
      * rewrite list_lookup_insert_ne by done. apply IH.
    + destruct (Hne j). apply elem_of_app. right. by apply list_elem_of_singleton.
Qed.

Lemma run_preload_rejected_stable s trace m :
  allLoaded s = Rejected m → allLoaded (run s trace) = Rejected m.
Proof.
  revert s. induction trace as [|e trace IH]; intros s Hs; [done|].
  simpl. apply IH. destruct e as [j|j]; simpl.
  - unfold img_onload. repeat case_match; try done; simpl in *; congruence.
  - unfold img_onerror. repeat case_match; try done; simpl in *; congruence.
Qed.

(** X23: what the promise of [preloadImages] tells.  For every list of
    sources and every sequence of load and error events of its images: the
    promise is pending as long as an image has fired no event and none has
    failed; it is fulfilled, with one value per source, only when every
    image has loaded (at once for no source at all); and it is rejected with
    [Failed to load: src] for a source [src] whose image has failed.  The
    failure that comes first in time decides: when the image of source [i]
    fails before any other image has failed, the promise is rejected with the
    error of source [i], whatever happens afterwards. *)
Theorem preloadImages_outcome (srcs : list string) :
  (∀ trace,
     let s := run (preloadImages srcs) trace in
     match allLoaded s with
     | Pending =>
         (∃ i, loadPromises s !! i = Some Pending)
         ∧ ∀ i m, loadPromises s !! i ≠ Some (Rejected m)
     | Fulfilled vs =>
         length vs = length srcs
         ∧ loadPromises s = map (λ _, Fulfilled tt) srcs
     | Rejected m =>
         ∃ i src, srcs !! i = Some src
           ∧ m = ("Failed to load: " ++ src)%string
           ∧ loadPromises s !! i = Some (Rejected m)
     end)
  ∧ (∀ pre i src post,
       srcs !! i = Some src →
       (∀ j, ImageError j ∉ pre) → ImageLoad i ∉ pre →
       allLoaded (run (preloadImages srcs) (pre ++ ImageError i :: post)) =
       Rejected ("Failed to load: " ++ src)%string).
Proof.
  split.
  - intros trace. cbv zeta.
    destruct (run_preload_inv srcs trace) as [[Hlen Hinv] Hsrc].
    rewrite Hsrc in *.
    destruct (allLoaded (run (preloadImages srcs) trace)) as [|vs|m]; [done| |done].
    destruct Hinv as [Hvs Hf]. split; [done|].
    apply list_eq. intros i. rewrite list_lookup_fmap.
    destruct (loadPromises (run (preloadImages srcs) trace) !! i) as [p|] eqn:Hp.
    + destruct (lookup_lt_is_Some_2 srcs i) as [x ->].
      { rewrite <- Hlen. by eapply lookup_lt_Some. }
      specialize (Hf _ _ Hp). by destruct p as [|[]|].
    + apply lookup_ge_None in Hp. rewrite Hlen in Hp.
      apply lookup_ge_None in Hp. by rewrite Hp.
  - intros pre i src post Hsrc Hne Hnl.
    unfold run. rewrite fold_left_app. simpl. apply run_preload_rejected_stable.
    fold (run (preloadImages srcs) pre).
    destruct (run_preload_inv srcs pre) as [[Hlen Hinv] Hs].
    pose proof (run_preload_untouched srcs pre i
                  ltac:(by eapply lookup_lt_Some) Hnl (Hne i)) as Hp.
    unfold img_onerror. rewrite Hs, Hsrc, Hp. simpl.
    destruct (allLoaded (run (preloadImages srcs) pre)) as [|vs|m]; [done| |].
    + destruct Hinv as [_ Hf]. by apply Hf in Hp.
    + exfalso. destruct Hinv as (j & src' & Hj & -> & Hrej).
      by destruct (run_preload_no_error srcs pre Hne j _ Hrej).
Qed.

End PreloadImages.

(** * The engine that loads its dependencies at run time *)

Section SimpleEngine.
Import SimpleWebGLEngine.

Lemma simple_runJobs_no_jobs s : jobs s = [] → runJobs s = s.
Proof. intros H. unfold runJobs. rewrite H. by destruct s; simpl in *; subst. Qed.

Lemma step_simple_inv s e : simple_inv s → simple_inv (step s e).
Proof.
  intros (He & Hj & Hlen & Hinv). unfold step.
  destruct e as [| |idx| |i|i]; simpl.
  - unfold nextPage. rewrite He. simpl. by rewrite simple_runJobs_no_jobs.
  - unfold prevPage. rewrite He. simpl. by rewrite simple_runJobs_no_jobs.
  - unfold goToPage. rewrite He. simpl. by rewrite simple_runJobs_no_jobs.
  - unfold dispose. rewrite He. by rewrite simple_runJobs_no_jobs.
  - unfold script_onload.
    destruct (scripts s !! i) as [[|[]|m]|] eqn:Hp;
      try (by rewrite simple_runJobs_no_jobs).
    simpl. destruct (allLoaded s) eqn:Hall.
    + destruct (forallb is_fulfilled (<[i:=Fulfilled ()]> (scripts s))) eqn:Hf.
      * unfold runJobs. simpl. rewrite Hj. simpl.
        unfold simple_inv. simpl. rewrite length_insert.
        destruct Hinv as (-> & _ & _).
        split; [done|]. split; [done|]. split; [done|]. split; [done|].
        destruct (scripts s) as [|p [|q [|? ?]]]; try discriminate Hlen.
        destruct i as [|[|i]]; simpl in *; [| |done].
        -- by destruct q as [|[]|].
        -- by destruct p as [|[]|].
      * rewrite simple_runJobs_no_jobs by done.
        unfold simple_inv. simpl. rewrite length_insert, Hall.
        destruct Hinv as (Hc & _ & Hnr).
        split; [done|]. split; [done|]. split; [done|]. split; [done|]. split.
        -- apply forallb_fulfilled_false in Hf as (j & p & Hj' & Hpj).
           exists j. destruct (decide (i = j)) as [->|Hij].
           ++ rewrite list_lookup_insert_eq in Hj' by (by eapply lookup_lt_Some).
              injection Hj' as <-. discriminate Hpj.
           ++ rewrite list_lookup_insert_ne in Hj' by done.
              destruct p as [| |m];
                [by rewrite list_lookup_insert_ne|done|by destruct (Hnr _ _ Hj')].
        -- intros j m Hj'. destruct (decide (i = j)) as [->|Hij].
           ++ rewrite list_lookup_insert_eq in Hj' by (by eapply lookup_lt_Some). done.
           ++ rewrite list_lookup_insert_ne in Hj' by done. by destruct (Hnr _ _ Hj').
    + destruct Hinv as [_ Hs]. rewrite Hs in Hp. by destruct i as [|[|i]].
    + rewrite simple_runJobs_no_jobs by done.
      unfold simple_inv. simpl. rewrite length_insert, Hall.
      destruct Hinv as (Hc & j & m & Hjm).
      split; [done|]. split; [done|]. split; [done|]. split; [done|].
      exists j, m. rewrite list_lookup_insert_ne; [done|]. intros ->. congruence.
  - unfold script_onerror.
    destruct (scripts s !! i) as [[|[]|m]|] eqn:Hp;
      try (by rewrite simple_runJobs_no_jobs).
    simpl. destruct (allLoaded s) eqn:Hall.
    + unfold runJobs. simpl. rewrite Hj. simpl.
      unfold simple_inv. simpl. rewrite length_insert.
      destruct Hinv as (-> & _ & _).
      split; [done|]. split; [done|]. split; [done|]. split; [done|].
      exists i, "error". apply list_lookup_insert_eq. by eapply lookup_lt_Some.
    + destruct Hinv as [_ Hs]. rewrite Hs in Hp. by destruct i as [|[|i]].
    + rewrite simple_runJobs_no_jobs by done.
      unfold simple_inv. simpl. rewrite length_insert, Hall.
      destruct Hinv as (Hc & j & m & Hjm).
      split; [done|]. split; [done|]. split; [done|]. split; [done|].
      exists j, m. rewrite list_lookup_insert_ne; [done|]. intros ->. congruence.
Qed.

Lemma run_simple_inv trace : simple_inv (run constructor trace).
Proof.
  induction trace as [|e trace IH] using rev_ind.
  - unfold simple_inv. simpl. split; [done|]. split; [done|]. split; [done|].
    split; [done|]. split; [by exists 0%nat|]. by intros [|[|i]] m.
  - unfold run in *. rewrite fold_left_app. simpl. by apply step_simple_inv.
Qed.

(** X20: the engine that loads its dependencies at run time never shows a
    book.  For every sequence of calls and script events after its
    construction: [onReady] is called, once, exactly when both scripts have
    loaded, and [onError] with the message [WebGL dependencies not
    available], once, exactly when one of them has failed, and nothing else
    is called; whichever happens, no engine is ever created, so that
    [getCurrentPage] reports page 0 of 0, [getIsAnimating] is false, and
    [nextPage], [prevPage], [goToPage] and [dispose] change nothing. *)
Theorem simple_engine_reports_ready_without_engine (trace : list Event) :
  let s := run constructor trace in
  calls s =
    match allLoaded s with
    | Pending => []
    | Fulfilled _ => [onReady]
    | Rejected _ => [onError "WebGL dependencies not available"]
    end
  ∧ (is_fulfilled (allLoaded s) = true ↔ scripts s = [Fulfilled tt; Fulfilled tt])
  ∧ (is_pending (allLoaded s) = false ∧ is_fulfilled (allLoaded s) = false ↔
     ∃ i m, scripts s !! i = Some (Rejected m))
  ∧ getCurrentPage s = mkPageInfo 0 0 0 0
  ∧ getIsAnimating s = false
  ∧ nextPage s = (Fulfilled tt, s)
  ∧ prevPage s = (Fulfilled tt, s)
  ∧ (∀ index, goToPage index s = (Fulfilled tt, s))
  ∧ dispose s = s.
Proof.
  cbv zeta. destruct (run_simple_inv trace) as (He & _ & _ & Hinv).
  unfold getCurrentPage, getIsAnimating, nextPage, prevPage, goToPage, dispose.
  rewrite He.
  destruct (allLoaded (run constructor trace)) as [|[]|m]; simpl.
  - destruct Hinv as (-> & [i Hi] & Hnr).
    split; [done|]. split.
    { split; [done|]. intros Hs. rewrite Hs in Hi. by destruct i as [|[|i]]. }
    split; [|done]. split; [by intros [? _]|]. intros (j & m & Hj). by destruct (Hnr j m).
  - destruct Hinv as (-> & Hs).
    split; [done|]. split; [done|].
    split; [|done]. split; [by intros [_ ?]|]. intros (j & m & Hj).
    rewrite Hs in Hj. by destruct j as [|[|j]].
  - destruct Hinv as (-> & j & m' & Hj).
    split; [done|]. split.
    { split; [done|]. intros Hs. rewrite Hs in Hj. by destruct j as [|[|j]]. }
    split; [|done]. split; [intros _; by exists j, m'|done].
Qed.

End SimpleEngine.

(** * The layered engine: the page information over its whole life *)

Section CSSLife.
Import CSSEngine.









End CSSLife.

(** * The claims *)

(** C2: for a media list of odd length the last item is shown twice. The
    list A, B, C gives the front cover A, the interior spread B | C and the
    back cover C: item 2 is the right slot of an interior pair and the back
    cover as well. *)
Theorem createSpreads_odd_duplicates_last_item :
  CSSEngine.createSpreads ["A"; "B"; "C"] =
  [ CSSEngine.mkSpread None (Some "A") true false;
    CSSEngine.mkSpread (Some "B") (Some "C") false false;
    CSSEngine.mkSpread (Some "C") None false true ].
Proof. vm_compute. reflexivity. Qed.

(** The same for any three non-empty locators. *)
Lemma createSpreads_three (a b c : string) :
  CSSEngine.createSpreads [a; b; c] =
  [ CSSEngine.mkSpread None (Some a) true false;
    CSSEngine.mkSpread (or_null (Some b)) (or_null (Some c)) false false;
    CSSEngine.mkSpread (Some c) None false true ].
Proof.
  rewrite createSpreads_ge2 by (simpl; lia).
  rewrite pairLoop_unfold. simpl. rewrite pairLoop_unfold. simpl. reflexivity.
Qed.

(** C3: two calls of [nextPage] in a row commit no advance in the layered
    engine.  In the five-page book the first call sets the flipping state,
    calls [onAnimationStart] and is rejected with the [SyntaxError] of
    [createFlippingPage]; the second call changes nothing; no timer is
    pending, so that nothing is ever committed: the position is still 0 and
    the engine is still flipping after the time of a flip has passed.  And
    for every configuration: once the engine is flipping, whatever happens
    apart from a direct jump leaves the position where it is and the engine
    flipping, with no timer pending.  In the scene-graph engine the same two
    calls and the end of the timeline lead from page 0 to page 1. *)
Theorem two_nextPage_calls_commit_no_advance :
  (let s0 := CSSEngine.constructor book5 in
   let r1 := CSSEngine.nextPage s0 in
   let r2 := CSSEngine.nextPage (snd r1) in
   let s := CSSEngine.run s0
              [CSSEngine.CallNextPage; CSSEngine.CallNextPage; CSSEngine.TimerElapsed] in
   fst r1 = Rejected SyntaxError
   ∧ r2 = (Fulfilled tt, snd r1)
   ∧ s = snd r1
   ∧ CSSEngine.isFlipping s = true
   ∧ CSSEngine.timers s = []
   ∧ CSSEngine.flippingContainers (CSSEngine.dom s) = []
   ∧ CSSEngine.getCurrentPage s = mkPageInfo 0 8 0 4
   ∧ CSSEngine.calls s = [onAnimationStart])
  ∧ (∀ config trace more,
       let s := CSSEngine.run (CSSEngine.constructor config) trace in
       CSSEngine.isFlipping s = true →
       Forall (λ e, ∀ x, e ≠ CSSEngine.CallGoToPage x) more →
       CSSEngine.currentSpread (CSSEngine.run s more) = CSSEngine.currentSpread s
       ∧ CSSEngine.isFlipping (CSSEngine.run s more) = true
       ∧ CSSEngine.timers (CSSEngine.run s more) = [])
  ∧ (let w := WebGLEngine.run (WebGLEngine.constructor book3)
                [WebGLEngine.TextureLoad 0 (Some (800, 600));
                 WebGLEngine.TextureLoad 1 (Some (800, 600));
                 WebGLEngine.TextureLoad 2 (Some (800, 600));
                 WebGLEngine.CallNextPage; WebGLEngine.CallNextPage;
                 WebGLEngine.TimelineComplete] in
     WebGLEngine.getCurrentPage w = mkPageInfo 1 3 0 2
     ∧ WebGLEngine.isAnimating w = false
     ∧ WebGLEngine.timelines w = []).
Proof.
  split. { vm_compute. repeat split. }
  split; [|vm_compute; repeat split].
  intros config trace more. cbv zeta. intros Hfl Hmore.
  pose proof (run_flip_inv _ trace (constructor_flip_inv config)) as Hinv.
  set (s := CSSEngine.run (CSSEngine.constructor config) trace) in *.
  induction more as [|e more IH] using rev_ind; [by destruct Hinv|].
  apply Forall_app in Hmore as [Hmore He]. apply Forall_inv in He.
  destruct (IH Hmore) as (Hc & Hf & Ht).
  rewrite run_snoc.
  split; [|split].
  - rewrite <- Hc. by apply step_position.
  - by apply step_stays_flipping.
  - apply step_flip_inv, run_flip_inv, Hinv.
Qed.

(** A direct jump does the same whether or not a flip is in progress. *)
Lemma goToPage_ignores_isFlipping (s : CSSEngine.t) (index : number) (b : bool) :
  snd (CSSEngine.goToPage index (CSSEngine.set_isFlipping b s)) =
  CSSEngine.set_isFlipping b (snd (CSSEngine.goToPage index s)).
Proof.
  unfold CSSEngine.goToPage, CSSEngine.renderCurrentSpread, CSSEngine.updatePageIndicator.
  destruct s. simpl. repeat case_match; reflexivity.
Qed.

(** Between flips and for an integer a direct jump does what is expected
    of it: the index is halved; a target within the spreads and different
    from the position is committed at once, rendered and reported by
    [onPageChange], and neither a timer nor a flipping page is created; any
    other target changes nothing. *)
Lemma goToPage_effect (s : CSSEngine.t) (index cur : Z) :
  CSSEngine.currentSpread s = Int cur →
  let k := index / 2 in
  (0 <= k < Z.of_nat (length (CSSEngine.spreads s)) → k ≠ cur →
   ∃ d, CSSEngine.goToPage index s =
        (Fulfilled tt,
         CSSEngine.call (onPageChange (pageInfo_at k (length (CSSEngine.spreads s))))
           (CSSEngine.set_dom d (CSSEngine.set_currentSpread k s)))
        ∧ CSSEngine.flippingContainers d =
          CSSEngine.flippingContainers (CSSEngine.dom s))
  ∧ (¬ (0 <= k < Z.of_nat (length (CSSEngine.spreads s)) ∧ k ≠ cur) →
     CSSEngine.goToPage index s = (Fulfilled tt, s)).
Proof.
  intros Hcur. cbv zeta. unfold CSSEngine.goToPage. rewrite Hcur. simpl Number.floor_half.
  rewrite ltb_Int, geb_Int, eqb_Int. split.
  - intros Hk Hne.
    assert ((index / 2 <? 0) = false) as -> by (apply Z.ltb_ge; lia).
    assert ((index / 2 >=? Z.of_nat (length (CSSEngine.spreads s))) = false) as ->
      by (rewrite Z.geb_leb; apply Z.leb_gt; lia).
    assert ((index / 2 =? cur) = false) as -> by (by apply Z.eqb_neq).
    simpl. unfold CSSEngine.renderCurrentSpread, CSSEngine.updatePageIndicator.
    destruct s. simpl. repeat case_match; eexists; split; reflexivity.
  - intros Hno. case_match eqn:Htest; [done|]. zbool. lia.
Qed.

(** C4: a direct jump made while a flip is in progress takes effect, and
    NaN passes the range test.  In the five-page book, after [nextPage] has
    set the flipping state, [goToPage(6)] moves the position to spread 3 and
    calls [onPageChange].  In the scene-graph engine [goToPage(2)] during a
    flip moves to page 2 and the end of the timeline moves on to page 3 of
    3.  Between flips [goToPage(NaN)] commits NaN in the layered engine and
    reports it; in the scene-graph engine it hides the page shown, stores
    NaN and is rejected, and so is [goToPage(1.5)]. *)
Theorem goToPage_during_flip_takes_effect :
  (let s := CSSEngine.run (CSSEngine.constructor book5) [CSSEngine.CallNextPage] in
   let s' := snd (CSSEngine.goToPage 6 s) in
   CSSEngine.isFlipping s = true
   ∧ CSSEngine.getCurrentPage s = mkPageInfo 0 8 0 4
   ∧ fst (CSSEngine.goToPage 6 s) = Fulfilled tt
   ∧ CSSEngine.isFlipping s' = true
   ∧ CSSEngine.getCurrentPage s' = mkPageInfo 6 8 3 4
   ∧ CSSEngine.calls s' = CSSEngine.calls s ++ [onPageChange (mkPageInfo 6 8 3 4)])
  ∧
  (let w := WebGLEngine.run (WebGLEngine.constructor book3)
              [WebGLEngine.TextureLoad 0 (Some (800, 600));
               WebGLEngine.TextureLoad 1 (Some (800, 600));
               WebGLEngine.TextureLoad 2 (Some (800, 600));
               WebGLEngine.CallNextPage] in
   let w' := snd (WebGLEngine.goToPage 2 w) in
   let w'' := WebGLEngine.step w' WebGLEngine.TimelineComplete in
   WebGLEngine.isAnimating w = true
   ∧ WebGLEngine.currentPage w = 0
   ∧ WebGLEngine.isAnimating w' = true
   ∧ WebGLEngine.currentPage w' = 2
   ∧ WebGLEngine.calls w' = WebGLEngine.calls w ++ [onPageChange (mkPageInfo 2 3 1 2)]
   ∧ WebGLEngine.getCurrentPage w'' = mkPageInfo 3 3 1 2)
  ∧
  (let s := CSSEngine.constructor book5 in
   let s' := snd (CSSEngine.goToPage NaN s) in
   CSSEngine.isFlipping s = false
   ∧ fst (CSSEngine.goToPage NaN s) = Fulfilled tt
   ∧ CSSEngine.getCurrentPage s' = mkPageInfo NaN 8 NaN 4
   ∧ CSSEngine.calls s' = [onPageChange (mkPageInfo NaN 8 NaN 4)])
  ∧
  (let w := WebGLEngine.run (WebGLEngine.constructor book3)
              [WebGLEngine.TextureLoad 0 (Some (800, 600));
               WebGLEngine.TextureLoad 1 (Some (800, 600));
               WebGLEngine.TextureLoad 2 (Some (800, 600))] in
   WebGLEngine.isAnimating w = false
   ∧ map WebGLEngine.visible (WebGLEngine.pages w) = [true; false; false]
   ∧ ∀ x, x = NaN ∨ x = Fraction false 1 1 →
       fst (WebGLEngine.goToPage x w) = Rejected WebGLEngine.TypeError
       ∧ WebGLEngine.currentPage (snd (WebGLEngine.goToPage x w)) = x
       ∧ map WebGLEngine.visible (WebGLEngine.pages (snd (WebGLEngine.goToPage x w)))
         = [false; false; false]).
Proof.
  split; [vm_compute; repeat split|]. split; [vm_compute; repeat split|].
  split; [vm_compute; repeat split|].
  split; [vm_compute; reflexivity|]. split; [vm_compute; reflexivity|].
  intros x [-> | ->]; vm_compute; repeat split.
Qed.



(** C6: when an image fails and no image has failed before it, the aggregate
    load rejects with its error, [onError] is called with that error, once,
    and neither [onLoadComplete] nor [onReady] is ever called; when every
    image loads and none fails, [onLoadComplete] and [onReady] are called.
    Both engines. *)
Theorem load_outcome (config : FlipbookConfig) :
  (∀ pre i src post,
     images_of config !! i = Some src →
     (∀ j, CSSEngine.ImageError j ∉ pre) → CSSEngine.ImageLoad i ∉ pre →
     let s := CSSEngine.run (CSSEngine.constructor config)
                (pre ++ CSSEngine.ImageError i :: post) in
     CSSEngine.allLoaded s = Rejected ("Failed to load image: " ++ src)%string
     ∧ lifecycle (CSSEngine.calls s) = [onError ("Failed to load image: " ++ src)%string])
  ∧ (∀ trace,
       (∀ i, (i < length (images_of config))%nat → CSSEngine.ImageLoad i ∈ trace) →
       (∀ j, CSSEngine.ImageError j ∉ trace) →
       let s := CSSEngine.run (CSSEngine.constructor config) trace in
       CSSEngine.allLoaded s = Fulfilled tt
       ∧ lifecycle (CSSEngine.calls s) = [onLoadComplete; onReady])
  ∧ (∀ pre e i imagePath post,
       images_of config !! i = Some imagePath →
       target e = Some i → is_failure e = true →
       (∀ e', e' ∈ pre → is_failure e' = false ∧ target e' ≠ Some i) →
       let s := WebGLEngine.run (WebGLEngine.constructor config) (pre ++ e :: post) in
       WebGLEngine.allLoaded s = Rejected (failure_message imagePath e)
       ∧ lifecycle (WebGLEngine.calls s) = [onError (failure_message imagePath e)])
  ∧ (∀ trace,
       (∀ i, (i < length (images_of config))%nat →
             ∃ e, e ∈ trace ∧ target e = Some i) →
       (∀ e, e ∈ trace → is_failure e = false) →
       let s := WebGLEngine.run (WebGLEngine.constructor config) trace in
       is_fulfilled (WebGLEngine.allLoaded s) = true
       ∧ lifecycle (WebGLEngine.calls s) = [onLoadComplete; onReady]).
Proof.
  split; [|split; [|split]].
  - intros pre i src post. apply css_first_failure.
  - intros trace. apply css_all_loaded.
  - intros pre e i imagePath post. apply webgl_first_failure.
  - intros trace. apply webgl_all_loaded.
Qed.

(** C6 at the spec's scenario: the first of three images fails after the
    second has loaded. *)
Lemma load_outcome_witness :
  lifecycle (CSSEngine.calls
    (CSSEngine.run (CSSEngine.constructor book3)
       ([CSSEngine.ImageLoad 1] ++ CSSEngine.ImageError 0 :: [CSSEngine.ImageLoad 2])))
  = [onError "Failed to load image: A"].
Proof.
  apply (proj1 (load_outcome book3) [CSSEngine.ImageLoad 1] 0%nat "A" [CSSEngine.ImageLoad 2]).
  - reflexivity.
  - intros j Hj. apply list_elem_of_singleton in Hj. discriminate Hj.
  - intros Hj. apply list_elem_of_singleton in Hj. discriminate Hj.
Defined.

(** C7: the scene-graph engine reports [loaded = index + 1]. When the
    third of three images completes first, the reports are 3, 1, 2: [loaded]
    decreases, and the last report before [onLoadComplete] says 2 of 3. *)
Theorem webgl_progress_follows_index :
  WebGLEngine.calls
    (WebGLEngine.run (WebGLEngine.constructor book3)
       [WebGLEngine.TextureLoad 2 (Some (800, 600));
        WebGLEngine.TextureLoad 0 (Some (800, 600));
        WebGLEngine.TextureLoad 1 (Some (800, 600))])
  = [onLoadProgress (mkLoadingProgress 3 3 (3 # 3) (Some "C"));
     onLoadProgress (mkLoadingProgress 1 3 (1 # 3) (Some "A"));
     onLoadProgress (mkLoadingProgress 2 3 (2 # 3) (Some "B"));
     onLoadComplete; onReady].
Proof. vm_compute. reflexivity. Qed.

(** The layered engine counts the loaded images: whatever the order of
    completion, its reports say 1, 2, 3, ... *)
Lemma css_progress_counts_up (config : FlipbookConfig) (trace : list CSSEngine.Event) :
  let s := CSSEngine.run (CSSEngine.constructor config) trace in
  map loaded (progress_reports (CSSEngine.calls s)) =
  map Z.of_nat (seq 1 (size (CSSEngine.loadedImages s))).
Proof. apply run_progress_inv. Qed.

(** And once the aggregate load is fulfilled it has counted every image:
    the last report says [loaded = total]. *)
Lemma css_progress_complete (config : FlipbookConfig) (trace : list CSSEngine.Event) :
  let s := CSSEngine.run (CSSEngine.constructor config) trace in
  CSSEngine.allLoaded s = Fulfilled tt →
  Z.of_nat (size (CSSEngine.loadedImages s)) = media_length config.
Proof.
  cbv zeta. intros Hall.
  pose proof (run_css_inv _ trace (constructor_css_inv config)) as (_ & _ & Hlen & Hl).
  pose proof (run_progress_inv config trace) as (Hset & _).
  destruct (run_book (CSSEngine.constructor config) trace) as [Hcfg _].
  destruct (constructor_book config) as [Hcfg0 _].
  rewrite Hcfg, Hcfg0 in Hlen. rewrite Hall in Hl. destruct Hl as [Hf _].
  assert (CSSEngine.loadedImages (CSSEngine.run (CSSEngine.constructor config) trace)
          = list_to_set (seq 0 (length (images_of config)))) as ->.
  { apply set_eq. intros i. rewrite Hset, elem_of_list_to_set, elem_of_seq. split.
    - intros Hi%lookup_lt_Some. lia.
    - intros [_ Hi]. simpl in Hi. rewrite <- Hlen in Hi.
      destruct (lookup_lt_is_Some_2 _ _ Hi) as [p Hp].
      rewrite Hp. specialize (Hf _ _ Hp). by destruct p as [|[]|]. }
  rewrite size_list_to_set by apply NoDup_seq. rewrite length_seq.
  unfold media_length, images_of. by destruct (media_src config).
Qed.

(** C8: [getCurrentPage().index] leaves the range [0, total - 1].  In the
    scene-graph engine a direct jump to the last page during a flip is
    followed by the commit of the flip: the index is 3 of 3 pages.  In the
    layered engine [goToPage(NaN)] commits NaN: the index is NaN.  An engine
    for the empty media list reports index 0 of 0 pages. *)
Theorem getCurrentPage_index_out_of_range :
  (let w := WebGLEngine.run (WebGLEngine.constructor book3)
              [WebGLEngine.TextureLoad 0 (Some (800, 600));
               WebGLEngine.TextureLoad 1 (Some (800, 600));
               WebGLEngine.TextureLoad 2 (Some (800, 600));
               WebGLEngine.CallNextPage; WebGLEngine.CallGoToPage 2;
               WebGLEngine.TimelineComplete] in
   WebGLEngine.getCurrentPage w = mkPageInfo 3 3 1 2
   ∧ WebGLEngine.isAnimating w = false
   ∧ WebGLEngine.timelines w = []
   ∧ element (WebGLEngine.pages w) (index (WebGLEngine.getCurrentPage w)) = None)
  ∧ (let s := CSSEngine.run (CSSEngine.constructor book5) [CSSEngine.CallGoToPage NaN] in
     CSSEngine.getCurrentPage s = mkPageInfo NaN 8 NaN 4
     ∧ CSSEngine.isFlipping s = false
     ∧ Number.geb (index (CSSEngine.getCurrentPage s)) 0 = false
     ∧ Number.leb (index (CSSEngine.getCurrentPage s)) 7 = false)
  ∧ CSSEngine.getCurrentPage (CSSEngine.constructor no_book) = mkPageInfo 0 0 0 0
  ∧ WebGLEngine.getCurrentPage
      (WebGLEngine.constructor (mkConfig (Many []) webgl None true)) = mkPageInfo 0 0 0 0.
Proof. vm_compute. repeat split. Qed.

(** C9: whatever the state of the engine the facade owns,
    [getLoadingProgress] reports [loaded = total = getCurrentPage().total] and
    [progress = 1]. Right after the construction of the five-page book, with
    no image loaded yet, it reports 8 of 8. *)
Theorem facade_progress_always_complete (f : Flipbook.t) :
  loaded (Flipbook.getLoadingProgress f) = total (Flipbook.getCurrentPage f)
  ∧ lp_total (Flipbook.getLoadingProgress f) = total (Flipbook.getCurrentPage f)
  ∧ progress (Flipbook.getLoadingProgress f) = 1%Q
  ∧ (let f0 := Flipbook.constructor book5 false in
     match Flipbook.engine f0 with
     | Flipbook.CSS e =>
         CSSEngine.allLoaded e = Pending ∧ size (CSSEngine.loadedImages e) = 0%nat
     | Flipbook.WebGL _ => False
     end
     ∧ Flipbook.getLoadingProgress f0 = mkLoadingProgress 8 8 1 None).
Proof.
  split; [reflexivity|]. split; [reflexivity|]. split; [reflexivity|].
  vm_compute. repeat split.
Qed.



(** C10 for the five-page book: four spreads, total 8, not 5. *)
Example css_page_info_book5 :
  CSSEngine.getCurrentPage (CSSEngine.constructor book5) = mkPageInfo 0 8 0 4.
Proof. vm_compute. reflexivity. Qed.
